(** * NDO basic-info script: a shallow embedding of [ndo_base_info.py]

    The development follows the script top-down in the order of the source:
    archive expansion ([extract_zip], [extract_tar_gz], [process_file],
    [handle_extracted_directory]), recovery of concatenated JSON objects
    ([correct_json_format], [parse_json_file]), projection of site records
    ([extract_site_data]) and the two sorted listings ([get_ndo_versions],
    [get_last_audits]).

    Python values are modelled as follows.
    - A [str] is a list of Unicode code points ([pystr]); string constants
      of the script are written with [str "..."].
    - A value produced by [json.loads] is a [value]; a Python [dict] is an
      association list without duplicate keys kept in insertion order.
    - A call that may raise returns a [result]; [try]/[except] blocks of the
      script are pattern matches on the raised exception.
    - Library calls ([re.findall], [json.loads], [str.replace],
      [datetime.fromisoformat], [list.sort]) are modelled from the behaviour
      of CPython 3.11.  The limits of the interpreter (recursion depth in
      the decoder, the number of digits of an integer) are taken to be
      large enough.  Of what the script prints, the table of
      [display_site_list] is modelled, as the list of its lines. *)

From Stdlib Require Import String Ascii List ZArith NArith Lia Bool Sorted Permutation.
From Stdlib Require Import DecimalString.
Import ListNotations.

Set Warnings "-register-all".

(** ** Strings and characters *)

Definition char := N.
Definition pystr := list char.

Definition str (s : string) : pystr := map N_of_ascii (list_ascii_of_string s).

Definition chr (a : ascii) : char := N_of_ascii a.

Definition ch_eqb (a b : char) : bool := N.eqb a b.

Fixpoint pystr_eqb (a b : pystr) : bool :=
  match a, b with
  | [], [] => true
  | x :: a', y :: b' => ch_eqb x y && pystr_eqb a' b'
  | _, _ => false
  end.

(** [s.startswith(p)], returning the remainder of [s] after [p]. *)
Fixpoint strip_prefix (p s : pystr) : option pystr :=
  match p with
  | [] => Some s
  | x :: p' =>
      match s with
      | [] => None
      | y :: s' => if ch_eqb x y then strip_prefix p' s' else None
      end
  end.

Definition startswith (s p : pystr) : bool :=
  match strip_prefix p s with Some _ => true | None => false end.

(** [s.endswith(p)]. *)
Definition endswith (s p : pystr) : bool := startswith (rev s) (rev p).

(** [sep.join(parts)]. *)
Fixpoint join (sep : pystr) (parts : list pystr) : pystr :=
  match parts with
  | [] => []
  | [p] => p
  | p :: rest => p ++ sep ++ join sep rest
  end.

(** [s.replace(old, new)] for a non-empty [old]: every non-overlapping
    occurrence of [old], scanning left to right, is replaced.  [skip] counts
    the characters of an occurrence that are still to be passed over. *)
Fixpoint replace_from (old new : pystr) (skip : nat) (s : pystr) : pystr :=
  match s with
  | [] => []
  | c :: r =>
      match skip with
      | S k => replace_from old new k r
      | O =>
          if startswith s old
          then new ++ replace_from old new (length old - 1) r
          else c :: replace_from old new 0 r
      end
  end.

Definition replace (s old new : pystr) : pystr := replace_from old new 0 s.

(** ** Exceptions and results *)

Inductive exn : Type :=
| FileNotFoundError
| PermissionError
| IsADirectoryError
| UnicodeDecodeError
| JSONDecodeError
| ValueError
| TypeError
| AttributeError
| UnboundLocalError
| BadZipFile
| ReadError
| FileExistsError
| NotADirectoryError
| RecursionError.

Inductive result (A : Type) : Type :=
| Ok (a : A)
| Raise (e : exn).

Arguments Ok {A} a.
Arguments Raise {A} e.

Definition bind {A B : Type} (m : result A) (k : A -> result B) : result B :=
  match m with
  | Ok a => k a
  | Raise e => Raise e
  end.

Notation "x <- m ;; k" := (bind m (fun x => k))
  (at level 61, m at next level, right associativity).
Notation "' p <- m ;; k" := (bind m (fun p => k))
  (at level 61, p pattern, m at next level, right associativity).

Definition succeeds {A : Type} (m : result A) : Prop := exists a, m = Ok a.

(** ** JSON values *)

(** The values [json.loads] builds.  A float keeps the text Python passes to
    [float()]; the constants [NaN], [Infinity] and [-Infinity] are floats. *)
Inductive value : Type :=
| JNull
| JBool (b : bool)
| JInt (z : Z)
| JFloat (lexeme : pystr)
| JStr (s : pystr)
| JList (l : list value)
| JDict (d : list (pystr * value)).

Definition dict := list (pystr * value).

(** [d.get(k)] as an option ([None] when the key is absent). *)
Fixpoint dict_get (k : pystr) (d : dict) : option value :=
  match d with
  | [] => None
  | (k', v) :: d' => if pystr_eqb k k' then Some v else dict_get k d'
  end.

(** [d[k] = v]: an existing key keeps its position and takes the new value,
    a new key is appended. *)
Fixpoint dict_set (k : pystr) (v : value) (d : dict) : dict :=
  match d with
  | [] => [(k, v)]
  | (k', v') :: d' =>
      if pystr_eqb k k' then (k, v) :: d' else (k', v') :: dict_set k v d'
  end.

(** [d.get(k, default)]. *)
Definition get_default (k : pystr) (default : value) (d : dict) : value :=
  match dict_get k d with
  | Some v => v
  | None => default
  end.

(** ** [re.findall(r'{.*?}(?=\s*{|\s*$)', content, re.DOTALL)] *)

Definition LBRACE : char := Eval cbv in chr "{".
Definition RBRACE : char := Eval cbv in chr "}".
Definition LBRACKET : char := Eval cbv in chr "[".
Definition RBRACKET : char := Eval cbv in chr "]".
Definition DQUOTE : char := 34%N.
Definition BACKSLASH : char := Eval cbv in chr "\".
Definition COMMA : char := Eval cbv in chr ",".
Definition COLON : char := Eval cbv in chr ":".
Definition MINUS : char := Eval cbv in chr "-".
Definition NEWLINE : char := 10%N.

(** The class [\s] of a [str] pattern: Unicode white space. *)
Definition is_space (c : char) : bool :=
  ((9 <=? c) && (c <=? 13) || (28 <=? c) && (c <=? 32) || (c =? 133)
   || (c =? 160) || (c =? 5760) || (8192 <=? c) && (c <=? 8202)
   || (c =? 8232) || (c =? 8233) || (c =? 8239) || (c =? 8287)
   || (c =? 12288))%N.

(** [\s*] followed by [p], with backtracking over the number of white-space
    characters taken. *)
Fixpoint spaces_then (p : pystr -> bool) (s : pystr) : bool :=
  p s || match s with
         | [] => false
         | c :: r => is_space c && spaces_then p r
         end.

Definition at_lbrace (s : pystr) : bool :=
  match s with
  | c :: _ => ch_eqb c LBRACE
  | [] => false
  end.

(** [$] without [re.MULTILINE]: the end of the text, or just before a newline
    that ends the text. *)
Definition at_dollar (s : pystr) : bool :=
  match s with
  | [] => true
  | [c] => ch_eqb c NEWLINE
  | _ => false
  end.

(** The lookahead [(?=\s*{|\s*$)]. *)
Definition lookahead (s : pystr) : bool :=
  spaces_then at_lbrace s || spaces_then at_dollar s.

(** [.*?}] followed by the lookahead, after the opening brace: the shortest
    run of arbitrary characters (DOTALL) that ends in a closing brace at which
    the lookahead holds. *)
Fixpoint lazy_body (s : pystr) : option pystr :=
  match s with
  | [] => None
  | c :: r =>
      if ch_eqb c RBRACE && lookahead r then Some [c]
      else option_map (cons c) (lazy_body r)
  end.

(** The scan of [findall]: at each position try a match; after a match
    resume right behind it ([skip] characters further), otherwise one
    character further. *)
Fixpoint findall_from (skip : nat) (s : pystr) : list pystr :=
  match s with
  | [] => []
  | c :: r =>
      match skip with
      | S k => findall_from k r
      | O =>
          if ch_eqb c LBRACE then
            match lazy_body r with
            | Some m => (c :: m) :: findall_from (length m) r
            | None => findall_from 0 r
            end
          else findall_from 0 r
      end
  end.

Definition findall (content : pystr) : list pystr := findall_from 0 content.

(** ** [json.loads]

    The decoder of CPython ([json.decoder], C scanner, [strict=True]).  The
    scanner functions take the text from the current index on and return the
    decoded value with the text that is left. *)

(** [WHITESPACE = [ \t\n\r]*]. *)
Definition is_json_ws (c : char) : bool :=
  ((c =? 32) || (c =? 9) || (c =? 10) || (c =? 13))%N.

Fixpoint skip_ws (s : pystr) : pystr :=
  match s with
  | c :: r => if is_json_ws c then skip_ws r else s
  | [] => []
  end.

Definition is_digit (c : char) : bool := ((48 <=? c) && (c <=? 57))%N.

Definition hex_val (c : char) : option N :=
  if is_digit c then Some (c - 48)%N
  else if ((97 <=? c) && (c <=? 102))%N then Some (c - 87)%N
  else if ((65 <=? c) && (c <=? 70))%N then Some (c - 55)%N
  else None.

Definition hex4 (a b c d : char) : option N :=
  match hex_val a, hex_val b, hex_val c, hex_val d with
  | Some x, Some y, Some z, Some w => Some (((x * 16 + y) * 16 + z) * 16 + w)%N
  | _, _, _, _ => None
  end.

Definition is_high_surrogate (u : N) : bool := ((55296 <=? u) && (u <=? 56319))%N.
Definition is_low_surrogate (u : N) : bool := ((56320 <=? u) && (u <=? 57343))%N.
Definition join_surrogates (hi lo : N) : N :=
  (65536 + ((hi - 55296) * 1024 + (lo - 56320)))%N.

(** The one-character escapes after a backslash. *)
Definition unescape (c : char) : option char :=
  if ch_eqb c DQUOTE then Some DQUOTE
  else if ch_eqb c BACKSLASH then Some BACKSLASH
  else if ch_eqb c (chr "/") then Some (chr "/")
  else if ch_eqb c (chr "b") then Some 8%N
  else if ch_eqb c (chr "f") then Some 12%N
  else if ch_eqb c (chr "n") then Some 10%N
  else if ch_eqb c (chr "r") then Some 13%N
  else if ch_eqb c (chr "t") then Some 9%N
  else None.

Definition consk (c : char) (m : result (pystr * pystr)) : result (pystr * pystr) :=
  '(k, r) <- m ;; Ok (c :: k, r).

(** [scanstring]: the text after the opening quote, up to the closing one. *)
Fixpoint scanstring (s : pystr) : result (pystr * pystr) :=
  match s with
  | [] => Raise JSONDecodeError
  | c :: r =>
      if ch_eqb c DQUOTE then Ok ([], r)
      else if ch_eqb c BACKSLASH then
        match r with
        | [] => Raise JSONDecodeError
        | e :: r1 =>
            if ch_eqb e (chr "u") then
              match r1 with
              | h1 :: h2 :: h3 :: h4 :: r2 =>
                  match hex4 h1 h2 h3 h4 with
                  | None => Raise JSONDecodeError
                  | Some u =>
                      if is_high_surrogate u then
                        match r2 with
                        | b :: e2 :: g1 :: g2 :: g3 :: g4 :: r3 =>
                            if ch_eqb b BACKSLASH && ch_eqb e2 (chr "u") then
                              match hex4 g1 g2 g3 g4 with
                              | None => Raise JSONDecodeError
                              | Some u2 =>
                                  if is_low_surrogate u2
                                  then consk (join_surrogates u u2) (scanstring r3)
                                  else consk u (scanstring r2)
                              end
                            else consk u (scanstring r2)
                        | _ => consk u (scanstring r2)
                        end
                      else consk u (scanstring r2)
                  end
              | _ => Raise JSONDecodeError
              end
            else
              match unescape e with
              | Some x => consk x (scanstring r1)
              | None => Raise JSONDecodeError
              end
        end
      else if (c <=? 31)%N then Raise JSONDecodeError
      else consk c (scanstring r)
  end.

Fixpoint span_digits (s : pystr) : pystr * pystr :=
  match s with
  | c :: r =>
      if is_digit c then let (d, r') := span_digits r in (c :: d, r')
      else ([], s)
  | [] => ([], [])
  end.

(** [int(digits)] for a run of decimal digits. *)
Definition int_of_digits (ds : pystr) : Z :=
  fold_left (fun acc c => (acc * 10 + (Z.of_N c - 48))%Z) ds 0%Z.

(** The digits of the integer part: either [0] or a non-zero digit followed
    by any digits. *)
Definition match_int_digits (s : pystr) : option (pystr * pystr) :=
  match s with
  | [] => None
  | c :: r =>
      if ch_eqb c (chr "0") then Some ([c], r)
      else if is_digit c then
        let (ds, r') := span_digits r in Some (c :: ds, r')
      else None
  end.

(** The integer part: an optional minus sign, then the digits. *)
Definition match_integer (s : pystr) : option (bool * pystr * pystr) :=
  match s with
  | [] => None
  | c :: r =>
      if ch_eqb c MINUS
      then option_map (fun p => (true, fst p, snd p)) (match_int_digits r)
      else option_map (fun p => (false, fst p, snd p)) (match_int_digits s)
  end.

(** The fraction [(\.[0-9]+)?]. *)
Definition match_frac (s : pystr) : pystr * pystr :=
  match s with
  | p :: d :: r =>
      if ch_eqb p (chr ".") && is_digit d
      then let (ds, r') := span_digits r in (p :: d :: ds, r')
      else ([], s)
  | _ => ([], s)
  end.

(** The exponent [([eE][-+]?[0-9]+)?]. *)
Definition match_exp (s : pystr) : pystr * pystr :=
  match s with
  | e :: r =>
      if ch_eqb e (chr "e") || ch_eqb e (chr "E") then
        let '(sign, r1) :=
          match r with
          | g :: r' =>
              if ch_eqb g (chr "+") || ch_eqb g MINUS then ([g], r') else ([], r)
          | [] => ([], r)
          end in
        match span_digits r1 with
        | ([], _) => ([], s)
        | (ds, r2) => (e :: sign ++ ds, r2)
        end
      else ([], s)
  | [] => ([], s)
  end.

(** [match_number]: an [int] when there is neither fraction nor exponent,
    otherwise a [float] of the whole lexeme. *)
Definition match_number (s : pystr) : option (value * pystr) :=
  match match_integer s with
  | None => None
  | Some (neg, ds, r) =>
      let (frac, r1) := match_frac r in
      let (exp, r2) := match_exp r1 in
      match frac, exp with
      | [], [] =>
          Some (JInt (if neg then - int_of_digits ds else int_of_digits ds)%Z, r2)
      | _, _ =>
          Some (JFloat ((if neg then [MINUS] else []) ++ ds ++ frac ++ exp), r2)
      end
  end.

(** A named constant at the head of the text. *)
Definition literal (name : string) (v : value) (s : pystr) : option (value * pystr) :=
  match strip_prefix (str name) s with
  | Some r => Some (v, r)
  | None => None
  end.

(** The named constants, tried by the first character of the text. *)
Definition scan_constant (s : pystr) : option (value * pystr) :=
  match s with
  | [] => None
  | c :: _ =>
      if ch_eqb c (chr "n") then literal "null" JNull s
      else if ch_eqb c (chr "t") then literal "true" (JBool true) s
      else if ch_eqb c (chr "f") then literal "false" (JBool false) s
      else if ch_eqb c (chr "N") then literal "NaN" (JFloat (str "NaN")) s
      else if ch_eqb c (chr "I") then literal "Infinity" (JFloat (str "Infinity")) s
      else if ch_eqb c MINUS then literal "-Infinity" (JFloat (str "-Infinity")) s
      else None
  end.

(** What is neither string, object nor array: a named constant, else a
    number, else "Expecting value". *)
Definition scan_atom (s : pystr) : result (value * pystr) :=
  match scan_constant s with
  | Some res => Ok res
  | None =>
      match match_number s with
      | Some res => Ok res
      | None => Raise JSONDecodeError
      end
  end.

(** [scan_once], [JSONObject] and [JSONArray].  [n] bounds the number of
    nested calls; running out of it is Python's [RecursionError]. *)
Fixpoint scan_once (n : nat) (s : pystr) : result (value * pystr) :=
  match n with
  | O => Raise RecursionError
  | S n' =>
      match s with
      | [] => Raise JSONDecodeError
      | c :: r =>
          if ch_eqb c DQUOTE then
            '(k, r') <- scanstring r ;; Ok (JStr k, r')
          else if ch_eqb c LBRACE then
            match skip_ws r with
            | c1 :: r1 =>
                if ch_eqb c1 RBRACE then Ok (JDict [], r1)
                else parse_members n' (c1 :: r1) []
            | [] => Raise JSONDecodeError
            end
          else if ch_eqb c LBRACKET then
            match skip_ws r with
            | c1 :: r1 =>
                if ch_eqb c1 RBRACKET then Ok (JList [], r1)
                else parse_elements n' (c1 :: r1) []
            | [] => Raise JSONDecodeError
            end
          else scan_atom s
      end
  end

(** The members of an object, from the quote that opens a key. *)
with parse_members (n : nat) (s : pystr) (acc : dict) : result (value * pystr) :=
  match n with
  | O => Raise RecursionError
  | S n' =>
      match s with
      | [] => Raise JSONDecodeError
      | c :: r =>
          if ch_eqb c DQUOTE then
            '(key, r1) <- scanstring r ;;
            match skip_ws r1 with
            | c2 :: r2 =>
                if ch_eqb c2 COLON then
                  '(v, r3) <- scan_once n' (skip_ws r2) ;;
                  let acc' := dict_set key v acc in
                  match skip_ws r3 with
                  | c3 :: r4 =>
                      if ch_eqb c3 RBRACE then Ok (JDict acc', r4)
                      else if ch_eqb c3 COMMA
                           then parse_members n' (skip_ws r4) acc'
                      else Raise JSONDecodeError
                  | [] => Raise JSONDecodeError
                  end
                else Raise JSONDecodeError
            | [] => Raise JSONDecodeError
            end
          else Raise JSONDecodeError
      end
  end

(** The elements of an array, from the first character of an element. *)
with parse_elements (n : nat) (s : pystr) (acc : list value) : result (value * pystr) :=
  match n with
  | O => Raise RecursionError
  | S n' =>
      '(v, r1) <- scan_once n' s ;;
      match skip_ws r1 with
      | c :: r2 =>
          if ch_eqb c RBRACKET then Ok (JList (acc ++ [v]), r2)
          else if ch_eqb c COMMA
               then parse_elements n' (skip_ws r2) (acc ++ [v])
          else Raise JSONDecodeError
      | [] => Raise JSONDecodeError
      end
  end.

(** A bound that the scanner does not reach on a text of this length: the
    recursion limit of the interpreter is taken to be large enough. *)
Definition json_fuel (s : pystr) : nat := 2 * List.length s + 2.

(** [json.loads(s)]: leading white space, one value, trailing white space,
    and nothing else ("Extra data"). *)
Definition json_loads (s : pystr) : result value :=
  '(v, r) <- scan_once (json_fuel s) (skip_ws s) ;;
  match skip_ws r with
  | [] => Ok v
  | _ :: _ => Raise JSONDecodeError
  end.

(** ** [datetime.fromisoformat] and the order of [datetime] values

    The parser of CPython 3.11 ([_datetimemodule.c]).  It works on the UTF-8
    encoding of the string, with indices into it; reading at or behind the
    end yields the terminating NUL, here [byte_at] with default [0]. *)

Record datetime : Type := mk_datetime {
  dt_year : Z;
  dt_month : Z;
  dt_day : Z;
  dt_hour : Z;
  dt_minute : Z;
  dt_second : Z;
  dt_microsecond : Z;
  (** [utcoffset()] in microseconds; [None] for a naive value. *)
  dt_utcoffset : option Z
}.

Definition is_leap (year : Z) : bool :=
  ((year mod 4 =? 0) && (negb (year mod 100 =? 0) || (year mod 400 =? 0)))%Z.

Definition days_before_year (year : Z) : Z :=
  (let y := year - 1 in y * 365 + y / 4 - y / 100 + y / 400)%Z.

Definition DAYS_IN_MONTH : list Z :=
  [-1; 31; 28; 31; 30; 31; 30; 31; 31; 30; 31; 30; 31]%Z.

Definition DAYS_BEFORE_MONTH : list Z :=
  [-1; 0; 31; 59; 90; 120; 151; 181; 212; 243; 273; 304; 334]%Z.

Definition days_in_month (year month : Z) : Z :=
  if ((month =? 2)%Z && is_leap year) then 29%Z
  else nth (Z.to_nat month) DAYS_IN_MONTH 0%Z.

Definition days_before_month (year month : Z) : Z :=
  (nth (Z.to_nat month) DAYS_BEFORE_MONTH 0
   + (if (2 <? month) && is_leap year then 1 else 0))%Z.

Definition ymd2ord (year month day : Z) : Z :=
  (days_before_year year + days_before_month year month + day)%Z.

Definition DI400Y : Z := Eval cbv in days_before_year 401.
Definition DI100Y : Z := Eval cbv in days_before_year 101.
Definition DI4Y : Z := Eval cbv in days_before_year 5.

Definition ord2ymd (ordinal : Z) : Z * Z * Z :=
  (let n := ordinal - 1 in
   let n400 := n / DI400Y in
   let n := n mod DI400Y in
   let n100 := n / DI100Y in
   let n := n mod DI100Y in
   let n4 := n / DI4Y in
   let n := n mod DI4Y in
   let n1 := n / 365 in
   let n := n mod 365 in
   let year := n400 * 400 + 1 + n100 * 100 + n4 * 4 + n1 in
   if (n1 =? 4) || (n100 =? 4) then (year - 1, 12, 31)
   else
     let leapyear := (n1 =? 3) && (negb (n4 =? 24) || (n100 =? 3)) in
     let month := (n + 50) / 32 in
     let preceding :=
       nth (Z.to_nat month) DAYS_BEFORE_MONTH 0
       + (if (2 <? month) && leapyear then 1 else 0) in
     if n <? preceding then
       let month := month - 1 in
       let preceding :=
         preceding - (nth (Z.to_nat month) DAYS_IN_MONTH 0
                      + (if (month =? 2) && leapyear then 1 else 0)) in
       (year, month, n - preceding + 1)
     else (year, month, n - preceding + 1))%Z.

(** Day number of the Monday that starts ISO week 1 of the year. *)
Definition iso_week1_monday (year : Z) : Z :=
  (let first_day := ymd2ord year 1 1 in
   let first_weekday := (first_day + 6) mod 7 in
   let week1_monday := first_day - first_weekday in
   if 3 <? first_weekday then week1_monday + 7 else week1_monday)%Z.

Definition iso_to_ymd (iso_year iso_week iso_day : Z) : option (Z * Z * Z) :=
  (let week_ok :=
     if (0 <? iso_week) && (iso_week <? 53) then true
     else if iso_week =? 53 then
       let first_weekday := (ymd2ord iso_year 1 1 + 6) mod 7 in
       (first_weekday =? 3) || ((first_weekday =? 2) && is_leap iso_year)
     else false in
   if negb week_ok then None
   else if negb ((0 <? iso_day) && (iso_day <? 8)) then None
   else
     Some (ord2ymd (iso_week1_monday iso_year + (iso_week - 1) * 7 + iso_day - 1)))%Z.

(** The UTF-8 encoding of a string; [None] when it holds a surrogate. *)
Definition utf8_char (c : char) : option (list N) :=
  (if c <? 128 then Some [c]
   else if c <? 2048 then Some [192 + c / 64; 128 + c mod 64]
   else if c <? 65536 then
     if (55296 <=? c) && (c <=? 57343) then None
     else Some [224 + c / 4096; 128 + (c / 64) mod 64; 128 + c mod 64]
   else Some [240 + c / 262144; 128 + (c / 4096) mod 64;
              128 + (c / 64) mod 64; 128 + c mod 64])%N.

Fixpoint utf8_encode (s : pystr) : option (list N) :=
  match s with
  | [] => Some []
  | c :: r =>
      match utf8_char c, utf8_encode r with
      | Some b, Some br => Some (b ++ br)
      | _, _ => None
      end
  end.

Definition is_surrogate (c : char) : bool := ((55296 <=? c) && (c <=? 57343))%N.

Fixpoint set_nth (i : nat) (x : char) (s : pystr) : pystr :=
  match s, i with
  | [], _ => []
  | _ :: r, O => x :: r
  | c :: r, S k => c :: set_nth k x r
  end.

Definition byte_at (s : list N) (i : nat) : N := nth i s 0%N.

(** [_sanitize_isoformat_str]: a surrogate at the first of the positions 7, 8
    and 10 that holds one is replaced by [T]. *)
Definition sanitize_isoformat_str (s : pystr) : pystr :=
  let n := List.length s in
  if (Nat.leb 7 n) && is_surrogate (byte_at s 7) then set_nth 7 (chr "T") s
  else if (Nat.leb 8 n) && is_surrogate (byte_at s 8) then set_nth 8 (chr "T") s
  else if (Nat.leb 10 n) && is_surrogate (byte_at s 10) then set_nth 10 (chr "T") s
  else s.

(** [parse_digits]: [num] decimal digits from index [p], accumulated onto
    [var]. *)
Fixpoint parse_digits (s : list N) (p : nat) (var : Z) (num : nat) : option (nat * Z) :=
  match num with
  | O => Some (p, var)
  | S k =>
      let c := byte_at s p in
      if is_digit c then parse_digits s (S p) (var * 10 + (Z.of_N c - 48))%Z k
      else None
  end.

(** Index of the first non-digit at or after [idx] and before [len]. *)
Fixpoint digits_end (s : list N) (idx : nat) (fuel : nat) (len : nat) : nat :=
  match fuel with
  | O => idx
  | S f =>
      if Nat.ltb idx len && is_digit (byte_at s idx)
      then digits_end s (S idx) f len
      else idx
  end.

(** [_find_isoformat_datetime_separator]; [None] stands for [-1]. *)
Definition find_isoformat_datetime_separator (s : list N) (len : nat) : option nat :=
  if Nat.eqb len 7 then Some 7
  else if ch_eqb (byte_at s 4) MINUS then
    if ch_eqb (byte_at s 5) (chr "W") then
      if Nat.ltb len 8 then None
      else if Nat.ltb 8 len && ch_eqb (byte_at s 8) MINUS then
        if Nat.eqb len 9 then None
        else if Nat.ltb 10 len && is_digit (byte_at s 10) then Some 8
        else Some 10
      else Some 8
    else Some 10
  else if ch_eqb (byte_at s 4) (chr "W") then
    let idx := digits_end s 7 len len in
    if Nat.ltb idx 9 then Some idx
    else if Nat.even idx then Some 7
    else Some 8
  else Some 8.

(** [parse_isoformat_date]; [len] is the separator location, which for [-1]
    is the largest [size_t]. *)
Definition parse_isoformat_date (s : list N) (len : option nat) : option (Z * Z * Z) :=
  match parse_digits s 0 0 4 with
  | None => None
  | Some (p, year) =>
      let uses_separator := ch_eqb (byte_at s p) MINUS in
      let p := if uses_separator then S p else p in
      if ch_eqb (byte_at s p) (chr "W") then
        match parse_digits s (S p) 0 2 with
        | None => None
        | Some (p, iso_week) =>
            if match len with Some l => Nat.ltb p l | None => true end then
              if uses_separator && negb (ch_eqb (byte_at s p) MINUS) then None
              else
                match parse_digits s (if uses_separator then S p else p) 0 1 with
                | None => None
                | Some (_, iso_day) => iso_to_ymd year iso_week iso_day
                end
            else iso_to_ymd year iso_week 1
        end
      else
        match parse_digits s p 0 2 with
        | None => None
        | Some (p, month) =>
            if uses_separator && negb (ch_eqb (byte_at s p) MINUS) then None
            else
              match parse_digits s (if uses_separator then S p else p) 0 2 with
              | None => None
              | Some (_, day) => Some (year, month, day)
              end
        end
  end.

(** Outcome of the loop over hours, minutes and seconds of
    [parse_hh_mm_ss_ff]: it returns, or goes on to the fraction. *)
Inductive hms_exit : Type :=
| HmsReturn (more : bool) (vals : list Z)
| HmsFraction (p : nat) (vals : list Z).

Fixpoint hms_loop (s : list N) (p_end : nat) (todo : nat) (first has_separator : bool)
    (p : nat) (vals : list Z) : option hms_exit :=
  match todo with
  | O => Some (HmsFraction p vals)
  | S todo' =>
      match parse_digits s p 0 2 with
      | None => None
      | Some (p1, v) =>
          let c := byte_at s p1 in
          let p2 := S p1 in
          let has_separator := if first then ch_eqb c COLON else has_separator in
          let vals := vals ++ [v] in
          if Nat.leb p_end p2 then Some (HmsReturn (negb (ch_eqb c 0%N)) vals)
          else if has_separator && ch_eqb c COLON
               then hms_loop s p_end todo' false has_separator p2 vals
          else if ch_eqb c (chr ".") || ch_eqb c COMMA then Some (HmsFraction p2 vals)
          else if negb has_separator
               then hms_loop s p_end todo' false has_separator p1 vals
          else None
      end
  end.

Definition FRACTION_CORRECTION : list Z := [100000; 10000; 1000; 100; 10]%Z.

(** [parse_hh_mm_ss_ff] on the bytes from [p] to [p_end]: whether something
    follows what was parsed, and hour, minute, second and microsecond. *)
Definition parse_hh_mm_ss_ff (s : list N) (p p_end : nat) : option (bool * list Z) :=
  match hms_loop s p_end 3 true true p [] with
  | None => None
  | Some (HmsReturn more vals) => Some (more, vals)
  | Some (HmsFraction p vals) =>
      let len_remains := p_end - p in
      let to_parse := Nat.min 6 len_remains in
      match parse_digits s p 0 to_parse with
      | None => None
      | Some (p', us) =>
          let us :=
            if Nat.ltb to_parse 6
            then (us * nth (to_parse - 1) FRACTION_CORRECTION 0)%Z else us in
          let p'' := digits_end s p' (List.length s) (S (List.length s)) in
          Some (negb (ch_eqb (byte_at s p'') 0%N),
                firstn 3 (vals ++ [0; 0; 0]%Z) ++ [us])
      end
  end.

Definition is_tz_char (c : N) : bool :=
  ch_eqb c (chr "Z") || ch_eqb c (chr "+") || ch_eqb c MINUS.

(** The [do ... while (++tzinfo_pos < p_end)] search for the time zone. *)
Fixpoint tz_scan (s : list N) (p_end : nat) (fuel : nat) (i : nat) : nat :=
  if is_tz_char (byte_at s i) then i
  else
    match fuel with
    | O => S i
    | S f => if Nat.ltb (S i) p_end then tz_scan s p_end f (S i) else S i
    end.

Definition hms_field (vals : list Z) (i : nat) : Z := nth i vals 0%Z.

(** [parse_isoformat_time]: the time fields and, when a zone is given, the
    offset in seconds with its microseconds. *)
Definition parse_isoformat_time (s : list N) (p len : nat)
  : option (list Z * option (Z * Z)) :=
  let p_end := p + len in
  let tzinfo_pos := tz_scan s p_end len p in
  match parse_hh_mm_ss_ff s p tzinfo_pos with
  | None => None
  | Some (more, vals) =>
      if Nat.eqb tzinfo_pos p_end then
        if more then None else Some (vals, None)
      else if ch_eqb (byte_at s tzinfo_pos) (chr "Z") then
        if ch_eqb (byte_at s (S tzinfo_pos)) 0%N then Some (vals, Some (0, 0)%Z)
        else None
      else
        let tzsign := if ch_eqb (byte_at s tzinfo_pos) MINUS then (-1)%Z else 1%Z in
        match parse_hh_mm_ss_ff s (S tzinfo_pos) p_end with
        | None => None
        | Some (true, _) => None
        | Some (false, tz) =>
            Some (vals,
                  Some (tzsign * (hms_field tz 0 * 3600 + hms_field tz 1 * 60
                                  + hms_field tz 2),
                        tzsign * hms_field tz 3)%Z)
        end
  end.

(** [tzinfo_from_isoformat_results]: UTC when the offset has no whole
    seconds, otherwise a zone strictly within 24 hours of UTC. *)
Definition tzinfo_from_isoformat_results (tz : option (Z * Z)) : result (option Z) :=
  match tz with
  | None => Ok None
  | Some (tzoffset, tzusec) =>
      if (tzoffset =? 0)%Z then Ok (Some 0%Z)
      else
        let us := (tzoffset * 1000000 + tzusec)%Z in
        if ((-86400000000 <? us) && (us <? 86400000000))%Z then Ok (Some us)
        else Raise ValueError
  end.

(** The range checks of the [datetime] constructor. *)
Definition check_datetime_args (y mo d h mi sec us : Z) : bool :=
  ((1 <=? y) && (y <=? 9999) && (1 <=? mo) && (mo <=? 12)
   && (1 <=? d) && (d <=? days_in_month y mo)
   && (0 <=? h) && (h <=? 23) && (0 <=? mi) && (mi <=? 59)
   && (0 <=? sec) && (sec <=? 59) && (0 <=? us) && (us <=? 999999))%Z.

(** Number of bytes of the UTF-8 character that starts with byte [b]. *)
Definition utf8_width (b : N) : nat :=
  if (b <? 128)%N then 1
  else if (N.land b 240 =? 224)%N then 3
  else if (N.land b 240 =? 240)%N then 4
  else 2.

(** [datetime.fromisoformat(date_string)] for a [str]. *)
Definition fromisoformat_str (date_string : pystr) : result datetime :=
  if Nat.ltb (List.length date_string) 7 then Raise ValueError
  else
    match utf8_encode (sanitize_isoformat_str date_string) with
    | None => Raise ValueError
    | Some s =>
        let len := List.length s in
        let sep := find_isoformat_datetime_separator s len in
        match parse_isoformat_date s sep with
        | None => Raise ValueError
        | Some (y, mo, d) =>
            match
              (match sep with
               | Some l =>
                   if Nat.ltb l len then
                     let p := l + utf8_width (byte_at s l) in
                     parse_isoformat_time s p (len - p)
                   else Some ([0; 0; 0; 0]%Z, None)
               | None => Some ([0; 0; 0; 0]%Z, None)
               end)
            with
            | None => Raise ValueError
            | Some (t, tz) =>
                tzinfo <- tzinfo_from_isoformat_results tz ;;
                let h := hms_field t 0 in
                let mi := hms_field t 1 in
                let sec := hms_field t 2 in
                let us := hms_field t 3 in
                if check_datetime_args y mo d h mi sec us
                then Ok (mk_datetime y mo d h mi sec us tzinfo)
                else Raise ValueError
            end
        end
    end.

(** [datetime.fromisoformat(x)] for a decoded JSON value. *)
Definition fromisoformat (x : value) : result datetime :=
  match x with
  | JStr s => fromisoformat_str s
  | _ => Raise TypeError
  end.

(** [self._cmp(other)] of two datetimes: the fields in order when both are
    naive or carry the same offset, the instants when the offsets differ,
    and [TypeError] for a naive against an aware value. *)
Definition dt_fields (d : datetime) : list Z :=
  [dt_year d; dt_month d; dt_day d; dt_hour d; dt_minute d; dt_second d;
   dt_microsecond d].

Fixpoint lex_compare (a b : list Z) : comparison :=
  match a, b with
  | [], [] => Eq
  | [], _ :: _ => Lt
  | _ :: _, [] => Gt
  | x :: a', y :: b' =>
      match Z.compare x y with
      | Eq => lex_compare a' b'
      | c => c
      end
  end.

(** Microseconds from the start of day 0 of the calendar to the fields of
    [d], read as they stand. *)
Definition dt_micros (d : datetime) : Z :=
  ((((ymd2ord (dt_year d) (dt_month d) (dt_day d) * 24 + dt_hour d) * 60
     + dt_minute d) * 60 + dt_second d) * 1000000 + dt_microsecond d)%Z.

Definition dt_cmp (a b : datetime) : result comparison :=
  match dt_utcoffset a, dt_utcoffset b with
  | None, None => Ok (lex_compare (dt_fields a) (dt_fields b))
  | Some oa, Some ob =>
      if (oa =? ob)%Z then Ok (lex_compare (dt_fields a) (dt_fields b))
      else Ok (Z.compare (dt_micros a - oa) (dt_micros b - ob))
  | _, _ => Raise TypeError
  end.

(** [a < b]. *)
Definition dt_lt (a b : datetime) : result bool :=
  c <- dt_cmp a b ;; Ok (match c with Lt => true | _ => false end).

(** ** [list.sort(key=..., reverse=True)]

    The keys are computed first, one per element and in order.  The sort is
    stable and uses only [<] on the keys; with [reverse=True] the list is
    reversed, sorted and reversed again.  The sort itself is modelled as the
    insertion of each element behind the elements that are not greater; any
    stable sort returns the same list, and any comparison sort compares a
    naive with an aware key when both occur. *)
Section Sort.
Context {A K : Type}.
Variable lt : K -> K -> result bool.

Fixpoint insert_sorted (x : K * A) (l : list (K * A)) : result (list (K * A)) :=
  match l with
  | [] => Ok [x]
  | y :: l' =>
      b <- lt (fst x) (fst y) ;;
      if b then Ok (x :: l)
      else r <- insert_sorted x l' ;; Ok (y :: r)
  end.

Fixpoint insertion_sort (done : list (K * A)) (todo : list (K * A))
  : result (list (K * A)) :=
  match todo with
  | [] => Ok done
  | x :: rest => d <- insert_sorted x done ;; insertion_sort d rest
  end.

Fixpoint compute_keys (key : A -> result K) (l : list A) : result (list (K * A)) :=
  match l with
  | [] => Ok []
  | x :: rest =>
      k <- key x ;; r <- compute_keys key rest ;; Ok ((k, x) :: r)
  end.

Definition sort_reverse (key : A -> result K) (l : list A) : result (list A) :=
  keyed <- compute_keys key l ;;
  sorted <- insertion_sort [] (rev keyed) ;;
  Ok (map snd (rev sorted)).
End Sort.

(** ** The operating system

    What the script asks of the file system and of the archive libraries,
    over a state [world] of the file system. *)
Class OS (world : Type) : Type := {
  (** [os.makedirs(path, exist_ok=True)] *)
  os_makedirs : pystr -> world -> result world;
  (** [zipfile.ZipFile(file_path, 'r').extractall(extract_to)] *)
  zip_extractall : pystr -> pystr -> world -> result world;
  (** [tarfile.open(file_path, 'r:gz').extractall(extract_to, filter=...)]
      with the filter that returns every member unchanged *)
  tar_extractall : pystr -> pystr -> world -> result world;
  (** [os.listdir(directory)] *)
  os_listdir : pystr -> world -> result (list pystr);
  (** [os.path.isfile(path)] *)
  os_isfile : pystr -> world -> bool;
  (** [open(path, 'r')] followed by [read()] *)
  open_read : pystr -> world -> result pystr;
  (** [glob.glob(pattern)] *)
  glob_glob : pystr -> world -> list pystr
}.

(** [os.path.join(a, b)] on a POSIX system. *)
Definition path_join (a b : pystr) : pystr :=
  if startswith b (str "/") then b
  else if match a with [] => true | _ => endswith a (str "/") end then a ++ b
  else a ++ str "/" ++ b.

Section Script.
Context {world : Type} `{OS world}.

(** *** Archive expansion *)

Definition extract_zip (file_path extract_to : pystr) (w : world) : result world :=
  zip_extractall file_path extract_to w.

Definition extract_tar_gz (file_path extract_to : pystr) (w : world) : result world :=
  tar_extractall file_path extract_to w.

(** The body of the loop of [handle_extracted_directory], over the names
    that [os.listdir] returned. *)
Fixpoint for_each_file (process : pystr -> world -> result world)
    (directory : pystr) (names : list pystr) (w : world) : result world :=
  match names with
  | [] => Ok w
  | file_name :: rest =>
      let file_path := path_join directory file_name in
      w' <- (if os_isfile file_path w then process file_path w else Ok w) ;;
      for_each_file process directory rest w'
  end.

(** [process_file] and [handle_extracted_directory] call each other; [n]
    bounds the depth of the calls. *)
Fixpoint process_file (n : nat) (file_path : pystr) (w : world) : result world :=
  match n with
  | O => Raise RecursionError
  | S n' =>
      let handle_extracted_directory (directory : pystr) (w : world) :=
        names <- os_listdir directory w ;;
        for_each_file (process_file n') directory names w in
      if endswith file_path (str ".zip") then
        let extract_dir := replace file_path (str ".zip") [] in
        w1 <- os_makedirs extract_dir w ;;
        w2 <- extract_zip file_path extract_dir w1 ;;
        handle_extracted_directory extract_dir w2
      else if endswith file_path (str ".tar.gz") then
        let extract_dir := replace file_path (str ".tar.gz") [] in
        w1 <- os_makedirs extract_dir w ;;
        w2 <- extract_tar_gz file_path extract_dir w1 ;;
        handle_extracted_directory extract_dir w2
      else Ok w
  end.

Definition handle_extracted_directory (n : nat) (directory : pystr) (w : world)
  : result world :=
  names <- os_listdir directory w ;;
  for_each_file (process_file n) directory names w.

(** *** Recovery of the concatenated objects *)

Definition correct_json_format (file_path : pystr) (w : world) : pystr :=
  match open_read file_path w with
  | Ok content =>
      let json_objects := findall content in
      [LBRACKET] ++ join [COMMA] json_objects ++ [RBRACKET]
  | Raise _ => str "[]"
  end.

Definition parse_json_file (file_path : pystr) (w : world) : result (list value) :=
  match json_loads (correct_json_format file_path w) with
  | Ok (JList data) => Ok data
  | Ok data => Ok [data]
  | Raise FileNotFoundError => Ok []
  | Raise JSONDecodeError => Ok []
  | Raise e => Raise e
  end.

(** *** Site records *)

(** [data.get(outer, {}).get(inner, default)]; [get] on what is not a
    [dict] raises [AttributeError]. *)
Definition get_nested (outer inner : string) (default : string) (data : dict)
  : result value :=
  match get_default (str outer) (JDict []) data with
  | JDict d => Ok (get_default (str inner) (JStr (str default)) d)
  | _ => Raise AttributeError
  end.

Definition extract_site_data (data : value) : list dict :=
  match data with
  | JDict d =>
      match
        (site_id <- get_nested "common" "siteid" "Unknown Site ID" d ;;
         name <- get_nested "common" "name" "Unknown Name" d ;;
         site_version <- get_nested "common" "siteversion" "Unknown Version" d ;;
         oid <- get_nested "_id" "$oid" "Unknown Site OID" d ;;
         Ok [[(str "Site ID", site_id); (str "Name", name);
              (str "Site Version", site_version); (str "Site OID", oid)]])
      with
      | Ok results => results
      | Raise _ => []
      end
  | _ => []
  end.

(** *** Versions and audits *)

(** [data.get(key, default)] on the value that [json.loads] returned. *)
Definition value_get (key default : string) (data : value) : result value :=
  match data with
  | JDict d => Ok (get_default (str key) (JStr (str default)) d)
  | _ => Raise AttributeError
  end.

Definition version_entry (obj : pystr) : result (value * value) :=
  data <- json_loads obj ;;
  version <- value_get "version" "Unknown Version" data ;;
  timestamp <- value_get "timestamp" "Unknown Timestamp" data ;;
  Ok (version, timestamp).

(** The loop over the boundaries: a boundary that does not decode is
    reported and skipped. *)
Fixpoint version_loop (json_objects : list pystr) (version_info : list (value * value))
  : result (list (value * value)) :=
  match json_objects with
  | [] => Ok version_info
  | obj :: rest =>
      match version_entry obj with
      | Ok e => version_loop rest (version_info ++ [e])
      | Raise JSONDecodeError => version_loop rest version_info
      | Raise e => Raise e
      end
  end.

Definition VERSIONS_PATTERN : string := "msc-db-json-*_temp/*_temp/backup/msc_versions.json".
Definition AUDIT_PATTERN : string := "msc-db-json-*_temp/*_temp/backup/msc_audit.json".
Definition SITE_PATTERN : string := "msc-db-json-*_temp/*_temp/backup/msc_site2.json".

(** The entries collected before sorting. *)
Definition collect_versions (directory : pystr) (w : world)
  : result (list (value * value)) :=
  match glob_glob (path_join directory (str VERSIONS_PATTERN)) w with
  | [] => Ok []
  | version_file :: _ =>
      match open_read version_file w with
      | Ok content => version_loop (findall content) []
      | Raise FileNotFoundError => Ok []
      | Raise e => Raise e
      end
  end.

Definition get_ndo_versions (directory : pystr) (w : world)
  : result (list (value * value)) :=
  let version_files := glob_glob (path_join directory (str VERSIONS_PATTERN)) w in
  version_info <- collect_versions directory w ;;
  version_info <- sort_reverse dt_lt (fun x => fromisoformat (snd x)) version_info ;;
  match version_info, version_files with
  | [], [] => Raise UnboundLocalError
  | _, _ => Ok version_info
  end.

(** [data.get("type") not in ["backup", "backup-record"]]. *)
Definition is_backup_type (t : option value) : bool :=
  match t with
  | Some (JStr s) => pystr_eqb s (str "backup") || pystr_eqb s (str "backup-record")
  | _ => false
  end.

Definition audit_entry (obj : pystr) : result (option (value * value)) :=
  data <- json_loads obj ;;
  match data with
  | JDict d =>
      if negb (is_backup_type (dict_get (str "type") d)) then
        Ok (Some (get_default (str "timestamp") (JStr (str "Unknown Timestamp")) d,
                  get_default (str "description") (JStr (str "No Description")) d))
      else Ok None
  | _ => Raise AttributeError
  end.

Fixpoint audit_loop (json_objects : list pystr) (audit_entries : list (value * value))
  : result (list (value * value)) :=
  match json_objects with
  | [] => Ok audit_entries
  | obj :: rest =>
      match audit_entry obj with
      | Ok (Some e) => audit_loop rest (audit_entries ++ [e])
      | Ok None => audit_loop rest audit_entries
      | Raise JSONDecodeError => audit_loop rest audit_entries
      | Raise e => Raise e
      end
  end.

Definition collect_audits (directory : pystr) (w : world)
  : result (list (value * value)) :=
  match glob_glob (path_join directory (str AUDIT_PATTERN)) w with
  | [] => Ok []
  | audit_file :: _ =>
      match open_read audit_file w with
      | Ok content => audit_loop (findall content) []
      | Raise FileNotFoundError => Ok []
      | Raise e => Raise e
      end
  end.

Definition get_last_audits (directory : pystr) (w : world)
  : result (list (value * value)) :=
  audit_entries <- collect_audits directory w ;;
  audit_entries <- sort_reverse dt_lt (fun x => fromisoformat (fst x)) audit_entries ;;
  Ok (firstn 20 audit_entries).

(** *** [main] *)

Record report : Type := mk_report {
  ndo_versions : list (value * value);
  site_data : list dict;
  audits : list (value * value)
}.

(** The site records of every file that matches the site pattern. *)
Fixpoint collect_sites (files : list pystr) (w : world) : result (list dict) :=
  match files with
  | [] => Ok []
  | file_path :: rest =>
      data_list <- parse_json_file file_path w ;;
      more <- collect_sites rest w ;;
      Ok (flat_map extract_site_data data_list ++ more)
  end.

(** [sorted(site_data, key=...)] compares decoded values with Python's [<],
    which is not modelled; [sort_sites] stands for it. *)
Variable sort_sites : list dict -> result (list dict).

(** The part of [main] behind the expansion of the archives: the three
    listings, in the order in which they are printed. *)
Definition main_report (initial_extract_dir : pystr) (w : world) : result report :=
  versions <- get_ndo_versions initial_extract_dir w ;;
  sites <- collect_sites
             (glob_glob (path_join initial_extract_dir (str SITE_PATTERN)) w) w ;;
  sites <- sort_sites sites ;;
  last <- get_last_audits initial_extract_dir w ;;
  Ok (mk_report versions sites last).

Definition main (n : nat) (initial_zip : pystr) (w : world) : result report :=
  let initial_extract_dir := replace initial_zip (str ".zip") [] in
  w1 <- extract_zip initial_zip initial_extract_dir w ;;
  w2 <- handle_extracted_directory n initial_extract_dir w1 ;;
  main_report initial_extract_dir w2.
End Script.

(** ** A small file system

    An instance of [OS] on which the script can be run: files are kept by
    path in the order of their creation, which is also the order in which a
    directory is listed.  Paths are compared as they are written. *)
Module SimFS.

Inductive blob : Type :=
| Text (content : pystr)
| ZipArchive (members : list (pystr * blob))
| TarGzArchive (members : list (pystr * blob)).

Inductive node : Type :=
| File (b : blob)
| Directory.

Definition world := list (pystr * node).

Fixpoint lookup (path : pystr) (w : world) : option node :=
  match w with
  | [] => None
  | (p, n) :: w' => if pystr_eqb p path then Some n else lookup path w'
  end.

Fixpoint write (path : pystr) (n : node) (w : world) : world :=
  match w with
  | [] => [(path, n)]
  | (p, n') :: w' =>
      if pystr_eqb p path then (p, n) :: w' else (p, n') :: write path n w'
  end.

Definition SLASH : char := Eval cbv in chr "/".

(** The proper prefixes of a path that end before a slash. *)
Fixpoint ancestors (done : pystr) (path : pystr) : list pystr :=
  match path with
  | [] => []
  | c :: r =>
      (if ch_eqb c SLASH && negb (match done with [] => true | _ => false end)
       then [done] else [])
      ++ ancestors (done ++ [c]) r
  end.

Definition mkdir (path : pystr) (w : world) : result world :=
  match lookup path w with
  | Some (File _) => Raise FileExistsError
  | Some Directory => Ok w
  | None => Ok (write path Directory w)
  end.

Fixpoint mkdirs (paths : list pystr) (w : world) : result world :=
  match paths with
  | [] => Ok w
  | p :: rest => w' <- mkdir p w ;; mkdirs rest w'
  end.

Definition makedirs (path : pystr) (w : world) : result world :=
  mkdirs (ancestors [] path ++ [path]) w.

Fixpoint write_members (extract_to : pystr) (members : list (pystr * blob)) (w : world)
  : result world :=
  match members with
  | [] => Ok w
  | (name, b) :: rest =>
      let path := path_join extract_to name in
      w1 <- mkdirs (ancestors [] path) w ;;
      match lookup path w1 with
      | Some Directory => Raise IsADirectoryError
      | _ => write_members extract_to rest (write path (File b) w1)
      end
  end.

Definition sim_zip_extractall (file_path extract_to : pystr) (w : world) : result world :=
  match lookup file_path w with
  | None => Raise FileNotFoundError
  | Some Directory => Raise IsADirectoryError
  | Some (File (ZipArchive members)) =>
      w1 <- makedirs extract_to w ;; write_members extract_to members w1
  | Some (File _) => Raise BadZipFile
  end.

Definition sim_tar_extractall (file_path extract_to : pystr) (w : world) : result world :=
  match lookup file_path w with
  | None => Raise FileNotFoundError
  | Some Directory => Raise IsADirectoryError
  | Some (File (TarGzArchive members)) =>
      w1 <- makedirs extract_to w ;; write_members extract_to members w1
  | Some (File _) => Raise ReadError
  end.

(** The name of [path] inside [directory], when it lies directly in it. *)
Definition child_name (directory path : pystr) : option pystr :=
  match strip_prefix (path_join directory []) path with
  | Some name =>
      if match name with [] => true | _ => false end
         || existsb (ch_eqb SLASH) name
      then None else Some name
  | None => None
  end.

Fixpoint children (directory : pystr) (w : world) : list pystr :=
  match w with
  | [] => []
  | (p, _) :: w' =>
      match child_name directory p with
      | Some name => name :: children directory w'
      | None => children directory w'
      end
  end.

Definition sim_listdir (directory : pystr) (w : world) : result (list pystr) :=
  match lookup directory w with
  | Some Directory => Ok (children directory w)
  | Some (File _) => Raise NotADirectoryError
  | None => Raise FileNotFoundError
  end.

Definition sim_isfile (path : pystr) (w : world) : bool :=
  match lookup path w with
  | Some (File _) => true
  | _ => false
  end.

Definition sim_open_read (path : pystr) (w : world) : result pystr :=
  match lookup path w with
  | Some (File (Text content)) => Ok content
  | Some (File _) => Raise UnicodeDecodeError
  | Some Directory => Raise IsADirectoryError
  | None => Raise FileNotFoundError
  end.

(** A pattern in which [*] stands for any run of characters other than a
    slash. *)
Fixpoint wild_match (pattern s : pystr) : bool :=
  match pattern with
  | [] => match s with [] => true | _ => false end
  | c :: pattern' =>
      if ch_eqb c (chr "*") then
        (fix star (s : pystr) : bool :=
           wild_match pattern' s
           || match s with
              | x :: s' => negb (ch_eqb x SLASH) && star s'
              | [] => false
              end) s
      else
        match s with
        | x :: s' => ch_eqb c x && wild_match pattern' s'
        | [] => false
        end
  end.

Definition sim_glob (pattern : pystr) (w : world) : list pystr :=
  map fst (filter (fun e => wild_match pattern (fst e)) w).

#[export] Instance sim_os : OS world := {
  os_makedirs := makedirs;
  zip_extractall := sim_zip_extractall;
  tar_extractall := sim_tar_extractall;
  os_listdir := sim_listdir;
  os_isfile := sim_isfile;
  open_read := sim_open_read;
  glob_glob := sim_glob
}.

End SimFS.

(** ** Notions used in the statements *)

(** [jstr s] is [str s] with every apostrophe replaced by a double quote; it
    is used to write JSON texts. *)
Definition jstr (s : string) : pystr :=
  map (fun c => if ch_eqb c (chr "'") then DQUOTE else c) (str s).

(** [s] is some non-empty text followed by [r]: what a scanner leaves. *)
Definition leaves (s r : pystr) : Prop := exists p, p <> [] /\ s = p ++ r.

(** [s] is some text, then the character [c], then [r]. *)
Definition closes (c : char) (s r : pystr) : Prop := exists p, s = p ++ c :: r.



Definition ends_rbrace (s : pystr) : bool :=
  match rev s with
  | c :: _ => ch_eqb c RBRACE
  | [] => false
  end.


(** The white space of [\s] at the head of a text, removed. *)
Fixpoint skip_space (s : pystr) : pystr :=
  match s with
  | c :: r => if is_space c then skip_space r else s
  | [] => []
  end.

(** No closing brace of the text is followed, after optional white space, by
    an opening brace. *)
Fixpoint no_inner_boundary (s : pystr) : bool :=
  match s with
  | [] => true
  | c :: r =>
      negb (ch_eqb c RBRACE && at_lbrace (skip_space r)) && no_inner_boundary r
  end.

(** The dicts that the boundaries decode to, in order; a boundary that does
    not decode gives none. *)
Definition decoded_dicts (json_objects : list pystr) : list dict :=
  flat_map (fun obj => match json_loads obj with
                       | Ok (JDict d) => [d]
                       | _ => []
                       end) json_objects.

(** An aware datetime carries an offset from UTC, a naive one does not. *)
Definition aware (d : datetime) : bool :=
  match dt_utcoffset d with
  | Some _ => true
  | None => false
  end.

Definition valid_timestamp (t : value) : Prop := exists d, fromisoformat t = Ok d.

Definition ts_naive (t : value) : bool :=
  match fromisoformat t with
  | Ok d => negb (aware d)
  | Raise _ => false
  end.

Definition ts_aware (t : value) : bool :=
  match fromisoformat t with
  | Ok d => aware d
  | Raise _ => false
  end.

(** Every timestamp parses, and either all are naive or all are aware. *)
Definition timestamps_alike (ts : list value) : bool :=
  forallb ts_naive ts || forallb ts_aware ts.

(** [a] is not earlier than [b]: both parse and [a < b] is false. *)
Definition not_before (a b : value) : Prop :=
  exists da db, fromisoformat a = Ok da /\ fromisoformat b = Ok db
                /\ dt_lt da db = Ok false.

(** A calendar date: a month of the year and a day of that month. *)
Definition valid_date (y m d : Z) : Prop :=
  (1 <= m <= 12 /\ 1 <= d <= days_in_month y m)%Z.

(** The datetime passed the range checks of its constructor. *)
Definition dt_valid (d : datetime) : bool :=
  check_datetime_args (dt_year d) (dt_month d) (dt_day d) (dt_hour d)
                      (dt_minute d) (dt_second d) (dt_microsecond d).

(** The instant of a datetime: its fields less its offset from UTC. *)
Definition dt_instant (d : datetime) : Z :=
  (dt_micros d - match dt_utcoffset d with Some o => o | None => 0 end)%Z.

(** [d.get(outer)] is absent or a [dict]. *)
Definition dict_or_absent (outer : string) (d : dict) : bool :=
  match dict_get (str outer) d with
  | None | Some (JDict _) => true
  | Some _ => false
  end.

(** [d[outer][inner]] as an option. *)
Definition nested_get (outer inner : string) (d : dict) : option value :=
  match dict_get (str outer) d with
  | Some (JDict c) => dict_get (str inner) c
  | _ => None
  end.

(** All keys of a keyed list are of one class. *)
Definition one_class {A K : Type} (cls : K -> bool) (l : list (K * A)) : Prop :=
  forall x y, In x l -> In y l -> cls (fst x) = cls (fst y).

(** Ascending by key: an element is not less than its predecessor. *)
Definition asc {A K : Type} (lt : K -> K -> result bool) (a b : K * A) : Prop :=
  lt (fst b) (fst a) = Ok false.

(** Descending by key: the key of an element is not less than the key of
    its successor. *)
Definition desc_by_key {A K : Type} (lt : K -> K -> result bool)
    (key : A -> result K) (a b : A) : Prop :=
  exists ka kb, key a = Ok ka /\ key b = Ok kb /\ lt ka kb = Ok false.

(** The entry that [get_ndo_versions] makes of a decoded record. *)
Definition version_of (d : dict) : value * value :=
  (get_default (str "version") (JStr (str "Unknown Version")) d,
   get_default (str "timestamp") (JStr (str "Unknown Timestamp")) d).

(** The entry that [get_last_audits] makes of a decoded record. *)
Definition audit_of (d : dict) : value * value :=
  (get_default (str "timestamp") (JStr (str "Unknown Timestamp")) d,
   get_default (str "description") (JStr (str "No Description")) d).

(** The record is not dropped as backup-related. *)
Definition kept_audit (d : dict) : bool :=
  negb (is_backup_type (dict_get (str "type") d)).

(** [d[outer][inner]] when present, else the placeholder. *)
Definition field_or (outer inner placeholder : string) (d : dict) : value :=
  match nested_get outer inner d with
  | Some v => v
  | None => JStr (str placeholder)
  end.

(** ** Example inputs *)
Module Examples.
Import SimFS.

(** A file system that holds one text file. *)
Definition one_file (path : string) (content : pystr) : world :=
  [(str path, File (Text content))].

Definition empty_object : pystr := jstr "{}".



Definition audit_path : string := "ts/msc-db-json-1_temp/db_temp/backup/msc_audit.json".
Definition versions_path : string :=
  "ts/msc-db-json-1_temp/db_temp/backup/msc_versions.json".

(** Audit records with a naive and an aware timestamp. *)
Definition mixed_audits : pystr :=
  jstr ("{'type':'login','timestamp':'2024-01-01T00:00:00','description':'a'}"
        ++ "{'type':'logout','timestamp':'2024-01-02T00:00:00+00:00','description':'b'}").

(** Audit records with naive timestamps, one of them a backup and one
    without a type. *)
Definition naive_audits : pystr :=
  jstr ("{'type':'login','timestamp':'2024-01-01T00:00:00','description':'a'}"
        ++ "{'type':'backup','timestamp':'2024-03-01T00:00:00','description':'b'}"
        ++ "{'timestamp':'2024-02-01T00:00:00','description':'c'}").

(** Version records with a naive and an aware timestamp. *)
Definition mixed_versions : pystr :=
  jstr ("{'version':'1.0','timestamp':'2024-01-01T00:00:00'}"
        ++ "{'version':'1.1','timestamp':'2024-02-01T00:00:00Z'}").

(** The version records of the scenario of the specification. *)
Definition naive_versions : pystr :=
  jstr ("{'version':'1.0','timestamp':'2024-01-01T00:00:00'}"
        ++ "{'version':'1.1','timestamp':'2024-02-01T00:00:00'}").



Definition small_zip : blob := ZipArchive [(str "a.json", Text empty_object)].
Definition small_tar : blob := TarGzArchive [(str "a.json", Text empty_object)].

(** A zip archive under a name without archive suffix, and a gzip-tar
    archive under a name that ends in [.zip]. *)
Definition misnamed : world :=
  [(str "bundle.bin", File small_zip); (str "data.zip", File small_tar)].

(** A zip archive whose name holds [.zip] twice. *)
Definition zipped_twice : world := [(str "my.zipped.zip", File small_zip)].


End Examples.

(** ** [display_site_list]

    The lines that the function prints, in order.  [max_widths], a dict
    from header to width, is the list of its items; looking up a header
    that it does not hold ([KeyError]) gives [None]. *)

Definition SPACE : char := 32%N.
Definition DASH : char := Eval cbv in chr "-".

Definition headers : list pystr :=
  [str "Site ID"; str "Name"; str "Site Version"; str "Site OID"].

Fixpoint width_get (key : pystr) (max_widths : list (pystr * nat)) : option nat :=
  match max_widths with
  | [] => None
  | (k, w) :: rest => if pystr_eqb key k then Some w else width_get key rest
  end.

Fixpoint width_set (key : pystr) (w : nat) (max_widths : list (pystr * nat))
  : list (pystr * nat) :=
  match max_widths with
  | [] => [(key, w)]
  | (k, w') :: rest =>
      if pystr_eqb key k then (k, w) :: rest else (k, w') :: width_set key w rest
  end.

(** [f"{s:<{width}}"] for a [str]: padded with spaces on the right. *)
Definition ljust (s : pystr) (width : nat) : pystr :=
  s ++ repeat SPACE (width - List.length s).

Section Display.
(** [str(v)] for a float, a list or a dict; their texts are not modelled. *)
Variable repr_other : value -> pystr.

(** [str(v)] *)
Definition py_str (v : value) : pystr :=
  match v with
  | JStr s => s
  | JNull => str "None"
  | JBool true => str "True"
  | JBool false => str "False"
  | JInt z => str (NilZero.string_of_int (Z.to_int z))
  | JFloat _ | JList _ | JDict _ => repr_other v
  end.

(** [str(entry.get(key, ''))] *)
Definition cell (entry : dict) (key : pystr) : pystr :=
  py_str (get_default key (JStr []) entry).

(** The loop over the headers that widens the columns for one entry. *)
Fixpoint widen (entry : dict) (keys : list pystr) (max_widths : list (pystr * nat))
  : option (list (pystr * nat)) :=
  match keys with
  | [] => Some max_widths
  | key :: rest =>
      match width_get key max_widths with
      | Some w =>
          widen entry rest
            (width_set key (Nat.max w (List.length (cell entry key))) max_widths)
      | None => None
      end
  end.

Fixpoint widen_all (site_data : list dict) (max_widths : list (pystr * nat))
  : option (list (pystr * nat)) :=
  match site_data with
  | [] => Some max_widths
  | entry :: rest =>
      match widen entry headers max_widths with
      | Some max_widths' => widen_all rest max_widths'
      | None => None
      end
  end.

(** The generator of a row: one piece of text per header, made with the
    width of its column. *)
Fixpoint pieces (piece : pystr -> nat -> pystr) (keys : list pystr)
    (max_widths : list (pystr * nat)) : option (list pystr) :=
  match keys with
  | [] => Some []
  | key :: rest =>
      match width_get key max_widths, pieces piece rest max_widths with
      | Some w, Some ps => Some (piece key w :: ps)
      | _, _ => None
      end
  end.

Fixpoint rows (site_data : list dict) (max_widths : list (pystr * nat))
  : option (list pystr) :=
  match site_data with
  | [] => Some []
  | entry :: rest =>
      match pieces (fun key w => ljust (cell entry key) w) headers max_widths,
            rows rest max_widths with
      | Some ps, Some ls => Some (join [SPACE] ps :: ls)
      | _, _ => None
      end
  end.

Definition display_site_list (site_data : list dict) : option (list pystr) :=
  let max_widths :=
    fold_left (fun d header => width_set header (List.length header) d) headers [] in
  match widen_all site_data max_widths with
  | None => None
  | Some max_widths =>
      match pieces (fun header w => ljust header w) headers max_widths,
            pieces (fun header w => repeat DASH w) headers max_widths,
            rows site_data max_widths with
      | Some header_row, Some dashes, Some ls =>
          Some (join [SPACE] header_row :: join [SPACE] dashes :: ls)
      | _, _, _ => None
      end
  end.

(** The width [w] widened to the cells of the column of [header]. *)
Definition widened (site_data : list dict) (header : pystr) (w : nat) : nat :=
  fold_left (fun w entry => Nat.max w (List.length (cell entry header))) site_data w.

(** The width of the column of [header]: the greatest length among the
    header and the cells of the column. *)
Definition column_width (site_data : list dict) (header : pystr) : nat :=
  widened site_data header (List.length header).

(** A row of pieces, one per column, with a space between them. *)
Definition table_row (site_data : list dict) (piece : pystr -> nat -> pystr) : pystr :=
  join [SPACE] (map (fun header => piece header (column_width site_data header)) headers).

End Display.

(** The items of [max_widths] with the widths [w1] to [w4]. *)
Definition four (w1 w2 w3 w4 : nat) : list (pystr * nat) :=
  [(str "Site ID", w1); (str "Name", w2); (str "Site Version", w3);
   (str "Site OID", w4)].

(** ** [sorted(site_data, key=lambda x: x.get("Site ID", ""))] *)

(** [sorted(l, key=...)]: the keys are computed first, then the list is
    sorted by them, ascending and stable, with [<] alone. *)
Definition sorted_by {A K : Type} (lt : K -> K -> result bool) (key : A -> result K)
    (l : list A) : result (list A) :=
  keyed <- compute_keys key l ;;
  sorted <- insertion_sort lt [] keyed ;;
  Ok (map snd sorted).

(** The order of [str]: code point by code point, a proper prefix first. *)
Fixpoint str_compare (a b : pystr) : comparison :=
  match a, b with
  | [], [] => Eq
  | [], _ :: _ => Lt
  | _ :: _, [] => Gt
  | x :: a', y :: b' =>
      match N.compare x y with
      | Eq => str_compare a' b'
      | c => c
      end
  end.

(** The number that an [int] or a [bool] is. *)
Definition int_value (v : value) : option Z :=
  match v with
  | JInt z => Some z
  | JBool true => Some 1%Z
  | JBool false => Some 0%Z
  | _ => None
  end.

Section Less.
(** [a < b] of a float and a number and of two lists; not modelled. *)
Variable other_lt : value -> value -> result bool.

(** [a < b] of decoded values: two [str], two numbers and two lists are
    compared, anything else raises [TypeError]. *)
Definition py_lt (a b : value) : result bool :=
  match a, b with
  | JStr s, JStr t => Ok (match str_compare s t with Lt => true | _ => false end)
  | (JInt _ | JBool _), (JInt _ | JBool _) =>
      match int_value a, int_value b with
      | Some x, Some y => Ok (x <? y)%Z
      | _, _ => Raise TypeError
      end
  | JFloat _, (JInt _ | JBool _ | JFloat _) => other_lt a b
  | (JInt _ | JBool _), JFloat _ => other_lt a b
  | JList _, JList _ => other_lt a b
  | _, _ => Raise TypeError
  end.

(** [x.get("Site ID", "")] *)
Definition site_id (x : dict) : value := get_default (str "Site ID") (JStr []) x.

Definition sorted_sites (site_data : list dict) : result (list dict) :=
  sorted_by py_lt (fun x => Ok (site_id x)) site_data.
End Less.

Definition is_str (v : value) : bool :=
  match v with
  | JStr _ => true
  | _ => false
  end.

(** The text of a [str] (empty for another value). *)
Definition text_of (v : value) : pystr :=
  match v with
  | JStr s => s
  | _ => []
  end.

(** [a <= b] for two [str]. *)
Definition str_leb (a b : pystr) : bool :=
  match str_compare a b with
  | Gt => false
  | _ => true
  end.

(** ** Notions used in the further properties *)

(** The texts [ms] occur in [s] one behind the other, without overlap. *)
Fixpoint occur_in_order (ms : list pystr) (s : pystr) : Prop :=
  match ms with
  | [] => True
  | m :: ms' => exists g r, s = g ++ m ++ r /\ occur_in_order ms' r
  end.



(** The instant that a timestamp denotes ([0] when it does not parse). *)
Definition instant_of (t : value) : Z :=
  match fromisoformat t with
  | Ok d => dt_instant d
  | Raise _ => 0%Z
  end.

(** [old] occurs somewhere in [s]. *)
Fixpoint occurs (old s : pystr) : bool :=
  startswith s old
  || match s with
     | [] => false
     | _ :: r => occurs old r
     end.

(** The name is not that of an archive. *)
Definition plain_name (file_path : pystr) : bool :=
  negb (endswith file_path (str ".zip")) && negb (endswith file_path (str ".tar.gz")).

(** The keys of a site record, in their order. *)
Definition SITE_KEYS : list pystr :=
  [str "Site ID"; str "Name"; str "Site Version"; str "Site OID"].

(** [extract_site_data] makes a record of the value: it is a [dict] whose
    [common] and [_id] entries, where present, are [dict]s. *)
Definition projectable (data : value) : bool :=
  match data with
  | JDict d => dict_or_absent "common" d && dict_or_absent "_id" d
  | _ => false
  end.

(** ** Further example inputs *)
Module MoreExamples.
Import SimFS Examples.


Definition site_path : string := "ts/msc-db-json-1_temp/db_temp/backup/msc_site2.json".

Definition number_site : pystr :=
  jstr ("{'common':{'siteid':'2','name':'B'}}"
        ++ "{'common':{'siteid':7,'name':'C'}}").

Definition site_record (site_id name : string) : dict :=
  [(str "Site ID", JStr (str site_id)); (str "Name", JStr (str name));
   (str "Site Version", JStr (str "Unknown Version"));
   (str "Site OID", JStr (str "Unknown Site OID"))].

(** A directory with a version file and a site file. *)
Definition versions_and_sites (sites : pystr) : world :=
  [(str versions_path, File (Text naive_versions));
   (str site_path, File (Text sites))].



(** A directory with a subdirectory that holds an archive, and a text. *)
Definition plain_directory : world :=
  [(str "t", Directory); (str "t/sub", Directory);
   (str "t/sub/inner.zip", File small_zip);
   (str "t/notes.txt", File (Text (str "notes")))].

(** An archive named [.zip], extracted once into the directory that
    lists it. *)
Definition self_listed : world :=
  [(str "t", Directory); (str "t/.zip", File small_zip);
   (str "t/", Directory); (str "t/a.json", File (Text empty_object))].

(** The comparison of floats and lists, left out. *)
Definition no_other_lt (a b : value) : result bool := Raise TypeError.
End MoreExamples.

(** * Properties *)

(** ** The decoder *)

Lemma ch_eqb_eq a b : ch_eqb a b = true <-> a = b.
Proof. apply N.eqb_eq. Qed.

Lemma ch_eqb_refl a : ch_eqb a a = true.
Proof. apply N.eqb_refl. Qed.

Lemma consk_ok c m k r :
  consk c m = Ok (k, r) -> exists k', m = Ok (k', r) /\ k = c :: k'.
Proof.
  unfold consk, bind. destruct m as [[k' r']|e]; [|discriminate].
  intros H; inversion H; subst. eauto.
Qed.


(** *** The text left by a scanner is a proper suffix of its input *)


Lemma leaves_cons c s r : leaves s r -> leaves (c :: s) r.
Proof. intros (p & Hp & ->). exists (c :: p). split; [discriminate | reflexivity]. Qed.

Lemma leaves_here c r : leaves (c :: r) r.
Proof. exists [c]. split; [discriminate | reflexivity]. Qed.

Lemma leaves_length s r : leaves s r -> List.length r < List.length s.
Proof.
  intros (p & Hp & ->). rewrite length_app. destruct p; [congruence | simpl; lia].
Qed.

Lemma scanstring_leaves :
  forall n s, List.length s <= n ->
  forall k r, scanstring s = Ok (k, r) -> leaves s r.
Proof.
  induction n as [|n IH]; intros s Hlen k r H.
  - destruct s; [discriminate | simpl in Hlen; lia].
  - destruct s as [|c s1]; [discriminate|]. simpl in Hlen. cbn [scanstring] in H.
    destruct (ch_eqb c DQUOTE).
    { inversion H; subst. apply leaves_here. }
    destruct (ch_eqb c BACKSLASH).
    + destruct s1 as [|e r1]; [discriminate|]. simpl in Hlen.
      destruct (ch_eqb e (chr "u")).
      * destruct r1 as [|h1 [|h2 [|h3 [|h4 r2]]]]; try discriminate.
        simpl in Hlen.
        destruct (hex4 h1 h2 h3 h4) as [u|]; [|discriminate].
        assert (Hr2 : forall k r, consk u (scanstring r2) = Ok (k, r) ->
                      leaves (c :: e :: h1 :: h2 :: h3 :: h4 :: r2) r).
        { intros k0 r0 H0. apply consk_ok in H0 as (k' & H0 & _).
          do 6 apply leaves_cons. eapply IH; [|exact H0]. lia. }
        destruct (is_high_surrogate u); [|eauto].
        destruct r2 as [|b [|e2 [|g1 [|g2 [|g3 [|g4 r3]]]]]]; eauto.
        destruct (ch_eqb b BACKSLASH && ch_eqb e2 (chr "u")); eauto.
        destruct (hex4 g1 g2 g3 g4) as [u2|]; [|discriminate].
        destruct (is_low_surrogate u2); eauto.
        apply consk_ok in H as (k' & H & _).
        do 12 apply leaves_cons. eapply IH; [|exact H]. simpl in Hlen. lia.
      * destruct (unescape e); [|discriminate].
        apply consk_ok in H as (k' & H & _).
        do 2 apply leaves_cons. eapply IH; [|exact H]. lia.
    + destruct (c <=? 31)%N; [discriminate|].
      apply consk_ok in H as (k' & H & _).
      apply leaves_cons. eapply IH; [|exact H]. lia.
Qed.

(** *** Scanning is unchanged by text appended behind what it leaves *)



Lemma skip_ws_suffix s : exists p, s = p ++ skip_ws s.
Proof.
  induction s as [|x s (p & IH)]; [exists []; reflexivity|]. simpl.
  destruct (is_json_ws x); [exists (x :: p); simpl; congruence | exists []; reflexivity].
Qed.

Lemma skip_ws_length s : List.length (skip_ws s) <= List.length s.
Proof.
  destruct (skip_ws_suffix s) as (p & H). rewrite H at 2. rewrite length_app. lia.
Qed.

Lemma leaves_skip_ws s r : leaves s r -> leaves s (skip_ws r).
Proof.
  intros (p & Hp & ->). destruct (skip_ws_suffix r) as (q & Hq).
  exists (p ++ q). split.
  - destruct p; [congruence | discriminate].
  - rewrite <- app_assoc, <- Hq. reflexivity.
Qed.

Lemma leaves_trans s r q : leaves s r -> leaves r q -> leaves s q.
Proof.
  intros (p & Hp & ->) (p' & Hp' & ->). exists (p ++ p'). split.
  - destruct p; [congruence | discriminate].
  - rewrite app_assoc. reflexivity.
Qed.

Lemma leaves_skip_ws_l s r : leaves (skip_ws s) r -> leaves s r.
Proof.
  intros (p & Hp & H). destruct (skip_ws_suffix s) as (q & Hq).
  exists (q ++ p). split.
  - destruct q; [exact Hp | discriminate].
  - rewrite <- app_assoc, <- H. exact Hq.
Qed.

(** Numbers *)



Lemma span_digits_eq s ds r : span_digits s = (ds, r) -> s = ds ++ r.
Proof.
  revert ds r. induction s as [|c s IH]; simpl; intros ds r H.
  - inversion H; reflexivity.
  - destruct (is_digit c).
    + destruct (span_digits s) as [d r']. inversion H; subst.
      simpl. f_equal. apply IH. reflexivity.
    + inversion H; reflexivity.
Qed.


Lemma span_digits_head s ds x r : span_digits s = (ds, x :: r) -> is_digit x = false.
Proof.
  revert ds. induction s as [|c s IH]; simpl; intros ds H.
  - discriminate.
  - destruct (is_digit c) eqn:E.
    + destruct (span_digits s) as [d r']. inversion H; subst. eapply IH. reflexivity.
    + inversion H; subst. exact E.
Qed.

Lemma match_int_digits_eq s ds r :
  match_int_digits s = Some (ds, r) -> ds <> [] /\ s = ds ++ r.
Proof.
  destruct s as [|c s1]; [discriminate|]. cbn [match_int_digits app].
  destruct (ch_eqb c (chr "0")).
  - intros G; inversion G; subst. split; [discriminate | reflexivity].
  - destruct (is_digit c); [|discriminate].
    destruct (span_digits s1) as [d r'] eqn:E. intros G; inversion G; subst.
    split; [discriminate|]. simpl. f_equal. apply span_digits_eq, E.
Qed.


Lemma match_integer_eq s neg ds r :
  match_integer s = Some (neg, ds, r) ->
  ds <> [] /\ s = (if neg then [MINUS] else []) ++ ds ++ r.
Proof.
  destruct s as [|c s']; [discriminate|]. unfold match_integer.
  destruct (ch_eqb c MINUS) eqn:Ec.
  - destruct (match_int_digits s') as [[d r']|] eqn:E; [|simpl; discriminate].
    simpl. intros H; inversion H; subst.
    apply match_int_digits_eq in E as [H1 H2]. split; [exact H1|].
    apply ch_eqb_eq in Ec. subst. reflexivity.
  - destruct (match_int_digits (c :: s')) as [[d r']|] eqn:E; [|simpl; discriminate].
    simpl. intros H; inversion H; subst.
    apply match_int_digits_eq in E. exact E.
Qed.


Lemma match_frac_eq s f r : match_frac s = (f, r) -> s = f ++ r.
Proof.
  unfold match_frac. destruct s as [|p [|d s']]; try (intros H; inversion H; reflexivity).
  destruct (ch_eqb p (chr ".") && is_digit d).
  - destruct (span_digits s') as [ds r'] eqn:E. intros H; inversion H; subst.
    simpl. do 2 f_equal. apply span_digits_eq, E.
  - intros H; inversion H; reflexivity.
Qed.


Lemma match_exp_eq s e r : match_exp s = (e, r) -> s = e ++ r.
Proof.
  unfold match_exp. destruct s as [|c s']; [intros H; inversion H; reflexivity|].
  destruct (ch_eqb c (chr "e") || ch_eqb c (chr "E"));
    [|intros H; inversion H; reflexivity].
  destruct s' as [|g s''].
  - simpl. intros H; inversion H; reflexivity.
  - destruct (ch_eqb g (chr "+") || ch_eqb g MINUS).
    + destruct (span_digits s'') as [[|d ds] r'] eqn:E;
        intros H; inversion H; subst; [reflexivity|].
      apply span_digits_eq in E. subst. reflexivity.
    + destruct (span_digits (g :: s'')) as [[|d ds] r'] eqn:E;
        intros H; inversion H; subst; [reflexivity|].
      apply span_digits_eq in E. rewrite E. reflexivity.
Qed.


Lemma match_number_leaves s v r : match_number s = Some (v, r) -> leaves s r.
Proof.
  unfold match_number.
  destruct (match_integer s) as [[[neg ds] r0]|] eqn:Ei; [|discriminate].
  destruct (match_frac r0) as [f r1] eqn:Ef.
  destruct (match_exp r1) as [e r2] eqn:Ee.
  apply match_integer_eq in Ei as [Hds Hs].
  apply match_frac_eq in Ef. apply match_exp_eq in Ee. subst r0 r1.
  intros H.
  assert (r2 = r) as -> by (destruct f, e; inversion H; reflexivity).
  exists ((if neg then [MINUS] else []) ++ ds ++ f ++ e). split.
  - destruct neg; [discriminate|]. destruct ds; [congruence | discriminate].
  - rewrite Hs. rewrite <- !app_assoc. reflexivity.
Qed.




Lemma strip_prefix_eq p s r : strip_prefix p s = Some r -> s = p ++ r.
Proof.
  revert s. induction p as [|x p IH]; intros s; simpl.
  - intros H; inversion H; reflexivity.
  - destruct s as [|y s]; [discriminate|].
    destruct (ch_eqb x y) eqn:E; [|discriminate].
    apply ch_eqb_eq in E. subst. intros H. f_equal. apply IH, H.
Qed.


Lemma literal_leaves name v s res :
  name <> EmptyString -> literal name v s = Some res -> leaves s (snd res).
Proof.
  unfold literal. intros Hn.
  destruct (strip_prefix (str name) s) as [r|] eqn:E; [|discriminate].
  intros H; inversion H; subst. apply strip_prefix_eq in E.
  exists (str name). split; [|exact E].
  destruct name; [congruence | discriminate].
Qed.


Lemma scan_constant_leaves s res : scan_constant s = Some res -> leaves s (snd res).
Proof.
  unfold scan_constant. destruct s as [|c s']; [discriminate|].
  repeat match goal with
  | |- (if ?b then _ else _) = _ -> _ =>
      destruct b; [apply literal_leaves; discriminate|]
  end.
  discriminate.
Qed.



Lemma scan_atom_leaves s v r : scan_atom s = Ok (v, r) -> leaves s r.
Proof.
  unfold scan_atom.
  destruct (scan_constant s) as [res|] eqn:E.
  - intros H; inversion H; subst. apply (scan_constant_leaves _ _ E).
  - destruct (match_number s) as [res|] eqn:En; [|discriminate].
    intros H; inversion H; subst. apply (match_number_leaves _ _ _ En).
Qed.






Lemma closes_leaves c s r : closes c s r -> leaves s r.
Proof.
  intros (p & ->). exists (p ++ [c]). split.
  - destruct p; discriminate.
  - rewrite <- app_assoc. reflexivity.
Qed.

Lemma closes_here c s r : skip_ws s = c :: r -> closes c s r.
Proof.
  intros H. destruct (skip_ws_suffix s) as (p & Hp). exists p. congruence.
Qed.

Lemma closes_leaves_l c s r q : leaves s r -> closes c r q -> closes c s q.
Proof.
  intros (p & _ & ->) (p' & ->). exists (p ++ p'). rewrite app_assoc. reflexivity.
Qed.

Lemma closes_skip_ws c s q : closes c (skip_ws s) q -> closes c s q.
Proof.
  intros (p & H). destruct (skip_ws_suffix s) as (p' & Hp).
  exists (p' ++ p). rewrite <- app_assoc, <- H. exact Hp.
Qed.

Lemma closes_cons x c s q : closes c s q -> closes c (x :: s) q.
Proof. intros (p & ->). exists (x :: p). reflexivity. Qed.

Lemma scan_shape n :
  (forall s v r, scan_once n s = Ok (v, r) -> leaves s r) /\
  (forall s acc v r, parse_members n s acc = Ok (v, r) ->
                     closes RBRACE s r /\ exists d, v = JDict d) /\
  (forall s acc v r, parse_elements n s acc = Ok (v, r) ->
                     closes RBRACKET s r /\ exists l, v = JList l).
Proof.
  induction n as [|n (IHs & IHm & IHe)].
  - repeat split; intros; discriminate.
  - split; [|split].
    + intros s v r H. cbn [scan_once] in H.
      destruct s as [|c s']; [discriminate|].
      destruct (ch_eqb c DQUOTE).
      { unfold bind in H. destruct (scanstring s') as [[k r']|] eqn:E; [|discriminate].
        inversion H; subst. apply leaves_cons.
        eapply scanstring_leaves; [|exact E]. apply le_n. }
      destruct (ch_eqb c LBRACE).
      { destruct (skip_ws s') as [|c1 r1] eqn:E; [discriminate|].
        destruct (ch_eqb c1 RBRACE) eqn:E1.
        - inversion H; subst. apply ch_eqb_eq in E1. subst.
          apply leaves_cons. eapply closes_leaves, closes_here, E.
        - apply IHm in H as [H _]. rewrite <- E in H.
          apply leaves_cons. eapply closes_leaves, closes_skip_ws, H. }
      destruct (ch_eqb c LBRACKET).
      { destruct (skip_ws s') as [|c1 r1] eqn:E; [discriminate|].
        destruct (ch_eqb c1 RBRACKET) eqn:E1.
        - inversion H; subst. apply ch_eqb_eq in E1. subst.
          apply leaves_cons. eapply closes_leaves, closes_here, E.
        - apply IHe in H as [H _]. rewrite <- E in H.
          apply leaves_cons. eapply closes_leaves, closes_skip_ws, H. }
      apply scan_atom_leaves in H. exact H.
    + intros s acc v r H. cbn [parse_members] in H.
      destruct s as [|c s']; [discriminate|].
      destruct (ch_eqb c DQUOTE); [|discriminate].
      unfold bind in H.
      destruct (scanstring s') as [[key r1]|] eqn:Ek; [|discriminate].
      apply scanstring_leaves with (n := List.length s') in Ek; [|apply le_n].
      destruct (skip_ws r1) as [|c2 r2] eqn:E2; [discriminate|].
      destruct (ch_eqb c2 COLON); [|discriminate].
      destruct (scan_once n (skip_ws r2)) as [[v' r3]|] eqn:Ev; [|discriminate].
      apply IHs in Ev.
      assert (L3 : leaves (c :: s') r3).
      { apply leaves_cons. eapply leaves_trans; [exact Ek|].
        apply leaves_skip_ws_l. rewrite E2. apply leaves_cons.
        apply leaves_skip_ws_l. exact Ev. }
      destruct (skip_ws r3) as [|c3 r4] eqn:E3; [discriminate|].
      destruct (ch_eqb c3 RBRACE) eqn:E3b.
      * inversion H; subst. apply ch_eqb_eq in E3b. subst c3.
        split; [|eauto]. eapply closes_leaves_l; [exact L3|].
        apply closes_here, E3.
      * destruct (ch_eqb c3 COMMA); [|discriminate].
        apply IHm in H as [H Hd]. split; [|exact Hd].
        eapply closes_leaves_l; [exact L3|].
        apply closes_skip_ws. rewrite E3. apply closes_cons.
        apply closes_skip_ws. exact H.
    + intros s acc v r H. cbn [parse_elements] in H. unfold bind in H.
      destruct (scan_once n s) as [[v' r1]|] eqn:Ev; [|discriminate].
      apply IHs in Ev.
      destruct (skip_ws r1) as [|c r2] eqn:E1; [discriminate|].
      destruct (ch_eqb c RBRACKET) eqn:Ec.
      * inversion H; subst. apply ch_eqb_eq in Ec. subst c.
        split; [|eauto]. eapply closes_leaves_l; [exact Ev|].
        apply closes_here, E1.
      * destruct (ch_eqb c COMMA); [|discriminate].
        apply IHe in H as [H Hl]. split; [|exact Hl].
        eapply closes_leaves_l; [exact Ev|].
        apply closes_skip_ws. rewrite E1. apply closes_cons.
        apply closes_skip_ws. exact H.
Qed.

(** *** More depth does not change a decoded value *)


(** *** The only exception of the decoder is [JSONDecodeError] *)

Lemma consk_raise c m e : consk c m = Raise e -> m = Raise e.
Proof. unfold consk, bind. destruct m as [[k r]|e']; [discriminate | congruence]. Qed.

Lemma scanstring_raise :
  forall n s, List.length s <= n ->
  forall e, scanstring s = Raise e -> e = JSONDecodeError.
Proof.
  induction n as [|n IH]; intros s Hlen e H.
  - destruct s; [inversion H; reflexivity | simpl in Hlen; lia].
  - destruct s as [|c s1]; [inversion H; reflexivity|]. simpl in Hlen.
    cbn [scanstring] in H.
    assert (R : forall x, Raise (A := pystr * pystr) JSONDecodeError = Raise x ->
                          x = JSONDecodeError) by (intros x G; congruence).
    destruct (ch_eqb c DQUOTE); [discriminate|].
    destruct (ch_eqb c BACKSLASH).
    + destruct s1 as [|e1 r1]; [auto|]. simpl in Hlen.
      destruct (ch_eqb e1 (chr "u")).
      * destruct r1 as [|h1 [|h2 [|h3 [|h4 r2]]]]; auto.
        simpl in Hlen.
        destruct (hex4 h1 h2 h3 h4) as [u|]; [|auto].
        assert (Hr2 : forall x, consk u (scanstring r2) = Raise x -> x = JSONDecodeError).
        { intros x G. apply consk_raise in G. eapply IH; [|exact G]. lia. }
        destruct (is_high_surrogate u); [|auto].
        destruct r2 as [|b [|e2 [|g1 [|g2 [|g3 [|g4 r3]]]]]]; auto.
        destruct (ch_eqb b BACKSLASH && ch_eqb e2 (chr "u")); auto.
        destruct (hex4 g1 g2 g3 g4) as [u2|]; [|auto].
        destruct (is_low_surrogate u2); auto.
        apply consk_raise in H. eapply IH; [|exact H]. simpl in Hlen. lia.
      * destruct (unescape e1); [|auto].
        apply consk_raise in H. eapply IH; [|exact H]. lia.
    + destruct (c <=? 31)%N; [auto|].
      apply consk_raise in H. eapply IH; [|exact H]. lia.
Qed.

Lemma scan_atom_raise s e : scan_atom s = Raise e -> e = JSONDecodeError.
Proof.
  unfold scan_atom. destruct (scan_constant s); [discriminate|].
  destruct (match_number s); [discriminate|]. congruence.
Qed.

Lemma scan_raise n :
  (forall s e, scan_once n s = Raise e -> 2 * List.length s < n ->
               e = JSONDecodeError) /\
  (forall s acc e, parse_members n s acc = Raise e -> 2 * List.length s + 1 < n ->
                   e = JSONDecodeError) /\
  (forall s acc e, parse_elements n s acc = Raise e -> 2 * List.length s + 1 < n ->
                   e = JSONDecodeError).
Proof.
  induction n as [|n (IHs & IHm & IHe)].
  - repeat split; intros; lia.
  - assert (R : forall x, Raise (A := value * pystr) JSONDecodeError = Raise x ->
                          x = JSONDecodeError) by (intros x G; congruence).
    split; [|split].
    + intros s e H Hn. cbn [scan_once] in H.
      destruct s as [|c s']; [auto|]. cbn [List.length] in Hn.
      destruct (ch_eqb c DQUOTE).
      { unfold bind in H. destruct (scanstring s') as [[k r']|e'] eqn:E; [discriminate|].
        inversion H; subst. eapply scanstring_raise; [|exact E]. apply le_n. }
      destruct (ch_eqb c LBRACE).
      { destruct (skip_ws s') as [|c1 r1] eqn:E; [auto|].
        destruct (ch_eqb c1 RBRACE); [discriminate|].
        apply IHm in H; [exact H|].
        pose proof (skip_ws_length s') as L. rewrite E in L. lia. }
      destruct (ch_eqb c LBRACKET).
      { destruct (skip_ws s') as [|c1 r1] eqn:E; [auto|].
        destruct (ch_eqb c1 RBRACKET); [discriminate|].
        apply IHe in H; [exact H|].
        pose proof (skip_ws_length s') as L. rewrite E in L. lia. }
      apply scan_atom_raise in H. exact H.
    + intros s acc e H Hn. cbn [parse_members] in H.
      destruct s as [|c s']; [auto|]. cbn [List.length] in Hn.
      destruct (ch_eqb c DQUOTE); [|auto].
      unfold bind in H.
      destruct (scanstring s') as [[key r1]|e'] eqn:Ek.
      2:{ inversion H; subst. eapply scanstring_raise; [|exact Ek]. apply le_n. }
      apply scanstring_leaves with (n := List.length s') in Ek; [|apply le_n].
      apply leaves_length in Ek.
      destruct (skip_ws r1) as [|c2 r2] eqn:E2; [auto|].
      pose proof (skip_ws_length r1) as L1. rewrite E2 in L1. cbn [List.length] in L1.
      destruct (ch_eqb c2 COLON); [|auto].
      pose proof (skip_ws_length r2) as L2.
      destruct (scan_once n (skip_ws r2)) as [[v' r3]|e'] eqn:Ev.
      2:{ inversion H; subst. apply IHs in Ev; [exact Ev | lia]. }
      apply (proj1 (scan_shape n)) in Ev. apply leaves_length in Ev.
      destruct (skip_ws r3) as [|c3 r4] eqn:E3; [auto|].
      pose proof (skip_ws_length r3) as L3. rewrite E3 in L3. cbn [List.length] in L3.
      destruct (ch_eqb c3 RBRACE); [discriminate|].
      destruct (ch_eqb c3 COMMA); [|auto].
      apply IHm in H; [exact H|].
      pose proof (skip_ws_length r4) as L4. lia.
    + intros s acc e H Hn. cbn [parse_elements] in H. unfold bind in H.
      destruct (scan_once n s) as [[v' r1]|e'] eqn:Ev.
      2:{ inversion H; subst. apply IHs in Ev; [exact Ev | lia]. }
      apply (proj1 (scan_shape n)) in Ev. apply leaves_length in Ev.
      destruct (skip_ws r1) as [|c r2] eqn:E1; [auto|].
      pose proof (skip_ws_length r1) as L1. rewrite E1 in L1. cbn [List.length] in L1.
      destruct (ch_eqb c RBRACKET); [discriminate|].
      destruct (ch_eqb c COMMA); [|auto].
      apply IHe in H; [exact H|].
      pose proof (skip_ws_length r2) as L2. lia.
Qed.

Lemma json_loads_raise s e : json_loads s = Raise e -> e = JSONDecodeError.
Proof.
  unfold json_loads, bind.
  destruct (scan_once (json_fuel s) (skip_ws s)) as [[v r]|e'] eqn:E.
  - destruct (skip_ws r); [discriminate | congruence].
  - intros H; inversion H; subst.
    apply (proj1 (scan_raise _)) in E; [exact E|].
    pose proof (skip_ws_length s). unfold json_fuel. lia.
Qed.






Lemma scan_object_shape n s v r :
  at_lbrace s = true -> scan_once n s = Ok (v, r) ->
  (exists b, s = LBRACE :: b ++ RBRACE :: r) /\ exists d, v = JDict d.
Proof.
  intros Hb H. destruct n as [|n]; [discriminate|].
  destruct s as [|c s']; [discriminate|]. cbn [at_lbrace] in Hb.
  cbn [scan_once] in H.
  apply ch_eqb_eq in Hb. subst c.
  change (ch_eqb LBRACE DQUOTE) with false in *.
  change (ch_eqb LBRACE LBRACE) with true in *. cbv iota in *.
  destruct (skip_ws s') as [|c1 r1] eqn:E; [discriminate|].
  destruct (ch_eqb c1 RBRACE) eqn:E1.
  - inversion H; subst. apply ch_eqb_eq in E1. subst.
    destruct (closes_here _ _ _ E) as (p & ->). eauto.
  - apply (proj1 (proj2 (scan_shape n))) in H as [H Hd]. split; [|exact Hd].
    rewrite <- E in H. apply closes_skip_ws in H as (p & ->). eauto.
Qed.

(** *** Texts that hold exactly one JSON object *)



Lemma skip_ws_lbrace s : at_lbrace s = true -> skip_ws s = s.
Proof.
  destruct s as [|c s']; [reflexivity|]. cbn [at_lbrace skip_ws].
  intros H. apply ch_eqb_eq in H. subst c. reflexivity.
Qed.








(** *** Boundary detection *)



Lemma at_lbrace_not_space c r : at_lbrace (c :: r) = true -> is_space c = false.
Proof. cbn [at_lbrace]. intros H. apply ch_eqb_eq in H. subst c. reflexivity. Qed.

Lemma spaces_then_lbrace s : spaces_then at_lbrace s = at_lbrace (skip_space s).
Proof.
  induction s as [|c s IH]; [reflexivity|]. cbn [spaces_then skip_space].
  destruct (is_space c) eqn:E.
  - rewrite IH. destruct (at_lbrace (c :: s)) eqn:Ea; [|reflexivity].
    apply at_lbrace_not_space in Ea. congruence.
  - cbn [andb]. apply orb_false_r.
Qed.

Lemma spaces_then_dollar s :
  spaces_then at_dollar s = match skip_space s with [] => true | _ :: _ => false end.
Proof.
  induction s as [|c s IH]; [reflexivity|]. cbn [spaces_then skip_space].
  destruct (is_space c) eqn:E.
  - rewrite IH. cbn [andb]. destruct (skip_space s) eqn:Es.
    + apply orb_true_r.
    + rewrite orb_false_r. destruct s as [|c' s']; [discriminate | reflexivity].
  - cbn [andb]. rewrite orb_false_r. cbn [at_dollar].
    destruct s; [|reflexivity].
    destruct (ch_eqb c NEWLINE) eqn:En; [|reflexivity].
    apply ch_eqb_eq in En. subst c. discriminate.
Qed.

(** The lookahead holds exactly when, after the white space, the text ends
    or an opening brace follows. *)
Lemma lookahead_spec s :
  lookahead s = match skip_space s with [] => true | c :: _ => ch_eqb c LBRACE end.
Proof.
  unfold lookahead. rewrite spaces_then_lbrace, spaces_then_dollar.
  destruct (skip_space s) as [|c r]; [reflexivity|]. cbn [at_lbrace]. apply orb_false_r.
Qed.

Lemma skip_space_app s c r t : skip_space s = c :: r -> skip_space (s ++ t) = c :: r ++ t.
Proof.
  induction s as [|x s IH]; cbn [skip_space app]; [discriminate|].
  destruct (is_space x); [exact IH|].
  intros H; inversion H; subst. reflexivity.
Qed.

Lemma skip_space_all w t : forallb is_space w = true -> skip_space (w ++ t) = skip_space t.
Proof.
  induction w as [|x w IH]; [reflexivity|]. cbn [forallb app skip_space].
  intros H. apply andb_true_iff in H as [-> H]. apply IH, H.
Qed.

Lemma skip_space_last b c : is_space c = false -> skip_space (b ++ [c]) <> [].
Proof.
  intros Hc. induction b as [|x b IH]; cbn [app skip_space].
  - rewrite Hc. discriminate.
  - destruct (is_space x); [exact IH | discriminate].
Qed.

Lemma lookahead_inside q t :
  skip_space q <> [] -> lookahead (q ++ t) = at_lbrace (skip_space q).
Proof.
  intros H. rewrite lookahead_spec.
  destruct (skip_space q) as [|c r] eqn:E; [congruence|].
  rewrite (skip_space_app _ _ _ t E). reflexivity.
Qed.





Lemma lazy_body_ends s m : lazy_body s = Some m -> exists m', m = m' ++ [RBRACE].
Proof.
  revert m. induction s as [|c s IH]; intros m; cbn [lazy_body]; [discriminate|].
  destruct (ch_eqb c RBRACE && lookahead s) eqn:E.
  - intros H; inversion H; subst. apply andb_true_iff in E as [E _].
    apply ch_eqb_eq in E. subst c. exists []. reflexivity.
  - destruct (lazy_body s) as [m0|]; [|discriminate].
    intros H; inversion H; subst. destruct (IH m0 eq_refl) as (m' & ->).
    exists (c :: m'). reflexivity.
Qed.

(** Every detected boundary runs from an opening to a closing brace. *)
Lemma findall_from_braces k s b :
  In b (findall_from k s) -> at_lbrace b = true /\ ends_rbrace b = true.
Proof.
  revert k. induction s as [|c s IH]; intros k; cbn [findall_from]; [contradiction|].
  destruct k as [|k]; [|apply IH].
  destruct (ch_eqb c LBRACE) eqn:Ec; [|apply IH].
  destruct (lazy_body s) as [m|] eqn:Em; [|apply IH].
  intros [<-|H]; [|eapply IH, H].
  split; [exact Ec|].
  destruct (lazy_body_ends _ _ Em) as (m' & ->).
  unfold ends_rbrace. change (c :: m' ++ [RBRACE]) with ((c :: m') ++ [RBRACE]).
  rewrite rev_app_distr. reflexivity.
Qed.

Lemma findall_braces content b :
  In b (findall content) -> at_lbrace b = true /\ ends_rbrace b = true.
Proof. apply findall_from_braces. Qed.



(** ** Facts about the sort *)

Lemma Sorted_snoc {X : Type} (R : X -> X -> Prop) l a :
  Sorted R l -> (forall b, hd_error (rev l) = Some b -> R b a) -> Sorted R (l ++ [a]).
Proof.
  induction 1 as [|x l Hs IH Hh]; intros Hl; cbn [app].
  - repeat constructor.
  - constructor.
    + apply IH. intros b Hb. apply Hl. cbn [rev].
      destruct (rev l); [discriminate | exact Hb].
    + destruct Hh as [|y l' Hxy]; cbn [app]; constructor.
      * apply Hl. reflexivity.
      * exact Hxy.
Qed.

Lemma Sorted_rev {X : Type} (R : X -> X -> Prop) l :
  Sorted R l -> Sorted (fun a b => R b a) (rev l).
Proof.
  induction 1 as [|x l Hs IH Hh]; cbn [rev]; [constructor|].
  apply Sorted_snoc; [exact IH|].
  rewrite rev_involutive. intros b Hb.
  destruct Hh as [|y l' Hxy]; [discriminate|]. inversion Hb; subst. exact Hxy.
Qed.

Section SortFacts.
Context {A K : Type}.
Variable lt : K -> K -> result bool.
Variable cls : K -> bool.
Hypothesis lt_same : forall a b, cls a = cls b -> exists r, lt a b = Ok r.
Hypothesis lt_mixed : forall a b, cls a <> cls b -> lt a b = Raise TypeError.
Hypothesis lt_asym : forall a b, lt a b = Ok true -> lt b a = Ok false.



Lemma one_class_perm (l l' : list (K * A)) : Permutation l l' -> one_class cls l -> one_class cls l'.
Proof.
  intros P Hc x y Hx Hy.
  apply Hc; (eapply Permutation_in; [apply Permutation_sym, P | assumption]).
Qed.

Lemma lt_ok_class a b r : lt a b = Ok r -> cls a = cls b.
Proof.
  intros H. destruct (bool_dec (cls a) (cls b)) as [E|E]; [exact E|].
  rewrite (lt_mixed _ _ E) in H. discriminate.
Qed.

Lemma lt_raise a b e : lt a b = Raise e -> e = TypeError.
Proof.
  intros H. destruct (bool_dec (cls a) (cls b)) as [E|E].
  - destruct (lt_same _ _ E) as (r & Hr). congruence.
  - rewrite (lt_mixed _ _ E) in H. congruence.
Qed.

Lemma insert_sorted_perm (x : K * A) l r :
  insert_sorted lt x l = Ok r -> Permutation (x :: l) r.
Proof.
  revert r. induction l as [|y l IH]; intros r; cbn [insert_sorted].
  - intros H; inversion H; subst. apply Permutation_refl.
  - unfold bind. destruct (lt (fst x) (fst y)) as [[|]|]; [| |discriminate].
    + intros H; inversion H; subst. apply Permutation_refl.
    + destruct (insert_sorted lt x l) as [r'|]; [|discriminate].
      intros H; inversion H; subst.
      eapply Permutation_trans; [apply perm_swap|].
      apply perm_skip, IH. reflexivity.
Qed.

Lemma insert_sorted_ok (x : K * A) l :
  one_class cls (x :: l) -> exists r, insert_sorted lt x l = Ok r.
Proof.
  induction l as [|y l IH]; intros Hc; cbn [insert_sorted]; [eauto|].
  unfold bind.
  destruct (lt_same (fst x) (fst y)) as (b & ->).
  { apply Hc; cbn; auto. }
  destruct b; [eauto|].
  destruct IH as (r & ->); [|eauto].
  intros a1 a2 Ha Hb. apply Hc; cbn in *; intuition.
Qed.

Lemma insert_sorted_raise (x : K * A) l e : insert_sorted lt x l = Raise e -> e = TypeError.
Proof.
  induction l as [|y l IH]; cbn [insert_sorted]; [discriminate|].
  unfold bind. destruct (lt (fst x) (fst y)) as [[|]|e'] eqn:E.
  - discriminate.
  - destruct (insert_sorted lt x l); [discriminate|].
    intros H; inversion H; subst. apply IH. reflexivity.
  - intros H; inversion H; subst. eapply lt_raise, E.
Qed.

Lemma insert_sorted_class (x : K * A) l r :
  insert_sorted lt x l = Ok r -> one_class cls l -> one_class cls (x :: l).
Proof.
  destruct l as [|y l]; intros H Hc.
  - intros a b [<-|[]] [<-|[]]. reflexivity.
  - cbn [insert_sorted] in H. unfold bind in H.
    destruct (lt (fst x) (fst y)) as [b|] eqn:E; [|discriminate].
    apply lt_ok_class in E.
    assert (G : forall a, In a (x :: y :: l) -> cls (fst a) = cls (fst y)).
    { intros a [<-|Ha]; [exact E|]. apply Hc; [exact Ha | left; reflexivity]. }
    intros a1 a2 Ha Hb. rewrite (G a1 Ha), (G a2 Hb). reflexivity.
Qed.

Lemma insert_sorted_hd (x y : K * A) l r :
  insert_sorted lt x l = Ok r -> HdRel (asc lt) y l -> asc lt y x -> HdRel (asc lt) y r.
Proof.
  destruct l as [|z l]; cbn [insert_sorted]; intros H Hh Hx.
  - inversion H; subst. constructor. exact Hx.
  - unfold bind in H. destruct (lt (fst x) (fst z)) as [[|]|]; [| |discriminate].
    + inversion H; subst. constructor. exact Hx.
    + destruct (insert_sorted lt x l); [|discriminate].
      inversion H; subst. inversion Hh; subst. constructor. assumption.
Qed.

Lemma insert_sorted_sorted (x : K * A) l r :
  insert_sorted lt x l = Ok r -> Sorted (asc lt) l -> Sorted (asc lt) r.
Proof.
  revert r. induction l as [|y l IH]; intros r H Hs; cbn [insert_sorted] in H.
  - inversion H; subst. repeat constructor.
  - unfold bind in H. destruct (lt (fst x) (fst y)) as [[|]|] eqn:E; [| |discriminate].
    + inversion H; subst. constructor; [exact Hs|].
      constructor. apply lt_asym, E.
    + destruct (insert_sorted lt x l) as [r'|] eqn:Er; [|discriminate].
      inversion H; subst. inversion Hs; subst.
      constructor; [apply IH; auto|].
      eapply insert_sorted_hd; eauto.
Qed.

Lemma insertion_sort_perm (done todo r : list (K * A)) :
  insertion_sort lt done todo = Ok r -> Permutation (done ++ todo) r.
Proof.
  revert done r. induction todo as [|x todo IH]; intros done r; cbn [insertion_sort].
  - intros H; inversion H; subst. rewrite app_nil_r. apply Permutation_refl.
  - unfold bind. destruct (insert_sorted lt x done) as [d|] eqn:E; [|discriminate].
    intros H. apply IH in H. apply insert_sorted_perm in E.
    eapply Permutation_trans; [|exact H].
    eapply Permutation_trans; [apply Permutation_sym, Permutation_middle|].
    exact (Permutation_app_tail todo E).
Qed.

Lemma insertion_sort_sorted (done todo r : list (K * A)) :
  insertion_sort lt done todo = Ok r -> Sorted (asc lt) done -> Sorted (asc lt) r.
Proof.
  revert done r. induction todo as [|x todo IH]; intros done r; cbn [insertion_sort].
  - intros H; inversion H; subst. auto.
  - unfold bind. destruct (insert_sorted lt x done) as [d|] eqn:E; [|discriminate].
    intros H Hs. eapply IH; [exact H|]. eapply insert_sorted_sorted; eauto.
Qed.

Lemma insertion_sort_ok (done todo : list (K * A)) :
  one_class cls (done ++ todo) -> exists r, insertion_sort lt done todo = Ok r.
Proof.
  revert done. induction todo as [|x todo IH]; intros done Hc; cbn [insertion_sort].
  - eauto.
  - unfold bind.
    assert (P : Permutation (done ++ x :: todo) ((x :: done) ++ todo))
      by (apply Permutation_sym, Permutation_middle).
    destruct (insert_sorted_ok x done) as (d & Ed).
    { intros a b Ha Hb. apply (one_class_perm _ _ P Hc); cbn [app];
        [destruct Ha as [<-|Ha] | destruct Hb as [<-|Hb]];
        auto using in_eq, in_cons, in_or_app. }
    rewrite Ed. apply IH.
    eapply one_class_perm; [|exact Hc].
    eapply Permutation_trans; [exact P|].
    exact (Permutation_app_tail todo (insert_sorted_perm _ _ _ Ed)).
Qed.

Lemma insertion_sort_class (done todo r : list (K * A)) :
  insertion_sort lt done todo = Ok r -> one_class cls done -> one_class cls (done ++ todo).
Proof.
  revert done r. induction todo as [|x todo IH]; intros done r; cbn [insertion_sort].
  - intros _ Hc. rewrite app_nil_r. exact Hc.
  - unfold bind. destruct (insert_sorted lt x done) as [d|] eqn:E; [|discriminate].
    intros H Hc.
    pose proof (insert_sorted_class _ _ _ E Hc) as Hx.
    pose proof (insert_sorted_perm _ _ _ E) as P.
    apply IH in H; [|eapply one_class_perm; eauto].
    eapply one_class_perm; [|exact H].
    eapply Permutation_trans;
      [exact (Permutation_app_tail todo (Permutation_sym P))|].
    apply Permutation_middle.
Qed.

Lemma insertion_sort_raise (done todo : list (K * A)) e :
  insertion_sort lt done todo = Raise e -> e = TypeError.
Proof.
  revert done. induction todo as [|x todo IH]; intros done; cbn [insertion_sort].
  - discriminate.
  - unfold bind. destruct (insert_sorted lt x done) as [d|e'] eqn:E.
    + apply IH.
    + intros H; inversion H; subst. eapply insert_sorted_raise, E.
Qed.

Variable key : A -> result K.

Lemma compute_keys_spec l ks :
  compute_keys key l = Ok ks ->
  map snd ks = l /\ Forall (fun p => key (snd p) = Ok (fst p)) ks.
Proof.
  revert ks. induction l as [|x l IH]; intros ks; cbn [compute_keys].
  - intros H; inversion H; subst. split; constructor.
  - unfold bind. destruct (key x) as [k|] eqn:Ek; [|discriminate].
    destruct (compute_keys key l) as [r|]; [|discriminate].
    intros H; inversion H; subst. destruct (IH r eq_refl) as [H1 H2].
    split; [cbn; congruence | constructor; auto].
Qed.

Lemma compute_keys_ok l :
  Forall (fun x => exists k, key x = Ok k) l -> exists ks, compute_keys key l = Ok ks.
Proof.
  induction 1 as [|x l (k & Hk) _ (ks & IH)]; cbn [compute_keys]; [eauto|].
  unfold bind. rewrite Hk, IH. eauto.
Qed.

Lemma compute_keys_raise l x e :
  In x l -> key x = Raise e -> exists e', compute_keys key l = Raise e'.
Proof.
  induction l as [|y l IH]; [contradiction|]. intros [<-|Hx] He; cbn [compute_keys].
  - unfold bind. rewrite He. eauto.
  - unfold bind. destruct (key y); [|eauto].
    destruct (IH Hx He) as (e' & ->). eauto.
Qed.


Lemma sorted_map_snd (ks : list (K * A)) :
  Sorted (fun a b => asc lt b a) ks ->
  Forall (fun p => key (snd p) = Ok (fst p)) ks ->
  Sorted (desc_by_key lt key) (map snd ks).
Proof.
  induction 1 as [|p ks Hs IH Hh]; intros HF; cbn [map]; [constructor|].
  inversion HF as [|? ? Hp HF']; subst. constructor; [apply IH, HF'|].
  destruct Hh as [|q ks' Hpq]; cbn [map]; constructor.
  inversion HF' as [|? ? Hq _]; subst.
  exists (fst p), (fst q). auto.
Qed.

(** What [sort_reverse] returns is a permutation of the list, descending
    by key. *)
Lemma sort_reverse_spec l s :
  sort_reverse lt key l = Ok s -> Permutation l s /\ Sorted (desc_by_key lt key) s.
Proof.
  unfold sort_reverse, bind.
  destruct (compute_keys key l) as [ks|] eqn:Ek; [|discriminate].
  destruct (insertion_sort lt [] (rev ks)) as [r|] eqn:Er; [|discriminate].
  intros H; inversion H; subst.
  destruct (compute_keys_spec _ _ Ek) as [Hm HF].
  pose proof (insertion_sort_perm _ _ _ Er) as P. cbn [app] in P.
  assert (P' : Permutation ks (rev r)).
  { eapply Permutation_trans; [apply Permutation_rev|].
    eapply Permutation_trans; [exact P | apply Permutation_rev]. }
  split.
  - rewrite <- Hm. apply Permutation_map, P'.
  - apply sorted_map_snd.
    + apply Sorted_rev. eapply insertion_sort_sorted; [exact Er | constructor].
    + eapply Permutation_Forall; [exact P' | exact HF].
Qed.

(** The keys that were compared are of one class. *)
Lemma sort_reverse_class l s :
  sort_reverse lt key l = Ok s ->
  exists ks, compute_keys key l = Ok ks /\ one_class cls ks.
Proof.
  unfold sort_reverse, bind.
  destruct (compute_keys key l) as [ks|] eqn:Ek; [|discriminate].
  destruct (insertion_sort lt [] (rev ks)) as [r|] eqn:Er; [|discriminate].
  intros _. exists ks. split; [reflexivity|].
  apply insertion_sort_class in Er; [|intros ? ? []]. cbn [app] in Er.
  eapply one_class_perm; [apply Permutation_sym, Permutation_rev | exact Er].
Qed.

Lemma sort_reverse_ok l ks :
  compute_keys key l = Ok ks -> one_class cls ks ->
  exists s, sort_reverse lt key l = Ok s.
Proof.
  intros Ek Hc. unfold sort_reverse, bind. rewrite Ek.
  destruct (insertion_sort_ok [] (rev ks)) as (r & ->); [|eauto].
  cbn [app]. eapply one_class_perm; [apply Permutation_rev | exact Hc].
Qed.
End SortFacts.

(** ** The order of datetimes *)

Lemma lex_compare_antisym a b : lex_compare b a = CompOpp (lex_compare a b).
Proof.
  revert b. induction a as [|x a IH]; intros [|y b]; cbn [lex_compare]; try reflexivity.
  rewrite (Z.compare_antisym x y).
  destruct (Z.compare x y); cbn [CompOpp]; [apply IH | reflexivity | reflexivity].
Qed.

Lemma dt_lt_same a b : aware a = aware b -> exists r, dt_lt a b = Ok r.
Proof.
  unfold aware, dt_lt, dt_cmp, bind.
  destruct (dt_utcoffset a) as [oa|], (dt_utcoffset b) as [ob|];
    try discriminate; intros _; [destruct (oa =? ob)%Z|]; eauto.
Qed.

Lemma dt_lt_mixed a b : aware a <> aware b -> dt_lt a b = Raise TypeError.
Proof.
  unfold aware, dt_lt, dt_cmp, bind.
  destruct (dt_utcoffset a) as [oa|], (dt_utcoffset b) as [ob|];
    try congruence; reflexivity.
Qed.

Lemma dt_lt_asym a b : dt_lt a b = Ok true -> dt_lt b a = Ok false.
Proof.
  unfold dt_lt, dt_cmp, bind.
  destruct (dt_utcoffset a) as [oa|], (dt_utcoffset b) as [ob|]; try discriminate.
  - rewrite (Z.eqb_sym ob oa). destruct (oa =? ob)%Z.
    + rewrite (lex_compare_antisym (dt_fields a) (dt_fields b)).
      destruct (lex_compare (dt_fields a) (dt_fields b)); try discriminate. reflexivity.
    + rewrite (Z.compare_antisym (dt_micros a - oa) (dt_micros b - ob)).
      destruct (Z.compare (dt_micros a - oa) (dt_micros b - ob)); try discriminate.
      reflexivity.
  - rewrite (lex_compare_antisym (dt_fields a) (dt_fields b)).
    destruct (lex_compare (dt_fields a) (dt_fields b)); try discriminate. reflexivity.
Qed.

(** ** The calendar: datetimes compare as their instants *)

Section Calendar.
Local Open Scope Z_scope.

Lemma days_before_year_step y :
  days_before_year (y + 1) = days_before_year y + 365 + (if is_leap y then 1 else 0).
Proof.
  unfold days_before_year, is_leap. cbv zeta.
  replace (y + 1 - 1) with y by lia.
  destruct (Z.eqb_spec (y mod 4) 0), (Z.eqb_spec (y mod 100) 0),
    (Z.eqb_spec (y mod 400) 0); cbn [negb orb andb];
    Z.to_euclidean_division_equations; lia.
Qed.

Lemma days_before_year_mono y k :
  0 <= k -> days_before_year y + 365 * k <= days_before_year (y + k).
Proof.
  intros Hk. pattern k. apply natlike_ind; [| |exact Hk].
  - replace (y + 0) with y by lia. lia.
  - intros j Hj IH. replace (y + Z.succ j) with (y + j + 1) by lia.
    rewrite days_before_year_step. destruct (is_leap (y + j)); lia.
Qed.

Lemma month_cases m : 1 <= m <= 12 ->
  m = 1 \/ m = 2 \/ m = 3 \/ m = 4 \/ m = 5 \/ m = 6 \/ m = 7 \/ m = 8
  \/ m = 9 \/ m = 10 \/ m = 11 \/ m = 12.
Proof. lia. Qed.

Ltac month_calc :=
  cbv [nth Z.to_nat Pos.to_nat Pos.iter_op Nat.add Z.eqb Pos.eqb Z.ltb
       Z.compare Pos.compare Pos.compare_cont andb] in *.

(** The day of the year of a valid date. *)
Lemma day_of_year_range y m d :
  valid_date y m d ->
  1 <= days_before_month y m + d <= 365 + (if is_leap y then 1 else 0).
Proof.
  intros [Hm Hd].
  unfold days_before_month, days_in_month, DAYS_BEFORE_MONTH, DAYS_IN_MONTH in *.
  destruct (is_leap y);
    destruct (month_cases m Hm) as [->|[->|[->|[->|[->|[->|[->|[->|[->|[->|[->| ->]]]]]]]]]]];
    month_calc; lia.
Qed.

Lemma days_before_month_next y m1 m2 d1 :
  valid_date y m1 d1 -> m1 < m2 <= 12 ->
  days_before_month y m1 + d1 <= days_before_month y m2.
Proof.
  intros [Hm Hd] Hlt.
  unfold days_before_month, days_in_month, DAYS_BEFORE_MONTH, DAYS_IN_MONTH in *.
  assert (Hm2 : 1 <= m2 <= 12) by lia.
  destruct (is_leap y);
    destruct (month_cases m1 Hm) as [->|[->|[->|[->|[->|[->|[->|[->|[->|[->|[->| ->]]]]]]]]]]];
    destruct (month_cases m2 Hm2) as [->|[->|[->|[->|[->|[->|[->|[->|[->|[->|[->| ->]]]]]]]]]]];
    try lia; month_calc; lia.
Qed.

(** On valid dates the day number orders as year, month and day do. *)
Lemma ymd2ord_compare y1 m1 d1 y2 m2 d2 :
  valid_date y1 m1 d1 -> valid_date y2 m2 d2 ->
  Z.compare (ymd2ord y1 m1 d1) (ymd2ord y2 m2 d2)
  = lex_compare [y1; m1; d1] [y2; m2; d2].
Proof.
  intros V1 V2. unfold ymd2ord. cbn [lex_compare].
  pose proof (day_of_year_range _ _ _ V1) as R1.
  pose proof (day_of_year_range _ _ _ V2) as R2.
  destruct (Z.compare_spec y1 y2) as [->|Hy|Hy].
  - destruct (Z.compare_spec m1 m2) as [->|Hm|Hm].
    + destruct (Z.compare_spec d1 d2) as [->|Hd|Hd].
      * apply Z.compare_refl.
      * apply Z.compare_lt_iff. lia.
      * apply Z.compare_gt_iff. lia.
    + apply Z.compare_lt_iff.
      pose proof (days_before_month_next y2 m1 m2 d1 V1). destruct V2. lia.
    + apply Z.compare_gt_iff.
      pose proof (days_before_month_next y2 m2 m1 d2 V2). destruct V1. lia.
  - apply Z.compare_lt_iff.
    pose proof (days_before_year_step y1).
    pose proof (days_before_year_mono (y1 + 1) (y2 - (y1 + 1))).
    replace (y1 + 1 + (y2 - (y1 + 1))) with y2 in * by lia. lia.
  - apply Z.compare_gt_iff.
    pose proof (days_before_year_step y2).
    pose proof (days_before_year_mono (y2 + 1) (y1 - (y2 + 1))).
    replace (y2 + 1 + (y1 - (y2 + 1))) with y1 in * by lia. lia.
Qed.

Lemma fromisoformat_valid t d : fromisoformat t = Ok d -> dt_valid d = true.
Proof.
  destruct t; try discriminate. unfold fromisoformat, fromisoformat_str, bind.
  repeat match goal with
         | |- context [match ?x with _ => _ end] =>
             destruct x eqn:?; try discriminate
         end;
    intros E; inversion E; subst d; unfold dt_valid; cbn; assumption.
Qed.

Lemma dt_valid_spec d :
  dt_valid d = true ->
  valid_date (dt_year d) (dt_month d) (dt_day d)
  /\ 0 <= dt_hour d <= 23 /\ 0 <= dt_minute d <= 59
  /\ 0 <= dt_second d <= 59 /\ 0 <= dt_microsecond d <= 999999.
Proof.
  unfold dt_valid, check_datetime_args, valid_date.
  rewrite !andb_true_iff, !Z.leb_le. lia.
Qed.

(** On valid datetimes the order of the fields is the order of the
    microsecond counts. *)
Lemma lex_fields_micros a b :
  dt_valid a = true -> dt_valid b = true ->
  lex_compare (dt_fields a) (dt_fields b) = Z.compare (dt_micros a) (dt_micros b).
Proof.
  intros Va Vb.
  destruct (dt_valid_spec a Va) as (Da & Ha & Ma & Sa & Ua).
  destruct (dt_valid_spec b Vb) as (Db & Hb & Mb & Sb & Ub).
  pose proof (ymd2ord_compare _ _ _ _ _ _ Da Db) as Ho.
  unfold dt_fields, dt_micros. cbn [lex_compare] in Ho |- *.
  set (oa := ymd2ord (dt_year a) (dt_month a) (dt_day a)) in *.
  set (ob := ymd2ord (dt_year b) (dt_month b) (dt_day b)) in *.
  assert (Hord :
            match Z.compare oa ob with
            | Eq =>
                match Z.compare (dt_hour a) (dt_hour b) with
                | Eq =>
                    match Z.compare (dt_minute a) (dt_minute b) with
                    | Eq =>
                        match Z.compare (dt_second a) (dt_second b) with
                        | Eq =>
                            match Z.compare (dt_microsecond a) (dt_microsecond b) with
                            | Eq => Eq
                            | c => c
                            end
                        | c => c
                        end
                    | c => c
                    end
                | c => c
                end
            | c => c
            end
            = Z.compare
                ((((oa * 24 + dt_hour a) * 60 + dt_minute a) * 60 + dt_second a)
                 * 1000000 + dt_microsecond a)
                ((((ob * 24 + dt_hour b) * 60 + dt_minute b) * 60 + dt_second b)
                 * 1000000 + dt_microsecond b)).
  { symmetry. clear Ho.
    repeat match goal with
             | |- context [match Z.compare ?x ?y with _ => _ end] =>
                 destruct (Z.compare_spec x y)
           end;
      first [apply Z.compare_eq_iff | apply Z.compare_lt_iff
            | apply Z.compare_gt_iff]; lia. }
  rewrite <- Hord, Ho.
  destruct (Z.compare (dt_year a) (dt_year b)); [|reflexivity|reflexivity].
  destruct (Z.compare (dt_month a) (dt_month b)); [|reflexivity|reflexivity].
  destruct (Z.compare (dt_day a) (dt_day b)); reflexivity.
Qed.

Lemma compare_shift x y o : Z.compare (x - o) (y - o) = Z.compare x y.
Proof.
  destruct (Z.compare_spec x y);
    [apply Z.compare_eq_iff | apply Z.compare_lt_iff | apply Z.compare_gt_iff]; lia.
Qed.

(** Two valid datetimes that are both naive or both aware compare as their
    instants do. *)
Lemma dt_cmp_instant a b :
  dt_valid a = true -> dt_valid b = true -> aware a = aware b ->
  dt_cmp a b = Ok (Z.compare (dt_instant a) (dt_instant b)).
Proof.
  intros Va Vb. unfold aware, dt_cmp, dt_instant.
  destruct (dt_utcoffset a) as [oa|], (dt_utcoffset b) as [ob|];
    try discriminate; intros _.
  - destruct (Z.eqb_spec oa ob) as [->|]; [|reflexivity].
    rewrite compare_shift. f_equal. apply lex_fields_micros; assumption.
  - rewrite !Z.sub_0_r. f_equal. apply lex_fields_micros; assumption.
Qed.

(** [not_before] in terms of instants. *)
Lemma not_before_instant a b :
  not_before a b <->
  exists da db, fromisoformat a = Ok da /\ fromisoformat b = Ok db
                /\ aware da = aware db /\ dt_instant db <= dt_instant da.
Proof.
  unfold not_before. split; intros (da & db & Ea & Eb & Hc); exists da, db.
  - split; [exact Ea|]. split; [exact Eb|].
    destruct (bool_dec (aware da) (aware db)) as [Hw|Hw].
    + split; [exact Hw|]. unfold dt_lt, bind in Hc.
      rewrite (dt_cmp_instant _ _ (fromisoformat_valid _ _ Ea)
                 (fromisoformat_valid _ _ Eb) Hw) in Hc.
      destruct (Z.compare_spec (dt_instant da) (dt_instant db)); try lia; discriminate.
    + rewrite (dt_lt_mixed _ _ Hw) in Hc. discriminate.
  - destruct Hc as [Hw Hle]. split; [exact Ea|]. split; [exact Eb|].
    unfold dt_lt, bind.
    rewrite (dt_cmp_instant _ _ (fromisoformat_valid _ _ Ea)
               (fromisoformat_valid _ _ Eb) Hw).
    destruct (Z.compare_spec (dt_instant da) (dt_instant db)); try reflexivity; lia.
Qed.

Lemma not_before_trans a b c : not_before a b -> not_before b c -> not_before a c.
Proof.
  rewrite !not_before_instant.
  intros (da & db & Ea & Eb & Hw & Hle) (db' & dc & Eb' & Ec & Hw' & Hle').
  rewrite Eb in Eb'. inversion Eb'; subst db'.
  exists da, dc. split; [exact Ea|]. split; [exact Ec|].
  split; [congruence | lia].
Qed.
End Calendar.

(** ** Sorting entries by timestamp *)

Section ByTimestamp.
Context {A : Type}.
Variable proj : A -> value.

Abbreviation key := (fun x : A => fromisoformat (proj x)).

Lemma keys_of_alike l :
  timestamps_alike (map proj l) = true ->
  exists ks, compute_keys key l = Ok ks /\ one_class aware ks.
Proof.
  intros Ha.
  assert (Hc : exists c, forall x, In x l ->
                 exists d, key x = Ok d /\ aware d = c).
  { unfold timestamps_alike in Ha. apply orb_true_iff in Ha as [Ha|Ha];
      [exists false | exists true]; intros x Hx;
      rewrite forallb_forall in Ha; specialize (Ha (proj x) (in_map proj _ _ Hx));
      unfold ts_naive, ts_aware in Ha; cbv beta;
      destruct (fromisoformat (proj x)) as [d|]; try discriminate;
      exists d; split; [reflexivity| |reflexivity|exact Ha].
    apply negb_true_iff, Ha. }
  destruct Hc as (c & Hc).
  destruct (compute_keys_ok key l) as (ks & Ek).
  { apply Forall_forall. intros x Hx. destruct (Hc x Hx) as (d & Hd & _). eauto. }
  exists ks. split; [exact Ek|].
  destruct (compute_keys_spec key _ _ Ek) as [Hm HF].
  assert (G : forall p, In p ks -> aware (fst p) = c).
  { intros p Hp. rewrite Forall_forall in HF. specialize (HF p Hp).
    destruct (Hc (snd p)) as (d & Hd & Hcd).
    - rewrite <- Hm. apply in_map, Hp.
    - congruence. }
  intros x y Hx Hy. rewrite (G x Hx), (G y Hy). reflexivity.
Qed.

Lemma alike_of_keys l ks :
  compute_keys key l = Ok ks -> one_class aware ks ->
  timestamps_alike (map proj l) = true.
Proof.
  intros Ek Hc. destruct (compute_keys_spec key _ _ Ek) as [Hm HF].
  rewrite Forall_forall in HF.
  assert (G : forall c, (forall p, In p ks -> aware (fst p) = c) ->
              forall t, In t (map proj l) ->
              exists d, fromisoformat t = Ok d /\ aware d = c).
  { intros c Hall t Ht. apply in_map_iff in Ht as (x & <- & Hx).
    rewrite <- Hm in Hx. apply in_map_iff in Hx as (p & <- & Hp).
    exists (fst p). split; [apply HF, Hp | apply Hall, Hp]. }
  unfold timestamps_alike. apply orb_true_iff.
  destruct ks as [|p0 ks'].
  - destruct l; [|discriminate]. left. reflexivity.
  - destruct (aware (fst p0)) eqn:E0; [right | left];
      apply forallb_forall; intros t Ht;
      destruct (G _ (fun p Hp => eq_trans (Hc p p0 Hp (in_eq _ _)) E0) t Ht)
        as (d & Hd & Hcd);
      unfold ts_aware, ts_naive; rewrite Hd, Hcd; reflexivity.
Qed.

(** Sorting by timestamp succeeds exactly on timestamps that are alike,
    and then returns a permutation in which no entry is earlier than its
    successor. *)
Lemma sort_by_timestamp l :
  (timestamps_alike (map proj l) = true <-> succeeds (sort_reverse dt_lt key l)) /\
  (forall s, sort_reverse dt_lt key l = Ok s ->
     Permutation l s /\ Sorted (fun a b => not_before (proj a) (proj b)) s).
Proof.
  split; [split|].
  - intros Ha. destruct (keys_of_alike l Ha) as (ks & Ek & Hc).
    apply (sort_reverse_ok dt_lt aware dt_lt_same key l ks Ek Hc).
  - intros (s & Hs).
    destruct (sort_reverse_class dt_lt aware dt_lt_mixed key l s Hs) as (ks & Ek & Hc).
    apply (alike_of_keys l ks Ek Hc).
  - intros s Hs. apply (sort_reverse_spec dt_lt dt_lt_asym key l s Hs).
Qed.

(** A timestamp that does not parse makes the sort raise. *)
Lemma sort_invalid_timestamp l x :
  In x l -> ~ valid_timestamp (proj x) ->
  exists e, sort_reverse dt_lt key l = Raise e.
Proof.
  intros Hx Hv. unfold valid_timestamp in Hv.
  destruct (fromisoformat (proj x)) as [d|e] eqn:Ex; [destruct Hv; eauto|].
  destruct (compute_keys_raise key l x e Hx Ex) as (e' & He').
  exists e'. unfold sort_reverse, bind. rewrite He'. reflexivity.
Qed.
End ByTimestamp.

(** ** The Object-Stream Recoverer *)

Section Recoverer.
Context {world : Type} `{OS world}.




End Recoverer.

Lemma json_loads_boundary b :
  at_lbrace b = true ->
  (exists d, json_loads b = Ok (JDict d)) \/ json_loads b = Raise JSONDecodeError.
Proof.
  intros Hb. destruct (json_loads b) as [v|e] eqn:E.
  - left. unfold json_loads, bind in E. rewrite (skip_ws_lbrace _ Hb) in E.
    destruct (scan_once (json_fuel b) b) as [[v' r]|] eqn:Es; [|discriminate].
    destruct (scan_object_shape _ _ _ _ Hb Es) as [_ (d & ->)].
    destruct (skip_ws r); [|discriminate]. inversion E; subst. eauto.
  - right. rewrite (json_loads_raise _ _ E). reflexivity.
Qed.

Lemma decoded_dicts_cons obj rest :
  decoded_dicts (obj :: rest)
  = match json_loads obj with Ok (JDict d) => [d] | _ => [] end ++ decoded_dicts rest.
Proof. reflexivity. Qed.



Lemma version_loop_spec objs :
  Forall (fun b => at_lbrace b = true) objs ->
  forall acc, version_loop objs acc = Ok (acc ++ map version_of (decoded_dicts objs)).
Proof.
  induction 1 as [|obj rest Hb _ IH]; intros acc; cbn [version_loop].
  - cbn. rewrite app_nil_r. reflexivity.
  - rewrite decoded_dicts_cons. unfold version_entry, bind.
    destruct (json_loads_boundary obj Hb) as [(d & ->)| ->].
    + cbn [value_get]. rewrite IH. cbn [app map]. rewrite <- app_assoc. reflexivity.
    + rewrite IH. reflexivity.
Qed.

Lemma audit_loop_spec objs :
  Forall (fun b => at_lbrace b = true) objs ->
  forall acc,
  audit_loop objs acc = Ok (acc ++ map audit_of (filter kept_audit (decoded_dicts objs))).
Proof.
  induction 1 as [|obj rest Hb _ IH]; intros acc; cbn [audit_loop].
  - cbn. rewrite app_nil_r. reflexivity.
  - rewrite decoded_dicts_cons. unfold audit_entry, bind.
    destruct (json_loads_boundary obj Hb) as [(d & ->)| ->].
    + cbn [app filter].
      change (negb (is_backup_type (dict_get (str "type") d))) with (kept_audit d).
      destruct (kept_audit d).
      * rewrite IH. cbn [map]. rewrite <- app_assoc. reflexivity.
      * rewrite IH. reflexivity.
    + rewrite IH. reflexivity.
Qed.

Lemma findall_at_lbrace content : Forall (fun b => at_lbrace b = true) (findall content).
Proof. apply Forall_forall. intros b Hb. apply (findall_braces _ _ Hb). Qed.



(** ** Site records *)

Lemma get_nested_field outer inner placeholder d :
  dict_or_absent outer d = true ->
  get_nested outer inner placeholder d = Ok (field_or outer inner placeholder d).
Proof.
  unfold dict_or_absent, get_nested, field_or, nested_get, get_default.
  destruct (dict_get (str outer) d) as [[]|]; try discriminate; reflexivity.
Qed.


(** ** Versions and audits *)

Lemma Sorted_firstn {X : Type} (R : X -> X -> Prop) n l :
  Sorted R l -> Sorted R (firstn n l).
Proof.
  intros Hs. revert n. induction Hs as [|x l Hs IH Hh]; intros [|n]; cbn [firstn];
    try constructor.
  - apply IH.
  - destruct Hh as [|y l' Hxy]; destruct n; cbn [firstn]; constructor. exact Hxy.
Qed.

Lemma In_firstn {X : Type} n (l : list X) x : In x (firstn n l) -> In x l.
Proof.
  revert n. induction l as [|y l IH]; intros [|n]; cbn [firstn]; try contradiction.
  intros [->|Hx]; [left; reflexivity | right; eapply IH, Hx].
Qed.

Lemma pystr_eqb_eq a b : pystr_eqb a b = true <-> a = b.
Proof.
  revert b. induction a as [|x a IH]; intros [|y b]; cbn [pystr_eqb];
    try (split; [discriminate | congruence]); [split; reflexivity|].
  rewrite andb_true_iff, IH. unfold ch_eqb. rewrite N.eqb_eq.
  split; [intros [-> ->]; reflexivity | intros E; inversion E; auto].
Qed.


Section Listings.
Context {world : Type} `{OS world}.

Lemma collect_audits_read directory w audit_file rest content :
  glob_glob (path_join directory (str AUDIT_PATTERN)) w = audit_file :: rest ->
  open_read audit_file w = Ok content ->
  collect_audits directory w
  = Ok (map audit_of (filter kept_audit (decoded_dicts (findall content)))).
Proof.
  intros Hg Hr. unfold collect_audits. rewrite Hg, Hr.
  apply (audit_loop_spec _ (findall_at_lbrace content) []).
Qed.

Lemma collect_versions_read directory w version_file rest content :
  glob_glob (path_join directory (str VERSIONS_PATTERN)) w = version_file :: rest ->
  open_read version_file w = Ok content ->
  collect_versions directory w
  = Ok (map version_of (decoded_dicts (findall content))).
Proof.
  intros Hg Hr. unfold collect_versions. rewrite Hg, Hr.
  apply (version_loop_spec _ (findall_at_lbrace content) []).
Qed.

(** C6, amended: when the timestamps of the audit records that are kept
    all parse and are alike in being naive or aware, [get_last_audits]
    returns a list in which no entry is earlier than any entry after it,
    of at most 20 entries, each made of a recovered record whose type is
    not in the exclusion set. *)
Theorem last_audits_sorted directory w audit_file rest content :
  glob_glob (path_join directory (str AUDIT_PATTERN)) w = audit_file :: rest ->
  open_read audit_file w = Ok content ->
  timestamps_alike
    (map (fun d => fst (audit_of d))
         (filter kept_audit (decoded_dicts (findall content)))) = true ->
  exists l,
    get_last_audits directory w = Ok l
    /\ StronglySorted (fun a b => not_before (fst a) (fst b)) l
    /\ List.length l <= 20
    /\ forall e, In e l ->
         exists d, In d (decoded_dicts (findall content))
                   /\ is_backup_type (dict_get (str "type") d) = false
                   /\ e = audit_of d.
Proof.
  intros Hg Hr Ha. unfold get_last_audits, bind.
  rewrite (collect_audits_read _ _ _ _ _ Hg Hr).
  rewrite <- map_map in Ha.
  destruct (sort_by_timestamp fst
              (map audit_of (filter kept_audit (decoded_dicts (findall content)))))
    as [Hiff Hspec].
  destruct (proj1 Hiff Ha) as (s & Hs). rewrite Hs.
  destruct (Hspec s Hs) as [P Hsorted].
  exists (firstn 20 s). split; [reflexivity|]. split; [|split].
  - apply Sorted_StronglySorted; [|apply Sorted_firstn, Hsorted].
    intros x y z Hxy Hyz. exact (not_before_trans _ _ _ Hxy Hyz).
  - rewrite length_firstn. apply Nat.le_min_l.
  - intros e He. apply In_firstn in He.
    apply (Permutation_in _ (Permutation_sym P)) in He.
    apply in_map_iff in He as (d & <- & Hd).
    apply filter_In in Hd as [Hd Hk].
    exists d. split; [exact Hd|]. split; [|reflexivity].
    unfold kept_audit in Hk. apply negb_true_iff, Hk.
Qed.


Variable sort_sites : list dict -> result (list dict).

Lemma not_succeeds_raise {X : Type} (m : result X) :
  ~ succeeds m -> exists e, m = Raise e.
Proof.
  destruct m as [x|e]; [intros Hn; destruct Hn; exists x; reflexivity | eauto].
Qed.

Lemma alike_valid {X : Type} (proj : X -> value) l x :
  timestamps_alike (map proj l) = true -> In x l -> valid_timestamp (proj x).
Proof.
  intros Ha Hx. unfold timestamps_alike in Ha.
  apply orb_true_iff in Ha as [Ha|Ha]; rewrite forallb_forall in Ha;
    specialize (Ha (proj x) (in_map proj _ _ Hx));
    unfold ts_naive, ts_aware in Ha; unfold valid_timestamp;
    destruct (fromisoformat (proj x)) as [dt|]; try discriminate; eauto.
Qed.

(** C7, amended: a timestamp that does not parse (such as the placeholder
    for a missing one) makes [get_ndo_versions] and [get_last_audits]
    raise, and the error leaves [main] without a report.  Once the record
    file has been read, they succeed exactly when every timestamp parses
    and the timestamps are alike in being naive or aware. *)
Theorem timestamp_failure_aborts directory w :
  fromisoformat (JStr (str "Unknown Timestamp")) = Raise ValueError
  /\ (forall version_file rest entries,
        glob_glob (path_join directory (str VERSIONS_PATTERN)) w = version_file :: rest ->
        collect_versions directory w = Ok entries ->
        ((exists x, In x entries /\ ~ valid_timestamp (snd x)) ->
           exists e, get_ndo_versions directory w = Raise e)
        /\ (succeeds (get_ndo_versions directory w) <->
            timestamps_alike (map snd entries) = true))
  /\ (forall entries,
        collect_audits directory w = Ok entries ->
        ((exists x, In x entries /\ ~ valid_timestamp (fst x)) ->
           exists e, get_last_audits directory w = Raise e)
        /\ (succeeds (get_last_audits directory w) <->
            timestamps_alike (map fst entries) = true))
  /\ (forall e, get_ndo_versions directory w = Raise e ->
        main_report sort_sites directory w = Raise e)
  /\ (forall e, get_last_audits directory w = Raise e ->
        exists e', main_report sort_sites directory w = Raise e')
  /\ (forall n initial_zip w0 w1 e,
        replace initial_zip (str ".zip") [] = directory ->
        extract_zip initial_zip directory w0 = Ok w1 ->
        handle_extracted_directory n directory w1 = Ok w ->
        main_report sort_sites directory w = Raise e ->
        main sort_sites n initial_zip w0 = Raise e).
Proof.
  split; [vm_compute; reflexivity|].
  assert (V : forall version_file rest entries,
            glob_glob (path_join directory (str VERSIONS_PATTERN)) w = version_file :: rest ->
            collect_versions directory w = Ok entries ->
            (succeeds (get_ndo_versions directory w) <->
             timestamps_alike (map snd entries) = true)).
  { intros version_file rest entries Hg Hc.
    unfold get_ndo_versions, bind. rewrite Hc, Hg.
    destruct (sort_by_timestamp snd entries) as [Hiff _].
    rewrite Hiff. unfold succeeds.
    destruct (sort_reverse dt_lt (fun x => fromisoformat (snd x)) entries) as [s|e].
    - split; intros _; [eauto|]. destruct s; eauto.
    - split; intros (a & Ha); discriminate. }
  assert (U : forall entries,
            collect_audits directory w = Ok entries ->
            (succeeds (get_last_audits directory w) <->
             timestamps_alike (map fst entries) = true)).
  { intros entries Hc. unfold get_last_audits, bind. rewrite Hc.
    destruct (sort_by_timestamp fst entries) as [Hiff _].
    rewrite Hiff. unfold succeeds.
    destruct (sort_reverse dt_lt (fun x => fromisoformat (fst x)) entries) as [s|e].
    - split; intros _; eauto.
    - split; intros (a & Ha); discriminate. }
  split; [|split; [|split; [|split]]].
  - intros version_file rest entries Hg Hc. split; [|eapply V; eauto].
    intros (x & Hx & Hv). apply not_succeeds_raise.
    rewrite (V _ _ _ Hg Hc). intros Ha. apply Hv.
    apply (alike_valid snd entries x Ha Hx).
  - intros entries Hc. split; [|apply U, Hc].
    intros (x & Hx & Hv). apply not_succeeds_raise.
    rewrite (U _ Hc). intros Ha. apply Hv.
    apply (alike_valid fst entries x Ha Hx).
  - intros e He. unfold main_report, bind. rewrite He. reflexivity.
  - intros e He. unfold main_report, bind. rewrite He.
    destruct (get_ndo_versions directory w); [|eauto].
    destruct (collect_sites _ w); [|eauto].
    destruct (sort_sites _); eauto.
  - intros n initial_zip w0 w1 e Hd Hx Hh Hm.
    unfold main, bind. rewrite Hd, Hx, Hh. exact Hm.
Qed.
End Listings.

(** ** Archive expansion *)

Section Expansion.
Context {world : Type} `{OS world}.

Lemma for_each_file_app process directory before after w :
  for_each_file process directory (before ++ after) w
  = (w' <- for_each_file process directory before w ;;
     for_each_file process directory after w').
Proof.
  revert w. induction before as [|name before IH]; intros w; [reflexivity|].
  cbn [app for_each_file]. unfold bind.
  destruct (if os_isfile (path_join directory name) w
            then process (path_join directory name) w else Ok w) as [w'|e];
    [apply IH | reflexivity].
Qed.

Lemma process_file_step n file_path w :
  process_file (S n) file_path w
  = if endswith file_path (str ".zip") then
      let extract_dir := replace file_path (str ".zip") [] in
      w1 <- os_makedirs extract_dir w ;;
      w2 <- extract_zip file_path extract_dir w1 ;;
      handle_extracted_directory n extract_dir w2
    else if endswith file_path (str ".tar.gz") then
      let extract_dir := replace file_path (str ".tar.gz") [] in
      w1 <- os_makedirs extract_dir w ;;
      w2 <- extract_tar_gz file_path extract_dir w1 ;;
      handle_extracted_directory n extract_dir w2
    else Ok w.
Proof. reflexivity. Qed.

(** C3, amended: the kind of a container is taken from its name alone.  A
    name that ends in [.zip] is given to the zip extractor, any other name
    that ends in [.tar.gz] to the gzip-tar extractor, and a file of any
    other name is left alone, whatever it holds; an extractor that fails
    is not followed by the other one. *)
Theorem container_kind_by_name n file_path w :
  (endswith file_path (str ".zip") = true ->
     process_file (S n) file_path w
     = (w1 <- os_makedirs (replace file_path (str ".zip") []) w ;;
        w2 <- zip_extractall file_path (replace file_path (str ".zip") []) w1 ;;
        handle_extracted_directory n (replace file_path (str ".zip") []) w2)
     /\ forall w1 e,
          os_makedirs (replace file_path (str ".zip") []) w = Ok w1 ->
          zip_extractall file_path (replace file_path (str ".zip") []) w1 = Raise e ->
          process_file (S n) file_path w = Raise e)
  /\ (endswith file_path (str ".zip") = false ->
      endswith file_path (str ".tar.gz") = true ->
      process_file (S n) file_path w
      = (w1 <- os_makedirs (replace file_path (str ".tar.gz") []) w ;;
         w2 <- tar_extractall file_path (replace file_path (str ".tar.gz") []) w1 ;;
         handle_extracted_directory n (replace file_path (str ".tar.gz") []) w2)
      /\ forall w1 e,
           os_makedirs (replace file_path (str ".tar.gz") []) w = Ok w1 ->
           tar_extractall file_path (replace file_path (str ".tar.gz") []) w1 = Raise e ->
           process_file (S n) file_path w = Raise e)
  /\ (endswith file_path (str ".zip") = false ->
      endswith file_path (str ".tar.gz") = false ->
      process_file (S n) file_path w = Ok w).
Proof.
  rewrite process_file_step. split; [|split].
  - intros ->. split; [reflexivity|].
    intros w1 e Hm Hx. cbv zeta. unfold extract_zip, bind. rewrite Hm, Hx. reflexivity.
  - intros -> ->. split; [reflexivity|].
    intros w1 e Hm Hx. cbv zeta. unfold extract_tar_gz, bind. rewrite Hm, Hx. reflexivity.
  - intros -> ->. reflexivity.
Qed.

End Expansion.

(** ** The claims on example inputs *)

Module OnExamples.
Import SimFS Examples.






(** C6 as stated fails: both timestamps are valid ISO date-time strings,
    and [get_last_audits] emits no list. *)
Lemma mixed_audits_raise :
  open_read (str audit_path) (one_file audit_path mixed_audits) = Ok mixed_audits
  /\ map fst (map audit_of (decoded_dicts (findall mixed_audits)))
     = [JStr (str "2024-01-01T00:00:00"); JStr (str "2024-01-02T00:00:00+00:00")]
  /\ valid_timestamp (JStr (str "2024-01-01T00:00:00"))
  /\ valid_timestamp (JStr (str "2024-01-02T00:00:00+00:00"))
  /\ get_last_audits (str "ts") (one_file audit_path mixed_audits) = Raise TypeError.
Proof.
  repeat split; try (vm_compute; reflexivity);
    eexists; vm_compute; reflexivity.
Qed.

Lemma last_audits_sorted_witness :
  exists l,
    get_last_audits (str "ts") (one_file audit_path naive_audits) = Ok l
    /\ StronglySorted (fun a b => not_before (fst a) (fst b)) l
    /\ List.length l <= 20
    /\ forall e, In e l ->
         exists d, In d (decoded_dicts (findall naive_audits))
                   /\ is_backup_type (dict_get (str "type") d) = false
                   /\ e = audit_of d.
Proof.
  apply (last_audits_sorted (str "ts") (one_file audit_path naive_audits)
           (str audit_path) [] naive_audits); vm_compute; reflexivity.
Defined.

(** C7 as stated fails: every timestamp parses, and [get_ndo_versions]
    raises. *)
Lemma mixed_versions_raise :
  collect_versions (str "ts") (one_file versions_path mixed_versions)
  = Ok [(JStr (str "1.0"), JStr (str "2024-01-01T00:00:00"));
        (JStr (str "1.1"), JStr (str "2024-02-01T00:00:00Z"))]
  /\ valid_timestamp (JStr (str "2024-01-01T00:00:00"))
  /\ valid_timestamp (JStr (str "2024-02-01T00:00:00Z"))
  /\ get_ndo_versions (str "ts") (one_file versions_path mixed_versions)
     = Raise TypeError.
Proof.
  repeat split; try (vm_compute; reflexivity);
    eexists; vm_compute; reflexivity.
Qed.

Lemma timestamp_failure_aborts_witness :
  succeeds (get_ndo_versions (str "ts") (one_file versions_path naive_versions)).
Proof.
  assert (Hg : glob_glob (path_join (str "ts") (str VERSIONS_PATTERN))
                 (one_file versions_path naive_versions)
               = [str versions_path])
    by (vm_compute; reflexivity).
  assert (Hc : collect_versions (str "ts") (one_file versions_path naive_versions)
               = Ok [(JStr (str "1.0"), JStr (str "2024-01-01T00:00:00"));
                     (JStr (str "1.1"), JStr (str "2024-02-01T00:00:00"))])
    by (vm_compute; reflexivity).
  apply (proj2 (proj1 (proj2 (timestamp_failure_aborts (fun l => Ok l) (str "ts")
                                (one_file versions_path naive_versions)))
                  (str versions_path) [] _ Hg Hc)).
  vm_compute. reflexivity.
Defined.




(** C3 as stated fails: a zip archive under another name is not
    recognised, and a gzip-tar archive named [.zip] is given to the zip
    extractor. *)
Lemma content_is_not_inspected :
  lookup (str "bundle.bin") misnamed = Some (File small_zip)
  /\ process_file 3 (str "bundle.bin") misnamed = Ok misnamed
  /\ lookup (str "data.zip") misnamed = Some (File small_tar)
  /\ process_file 3 (str "data.zip") misnamed = Raise BadZipFile.
Proof. repeat split; vm_compute; reflexivity. Qed.

Lemma container_kind_by_name_witness :
  process_file 3 (str "bundle.bin") misnamed = Ok misnamed.
Proof.
  apply (proj2 (proj2 (container_kind_by_name 2 (str "bundle.bin") misnamed)));
    reflexivity.
Defined.

(** C4: the extraction directory of [my.zipped.zip] is [myped], not
    [my.zipped]: every occurrence of the suffix is removed. *)
Theorem extract_dir_loses_inner_suffix :
  endswith (str "my.zipped.zip") (str ".zip") = true
  /\ replace (str "my.zipped.zip") (str ".zip") [] = str "myped"
  /\ (exists w, process_file 3 (str "my.zipped.zip") zipped_twice = Ok w
                /\ lookup (str "myped") w = Some Directory
                /\ lookup (str "myped/a.json") w = Some (File (Text empty_object))
                /\ lookup (str "my.zipped") w = None).
Proof.
  split; [reflexivity|]. split; [reflexivity|].
  eexists. split; [vm_compute; reflexivity|].
  repeat split; vm_compute; reflexivity.
Qed.


End OnExamples.

(** * Further properties *)

(** ** More on boundary detection *)

Lemma lazy_body_spec s m :
  lazy_body s = Some m ->
  exists rest, s = m ++ rest /\ lookahead rest = true
               /\ no_inner_boundary m = true /\ exists m', m = m' ++ [RBRACE].
Proof.
  revert m. induction s as [|c s IH]; intros m; cbn [lazy_body]; [discriminate|].
  destruct (ch_eqb c RBRACE && lookahead s) eqn:E.
  - intros Hm; inversion Hm; subst m. apply andb_true_iff in E as [Ec El].
    apply ch_eqb_eq in Ec. subst c.
    exists s. split; [reflexivity|]. split; [exact El|].
    split; [reflexivity | exists []; reflexivity].
  - destruct (lazy_body s) as [m0|]; [|discriminate].
    intros Hm; inversion Hm; subst m.
    destruct (IH m0 eq_refl) as (rest & Hs & Hl & Hn & m' & Hm').
    exists rest. split; [cbn [app]; congruence|]. split; [exact Hl|].
    split; [|exists (c :: m'); cbn [app]; congruence].
    cbn [no_inner_boundary]. rewrite Hn, andb_true_r.
    destruct (ch_eqb c RBRACE) eqn:Ec; [|reflexivity]. cbn [andb] in E |- *.
    rewrite Hs in E. rewrite lookahead_inside in E.
    + rewrite E. reflexivity.
    + rewrite Hm'. apply skip_space_last. reflexivity.
Qed.

Lemma occur_in_order_later ms p s : occur_in_order ms s -> occur_in_order ms (p ++ s).
Proof.
  destruct ms as [|m ms]; [trivial|]. cbn [occur_in_order].
  intros (g & r & -> & Ho). exists (p ++ g), r. rewrite <- app_assoc. auto.
Qed.

Lemma skipn_length_app {X : Type} (m r : list X) : skipn (List.length m) (m ++ r) = r.
Proof. induction m as [|x m IH]; [reflexivity | exact IH]. Qed.

Lemma findall_from_order k s : occur_in_order (findall_from k s) (skipn k s).
Proof.
  revert k. induction s as [|c s IH]; intros k.
  - destruct k; exact I.
  - destruct k as [|k]; [|apply IH]. cbn [findall_from skipn].
    destruct (ch_eqb c LBRACE);
      [|apply (occur_in_order_later _ [c]), (IH 0)].
    destruct (lazy_body s) as [m|] eqn:Em;
      [|apply (occur_in_order_later _ [c]), (IH 0)].
    destruct (lazy_body_spec _ _ Em) as (rest & Hs & _).
    cbn [occur_in_order]. exists [], rest. split; [cbn [app]; congruence|].
    specialize (IH (List.length m)). rewrite Hs in IH at 2.
    rewrite skipn_length_app in IH. exact IH.
Qed.

Lemma findall_from_clean k s b :
  In b (findall_from k s) -> no_inner_boundary b = true.
Proof.
  revert k. induction s as [|c s IH]; intros k; cbn [findall_from]; [contradiction|].
  destruct k as [|k]; [|apply IH].
  destruct (ch_eqb c LBRACE) eqn:Ec; [|apply IH].
  destruct (lazy_body s) as [m|] eqn:Em; [|apply IH].
  intros [<-|Hb]; [|eapply IH, Hb].
  destruct (lazy_body_spec _ _ Em) as (rest & _ & _ & Hn & _).
  apply ch_eqb_eq in Ec. subst c. cbn [no_inner_boundary]. exact Hn.
Qed.

(** X1: the boundaries that the pattern finds are pieces of the content,
    in the order of the content and without overlap; each runs from an
    opening to a closing brace and holds no closing brace that is followed,
    after optional white space, by an opening brace; no more characters are
    recovered than the content has. *)
Theorem boundaries_in_order content :
  occur_in_order (findall content) content
  /\ Forall (fun b => at_lbrace b = true /\ ends_rbrace b = true
                      /\ no_inner_boundary b = true) (findall content)
  /\ List.length (concat (findall content)) <= List.length content.
Proof.
  split; [exact (findall_from_order 0 content)|]. split.
  - apply Forall_forall. intros b Hb.
    destruct (findall_braces _ _ Hb) as [H1 H2].
    split; [exact H1|]. split; [exact H2|]. exact (findall_from_clean _ _ _ Hb).
  - pose proof (findall_from_order 0 content) as Ho. cbn [skipn] in Ho.
    fold (findall content) in Ho. revert Ho.
    generalize (findall content) as ms. intros ms. revert content.
    induction ms as [|m ms IH]; intros content; cbn [occur_in_order concat].
    + intros _. cbn. lia.
    + intros (g & r & -> & Ho). specialize (IH r Ho).
      rewrite !length_app. lia.
Qed.

(** *** When something is found *)

Lemma lazy_body_some q r :
  lookahead r = true -> lazy_body (q ++ RBRACE :: r) <> None.
Proof.
  intros Hl. induction q as [|c q IH]; cbn [app lazy_body].
  - change (ch_eqb RBRACE RBRACE) with true. rewrite Hl. discriminate.
  - destruct (ch_eqb c RBRACE && lookahead (q ++ RBRACE :: r)); [discriminate|].
    destruct (lazy_body (q ++ RBRACE :: r)); [discriminate | congruence].
Qed.

Lemma skip_space_split s :
  exists w, s = w ++ skip_space s /\ forallb is_space w = true.
Proof.
  induction s as [|c s (w & Hs & Hw)]; [exists []; split; reflexivity|].
  cbn [skip_space]. destruct (is_space c) eqn:E.
  - exists (c :: w). cbn [app forallb]. rewrite E, Hw. split; [congruence | reflexivity].
  - exists []. split; reflexivity.
Qed.

Lemma skip_space_lbrace t : at_lbrace t = true -> skip_space t = t.
Proof.
  destruct t as [|c t]; [discriminate|]. intros Hc. cbn [skip_space].
  rewrite (at_lbrace_not_space _ _ Hc). reflexivity.
Qed.

(** The lookahead holds at a text that is white space followed by the end
    or by an opening brace. *)
Lemma lookahead_iff r :
  lookahead r = true <->
  exists w t, r = w ++ t /\ forallb is_space w = true
              /\ (t = [] \/ at_lbrace t = true).
Proof.
  rewrite lookahead_spec. split.
  - intros Hl. destruct (skip_space_split r) as (w & Hr & Hw).
    exists w, (skip_space r). split; [exact Hr|]. split; [exact Hw|].
    destruct (skip_space r) as [|c t]; [left; reflexivity | right; exact Hl].
  - intros (w & t & -> & Hw & Ht). rewrite (skip_space_all _ _ Hw).
    destruct Ht as [->|Ht]; [reflexivity|].
    rewrite (skip_space_lbrace _ Ht). destruct t; [discriminate | exact Ht].
Qed.

(** X2: the pattern finds something exactly when some closing brace stands
    behind an opening brace and is followed by white space (possibly none)
    and then by an opening brace or by the end of the text. *)
Theorem findall_nonempty_iff content :
  findall content <> [] <->
  exists p q w t,
    content = p ++ LBRACE :: q ++ RBRACE :: w ++ t
    /\ forallb is_space w = true /\ (t = [] \/ at_lbrace t = true).
Proof.
  split.
  - intros Hne.
    assert (G : exists p q r, content = p ++ LBRACE :: q ++ RBRACE :: r
                              /\ lookahead r = true).
    { revert Hne. unfold findall.
      induction content as [|c s IH]; cbn [findall_from]; [congruence|].
      destruct (ch_eqb c LBRACE) eqn:Ec.
      + destruct (lazy_body s) as [m|] eqn:Em.
        * intros _. destruct (lazy_body_spec _ _ Em) as (rest & Hs & Hl & _ & m' & Hm).
          apply ch_eqb_eq in Ec. subst c.
          exists [], m', rest. split; [|exact Hl].
          cbn [app]. rewrite Hs, Hm, <- app_assoc. reflexivity.
        * intros Hne. destruct (IH Hne) as (p & q & r & -> & Hl).
          exists (c :: p), q, r. auto.
      + intros Hne. destruct (IH Hne) as (p & q & r & -> & Hl).
        exists (c :: p), q, r. auto. }
    destruct G as (p & q & r & -> & Hl).
    apply lookahead_iff in Hl as (w & t & -> & Hw & Ht).
    exists p, q, w, t. auto.
  - intros (p & q & w & t & -> & Hw & Ht).
    assert (Hl : lookahead (w ++ t) = true)
      by (apply lookahead_iff; exists w, t; auto).
    unfold findall. induction p as [|c p IH]; cbn [app findall_from].
    + change (ch_eqb LBRACE LBRACE) with true. cbv iota.
      pose proof (lazy_body_some q (w ++ t) Hl) as Hs.
      destruct (lazy_body (q ++ RBRACE :: w ++ t)); [discriminate | congruence].
    + destruct (ch_eqb c LBRACE); [|exact IH].
      destruct (lazy_body (p ++ LBRACE :: q ++ RBRACE :: w ++ t));
        [discriminate | exact IH].
Qed.

(** ** Streams of objects *)




Section Streams.
Context {world : Type} `{OS world}.

End Streams.

(** ** The sort is stable *)

Lemma StronglySorted_insert {X : Type} (R : X -> X -> Prop) l1 x l2 :
  StronglySorted R (l1 ++ l2) -> Forall (fun y => R y x) l1 -> Forall (R x) l2 ->
  StronglySorted R (l1 ++ x :: l2).
Proof.
  induction l1 as [|y l1 IH]; cbn [app]; intros Hs H1 H2.
  - constructor; assumption.
  - inversion Hs as [|? ? Hs' Hy]; subst. inversion H1 as [|? ? Hyx H1']; subst.
    constructor; [apply IH; assumption|].
    apply Forall_app in Hy as [Hy1 Hy2].
    apply Forall_app. split; [exact Hy1 | constructor; assumption].
Qed.

Lemma StronglySorted_app_inv_r {X : Type} (R : X -> X -> Prop) l1 l2 :
  StronglySorted R (l1 ++ l2) -> StronglySorted R l2.
Proof.
  induction l1 as [|y l1 IH]; cbn [app]; [auto|].
  intros Hs. inversion Hs; subst. auto.
Qed.

Lemma StronglySorted_rev {X : Type} (R : X -> X -> Prop) l :
  StronglySorted R l -> StronglySorted (fun a b => R b a) (rev l).
Proof.
  induction 1 as [|x l Hs IH Hx]; cbn [rev]; [constructor|].
  rewrite <- (app_nil_r (rev l)) in IH.
  apply (StronglySorted_insert (fun a b => R b a) (rev l) x []).
  - exact IH.
  - apply Forall_rev, Hx.
  - constructor.
Qed.

Lemma StronglySorted_map {X Y : Type} (f : X -> Y) (R : Y -> Y -> Prop) l :
  StronglySorted (fun a b => R (f a) (f b)) l -> StronglySorted R (map f l).
Proof.
  induction 1 as [|x l Hs IH Hx]; cbn [map]; constructor; [exact IH|].
  apply Forall_map, Hx.
Qed.

Lemma StronglySorted_impl_in {X : Type} (R R' : X -> X -> Prop) l :
  (forall a b, In a l -> In b l -> R a b -> R' a b) ->
  StronglySorted R l -> StronglySorted R' l.
Proof.
  intros Hi. induction 1 as [|x l Hs IH Hx]; constructor.
  - apply IH. intros a b Ha Hb. apply Hi; right; assumption.
  - rewrite Forall_forall in *. intros y Hy.
    apply Hi; [left; reflexivity | right; exact Hy | apply Hx, Hy].
Qed.

Lemma filter_rev {X : Type} (p : X -> bool) l : filter p (rev l) = rev (filter p l).
Proof.
  induction l as [|x l IH]; [reflexivity|]. cbn [rev filter].
  rewrite filter_app, IH. cbn [filter]. destruct (p x); [reflexivity|].
  apply app_nil_r.
Qed.

Lemma filter_map_comm {X Y : Type} (f : X -> Y) (p : Y -> bool) l :
  filter p (map f l) = map f (filter (fun x => p (f x)) l).
Proof.
  induction l as [|x l IH]; [reflexivity|]. cbn [map filter].
  destruct (p (f x)); cbn [map]; congruence.
Qed.

Section StableSort.
Context {A K : Type}.
Variable lt : K -> K -> result bool.
Variable good : K -> Prop.
Variable leb : K -> K -> bool.
Hypothesis leb_total : forall a b, leb a b = true \/ leb b a = true.
Hypothesis leb_trans : forall a b c, leb a b = true -> leb b c = true -> leb a c = true.
Hypothesis lt_leb : forall a b, good a -> good b -> lt a b = Ok (negb (leb b a)).

(** A class of keys that the order does not tell apart. *)
Variable tie : K -> bool.
Hypothesis tie_leb : forall a b, tie a = true -> tie b = true -> leb a b = true.

Abbreviation up := (fun a b : K * A => leb (fst a) (fst b) = true).
Abbreviation tied := (fun a : K * A => tie (fst a)).

Lemma insert_sorted_split (x : K * A) l :
  good (fst x) -> Forall (fun y => good (fst y)) l ->
  exists l1 l2,
    l = l1 ++ l2 /\ insert_sorted lt x l = Ok (l1 ++ x :: l2)
    /\ Forall (fun y => up y x) l1
    /\ match l2 with [] => True | y :: _ => leb (fst y) (fst x) = false end.
Proof.
  intros Hx. induction 1 as [|y l Hy Hl (l1 & l2 & El & Er & H1 & H2)].
  - exists [], []. repeat split; constructor.
  - cbn [insert_sorted]. unfold bind. rewrite (lt_leb _ _ Hx Hy).
    destruct (leb (fst y) (fst x)) eqn:E; cbn [negb].
    + exists (y :: l1), l2. rewrite Er. cbn [app].
      split; [congruence|]. split; [reflexivity|]. split; [|exact H2].
      constructor; assumption.
    + exists [], (y :: l). repeat split; [constructor | exact E].
Qed.

Lemma insert_sorted_stable (x : K * A) l :
  good (fst x) -> Forall (fun y => good (fst y)) l -> StronglySorted up l ->
  exists r, insert_sorted lt x l = Ok r /\ StronglySorted up r
            /\ filter tied r = filter tied l ++ filter tied [x].
Proof.
  intros Hx Hl Hs.
  destruct (insert_sorted_split x l Hx Hl) as (l1 & l2 & -> & Er & H1 & H2).
  exists (l1 ++ x :: l2). split; [exact Er|].
  assert (Hgt : Forall (fun z => leb (fst z) (fst x) = false) l2).
  { destruct l2 as [|y l2]; [constructor|].
    apply StronglySorted_app_inv_r in Hs. inversion Hs as [|? ? _ Hy]; subst.
    constructor; [exact H2|].
    eapply Forall_impl; [|exact Hy]. cbv beta. intros z Hyz.
    destruct (leb (fst z) (fst x)) eqn:E; [|reflexivity].
    rewrite (leb_trans _ _ _ Hyz E) in H2. discriminate. }
  split.
  - apply StronglySorted_insert; [exact Hs | exact H1|].
    eapply Forall_impl; [|exact Hgt]. cbv beta. intros z Hz.
    destruct (leb_total (fst x) (fst z)) as [E|E]; [exact E | congruence].
  - rewrite !filter_app. cbn [filter]. destruct (tie (fst x)) eqn:Et.
    + assert (E2 : filter tied l2 = []).
      { clear -Hgt Et tie_leb. induction Hgt as [|z l2 Hz _ IH]; [reflexivity|].
        cbn [filter]. destruct (tie (fst z)) eqn:Ez; [|exact IH].
        rewrite (tie_leb _ _ Ez Et) in Hz. discriminate. }
      rewrite E2, !app_nil_r. reflexivity.
    + rewrite !app_nil_r. reflexivity.
Qed.

Lemma insertion_sort_stable (todo : list (K * A)) :
  forall done,
  Forall (fun y => good (fst y)) done -> Forall (fun y => good (fst y)) todo ->
  StronglySorted up done ->
  exists r, insertion_sort lt done todo = Ok r /\ StronglySorted up r
            /\ Permutation (done ++ todo) r
            /\ filter tied r = filter tied done ++ filter tied todo.
Proof.
  induction todo as [|x todo IH]; intros done Hd Ht Hs; cbn [insertion_sort].
  - exists done. rewrite !app_nil_r. repeat split; auto.
  - inversion Ht as [|? ? Hx Ht']; subst.
    destruct (insert_sorted_stable x done Hx Hd Hs) as (d & Ed & Hsd & Hf).
    unfold bind. rewrite Ed.
    assert (P : Permutation (x :: done) d).
    { destruct (insert_sorted_split x done Hx Hd) as (l1 & l2 & -> & Er & _).
      rewrite Er in Ed. inversion Ed; subst. apply Permutation_middle. }
    destruct (IH d) as (r & Er & Hsr & Pr & Hfr); [|exact Ht'|exact Hsd|].
    { eapply Permutation_Forall; [exact P|]. constructor; assumption. }
    exists r. split; [exact Er|]. split; [exact Hsr|]. split.
    + eapply Permutation_trans; [|exact Pr].
      eapply Permutation_trans; [apply Permutation_sym, Permutation_middle|].
      exact (Permutation_app_tail todo P).
    + rewrite Hfr, Hf. cbn [filter]. rewrite <- app_assoc.
      destruct (tie (fst x)); reflexivity.
Qed.

Variable key : A -> result K.
Variable kf : A -> K.

Lemma compute_keys_total l :
  Forall (fun x => key x = Ok (kf x)) l ->
  compute_keys key l = Ok (map (fun x => (kf x, x)) l).
Proof.
  induction 1 as [|x l Hx _ IH]; [reflexivity|].
  cbn [compute_keys map]. unfold bind. rewrite Hx, IH. reflexivity.
Qed.

(** [list.sort(key=..., reverse=True)] on keys that the order compares:
    the result is a permutation, descending, and elements with tied keys
    keep their order. *)
Lemma sort_reverse_stable l :
  Forall (fun x => key x = Ok (kf x) /\ good (kf x)) l ->
  exists s, sort_reverse lt key l = Ok s
            /\ Permutation l s
            /\ StronglySorted (fun a b => leb (kf b) (kf a) = true) s
            /\ filter (fun x => tie (kf x)) s = filter (fun x => tie (kf x)) l.
Proof.
  intros HF. unfold sort_reverse, bind.
  rewrite (compute_keys_total l) by (eapply Forall_impl; [|exact HF]; intros x Hx; apply Hx).
  set (ks := map (fun x => (kf x, x)) l).
  assert (Hg : Forall (fun y : K * A => good (fst y)) (rev ks)).
  { apply Forall_rev. unfold ks. apply Forall_map.
    eapply Forall_impl; [|exact HF]. intros x Hx. apply Hx. }
  destruct (insertion_sort_stable (rev ks) [] (Forall_nil _) Hg (SSorted_nil _))
    as (r & Er & Hs & P & Hf).
  rewrite Er. cbn [app filter] in P, Hf.
  assert (P' : Permutation ks (rev r)).
  { eapply Permutation_trans; [apply Permutation_rev|].
    eapply Permutation_trans; [exact P | apply Permutation_rev]. }
  assert (Em : map snd ks = l).
  { unfold ks. rewrite map_map. cbn [snd]. apply map_id. }
  exists (map snd (rev r)). split; [reflexivity|]. split; [|split].
  - rewrite <- Em at 1. apply Permutation_map, P'.
  - apply StronglySorted_map. apply StronglySorted_rev in Hs.
    assert (F : Forall (fun p => fst p = kf (snd p)) (rev r)).
    { eapply Permutation_Forall; [exact P'|].
      apply Forall_map, Forall_forall. reflexivity. }
    rewrite Forall_forall in F.
    eapply StronglySorted_impl_in; [|exact Hs]. cbv beta.
    intros a b Ha Hb Hab. rewrite <- (F a Ha), <- (F b Hb). exact Hab.
  - rewrite (filter_map_comm snd (fun x => tie (kf x))).
    rewrite <- Em. rewrite (filter_map_comm snd (fun x => tie (kf x))). f_equal.
    transitivity (filter tied (rev r)).
    + apply filter_ext_in. intros p Hp.
      assert (F : Forall (fun p => fst p = kf (snd p)) (rev r)).
      { eapply Permutation_Forall; [exact P'|].
        apply Forall_map, Forall_forall. reflexivity. }
      rewrite Forall_forall in F. rewrite (F p Hp). reflexivity.
    + rewrite filter_rev, Hf, filter_rev, rev_involutive.
      apply filter_ext_in. intros p Hp. unfold ks in Hp.
      apply in_map_iff in Hp as (x & <- & _). reflexivity.
Qed.
End StableSort.

(** ** The listings in terms of instants *)

Lemma dt_lt_instant a b :
  dt_valid a = true -> dt_valid b = true -> aware a = aware b ->
  dt_lt a b = Ok (negb (dt_instant b <=? dt_instant a)%Z).
Proof.
  intros Va Vb Hw. unfold dt_lt, bind. rewrite (dt_cmp_instant a b Va Vb Hw).
  f_equal. rewrite Z.leb_antisym, negb_involutive.
  unfold Z.ltb. destruct (dt_instant a ?= dt_instant b)%Z; reflexivity.
Qed.

Section ByInstant.
Context {A : Type}.
Variable proj : A -> value.

(** Sorting by timestamp, newest first: when the timestamps are alike the
    sort returns a permutation whose instants do not increase, and entries
    of the same instant keep their order. *)
Lemma sort_by_instant l :
  timestamps_alike (map proj l) = true ->
  exists s,
    sort_reverse dt_lt (fun x => fromisoformat (proj x)) l = Ok s
    /\ Permutation l s
    /\ StronglySorted (fun a b => (instant_of (proj b) <= instant_of (proj a))%Z) s
    /\ forall i, filter (fun x => (instant_of (proj x) =? i)%Z) s
                 = filter (fun x => (instant_of (proj x) =? i)%Z) l.
Proof.
  intros Ha.
  set (kf := fun x => match fromisoformat (proj x) with
                      | Ok d => d
                      | Raise _ => mk_datetime 1 1 1 0 0 0 0 None
                      end).
  assert (Hc : exists c, Forall (fun x => fromisoformat (proj x) = Ok (kf x)
                                          /\ (dt_valid (kf x) = true /\ aware (kf x) = c)) l).
  { unfold timestamps_alike in Ha. apply orb_true_iff in Ha as [Ha|Ha];
      [exists false | exists true]; rewrite forallb_forall in Ha;
      apply Forall_forall; intros x Hx;
      specialize (Ha (proj x) (in_map proj _ _ Hx));
      unfold ts_naive, ts_aware in Ha; unfold kf;
      destruct (fromisoformat (proj x)) as [d|] eqn:E; try discriminate;
      (split; [reflexivity|]); (split; [apply (fromisoformat_valid _ _ E)|]).
    - apply negb_true_iff, Ha.
    - exact Ha. }
  destruct Hc as (c & Hc).
  assert (Ei : forall x, In x l -> instant_of (proj x) = dt_instant (kf x)).
  { rewrite Forall_forall in Hc. intros x Hx. destruct (Hc x Hx) as [E _].
    unfold instant_of. rewrite E. reflexivity. }
  assert (G : forall tie : datetime -> bool,
            (forall a b, tie a = true -> tie b = true ->
                         (dt_instant a <=? dt_instant b)%Z = true) ->
            exists s,
              sort_reverse dt_lt (fun x => fromisoformat (proj x)) l = Ok s
              /\ Permutation l s
              /\ StronglySorted
                   (fun a b => (dt_instant (kf b) <=? dt_instant (kf a))%Z = true) s
              /\ filter (fun x => tie (kf x)) s = filter (fun x => tie (kf x)) l).
  { intros tie Ht.
    apply (sort_reverse_stable dt_lt
             (fun d => dt_valid d = true /\ aware d = c)
             (fun a b => (dt_instant a <=? dt_instant b)%Z)); try assumption.
    - intros a b. rewrite !Z.leb_le. lia.
    - intros a b d. rewrite !Z.leb_le. lia.
    - intros a b [Va Wa] [Vb Wb]. apply dt_lt_instant; congruence. }
  destruct (G (fun _ => false)) as (s & Es & P & Hs & _); [discriminate|].
  exists s. split; [exact Es|]. split; [exact P|]. split.
  - eapply StronglySorted_impl_in; [|exact Hs]. cbv beta.
    intros a b Ia Ib Hab. apply Z.leb_le in Hab.
    rewrite (Ei a), (Ei b); [exact Hab | |];
      apply (Permutation_in _ (Permutation_sym P)); assumption.
  - intros i.
    destruct (G (fun d => (dt_instant d =? i)%Z)) as (s' & Es' & _ & _ & Hf).
    { intros a b Ea Eb. apply Z.eqb_eq in Ea, Eb. apply Z.leb_le. lia. }
    rewrite Es in Es'. inversion Es'; subst s'.
    transitivity (filter (fun x => (dt_instant (kf x) =? i)%Z) s).
    + apply filter_ext_in. intros x Hx. rewrite (Ei x); [reflexivity|].
      apply (Permutation_in _ (Permutation_sym P)), Hx.
    + rewrite Hf. apply filter_ext_in. intros x Hx. rewrite (Ei x Hx). reflexivity.
Qed.
End ByInstant.

Lemma StronglySorted_cross {X : Type} (R : X -> X -> Prop) n l x y :
  StronglySorted R l -> In x (firstn n l) -> In y (skipn n l) -> R x y.
Proof.
  intros Hs. revert n. induction Hs as [|z l Hs IH Hz]; intros n.
  - destruct n; intros [].
  - destruct n as [|n]; cbn [firstn skipn]; [intros []|].
    intros [<-|Hx] Hy; [|eapply IH; eassumption].
    rewrite Forall_forall in Hz. apply Hz.
    rewrite <- (firstn_skipn n l). apply in_or_app. right. exact Hy.
Qed.

Section MoreListings.
Context {world : Type} `{OS world}.

(** The version list: every recovered record, newest first, records of the
    same instant in the order of the file. *)
Lemma versions_listing directory w version_file rest content :
  glob_glob (path_join directory (str VERSIONS_PATTERN)) w = version_file :: rest ->
  open_read version_file w = Ok content ->
  timestamps_alike
    (map (fun d => snd (version_of d)) (decoded_dicts (findall content))) = true ->
  exists l,
    get_ndo_versions directory w = Ok l
    /\ Permutation (map version_of (decoded_dicts (findall content))) l
    /\ StronglySorted (fun a b => (instant_of (snd b) <= instant_of (snd a))%Z) l
    /\ forall i,
         filter (fun e => (instant_of (snd e) =? i)%Z) l
         = filter (fun e => (instant_of (snd e) =? i)%Z)
             (map version_of (decoded_dicts (findall content))).
Proof.
  intros Hg Hr Ha. unfold get_ndo_versions, bind.
  rewrite (collect_versions_read _ _ _ _ _ Hg Hr), Hg.
  rewrite <- map_map in Ha.
  destruct (sort_by_instant snd _ Ha) as (s & Es & P & Hs & Hf).
  rewrite Es. exists s. split; [destruct s; reflexivity|]. repeat split; assumption.
Qed.

(** The audit list: the first 20 of the kept records sorted newest first,
    records of the same instant in the order of the file. *)
Lemma audits_listing directory w audit_file rest content :
  glob_glob (path_join directory (str AUDIT_PATTERN)) w = audit_file :: rest ->
  open_read audit_file w = Ok content ->
  timestamps_alike
    (map (fun d => fst (audit_of d))
         (filter kept_audit (decoded_dicts (findall content)))) = true ->
  exists s,
    get_last_audits directory w = Ok (firstn 20 s)
    /\ Permutation (map audit_of (filter kept_audit (decoded_dicts (findall content)))) s
    /\ StronglySorted (fun a b => (instant_of (fst b) <= instant_of (fst a))%Z) s
    /\ forall i,
         filter (fun e => (instant_of (fst e) =? i)%Z) s
         = filter (fun e => (instant_of (fst e) =? i)%Z)
             (map audit_of (filter kept_audit (decoded_dicts (findall content)))).
Proof.
  intros Hg Hr Ha. unfold get_last_audits, bind.
  rewrite (collect_audits_read _ _ _ _ _ Hg Hr).
  rewrite <- map_map in Ha.
  destruct (sort_by_instant fst _ Ha) as (s & Es & P & Hs & Hf).
  rewrite Es. exists s. repeat split; assumption.
Qed.

(** X4: when a version file is read and the timestamps of its records are
    alike, [get_ndo_versions] returns every recovered record, none dropped
    or added, ordered so that no entry is older than an entry behind it. *)
Theorem versions_all_sorted directory w version_file rest content :
  glob_glob (path_join directory (str VERSIONS_PATTERN)) w = version_file :: rest ->
  open_read version_file w = Ok content ->
  timestamps_alike
    (map (fun d => snd (version_of d)) (decoded_dicts (findall content))) = true ->
  exists l,
    get_ndo_versions directory w = Ok l
    /\ Permutation (map version_of (decoded_dicts (findall content))) l
    /\ StronglySorted (fun a b => (instant_of (snd b) <= instant_of (snd a))%Z) l.
Proof.
  intros Hg Hr Ha.
  destruct (versions_listing _ _ _ _ _ Hg Hr Ha) as (l & E & P & Hs & _).
  exists l. repeat split; assumption.
Qed.

(** X5: when an audit file is read and the timestamps of the kept records
    are alike, [get_last_audits] returns the newest entries: as many as
    there are kept records but no more than 20, and no entry that is left
    out is newer than an entry that is returned. *)
Theorem last_audits_newest directory w audit_file rest content :
  glob_glob (path_join directory (str AUDIT_PATTERN)) w = audit_file :: rest ->
  open_read audit_file w = Ok content ->
  timestamps_alike
    (map (fun d => fst (audit_of d))
         (filter kept_audit (decoded_dicts (findall content)))) = true ->
  exists s,
    Permutation (map audit_of (filter kept_audit (decoded_dicts (findall content)))) s
    /\ get_last_audits directory w = Ok (firstn 20 s)
    /\ List.length (firstn 20 s)
       = Nat.min 20 (List.length (filter kept_audit (decoded_dicts (findall content))))
    /\ forall x y, In x (firstn 20 s) -> In y (skipn 20 s) ->
                   (instant_of (fst y) <= instant_of (fst x))%Z.
Proof.
  intros Hg Hr Ha.
  destruct (audits_listing _ _ _ _ _ Hg Hr Ha) as (s & E & P & Hs & _).
  exists s. split; [exact P|]. split; [exact E|]. split.
  - rewrite length_firstn, <- (Permutation_length P), length_map. reflexivity.
  - intros x y Hx Hy.
    apply (StronglySorted_cross _ 20 s x y Hs Hx Hy).
Qed.

(** X6: records with the same instant keep the order of the file, in the
    version list and in the sorted audits of which the first 20 are
    returned. *)
Theorem equal_timestamps_keep_order directory w :
  (forall version_file rest content,
     glob_glob (path_join directory (str VERSIONS_PATTERN)) w = version_file :: rest ->
     open_read version_file w = Ok content ->
     timestamps_alike
       (map (fun d => snd (version_of d)) (decoded_dicts (findall content))) = true ->
     exists l,
       get_ndo_versions directory w = Ok l
       /\ forall i,
            filter (fun e => (instant_of (snd e) =? i)%Z) l
            = filter (fun e => (instant_of (snd e) =? i)%Z)
                (map version_of (decoded_dicts (findall content))))
  /\ (forall audit_file rest content,
        glob_glob (path_join directory (str AUDIT_PATTERN)) w = audit_file :: rest ->
        open_read audit_file w = Ok content ->
        timestamps_alike
          (map (fun d => fst (audit_of d))
               (filter kept_audit (decoded_dicts (findall content)))) = true ->
        exists s,
          get_last_audits directory w = Ok (firstn 20 s)
          /\ forall i,
               filter (fun e => (instant_of (fst e) =? i)%Z) s
               = filter (fun e => (instant_of (fst e) =? i)%Z)
                   (map audit_of
                      (filter kept_audit (decoded_dicts (findall content))))).
Proof.
  split.
  - intros version_file rest content Hg Hr Ha.
    destruct (versions_listing _ _ _ _ _ Hg Hr Ha) as (l & E & _ & _ & Hf).
    exists l. split; assumption.
  - intros audit_file rest content Hg Hr Ha.
    destruct (audits_listing _ _ _ _ _ Hg Hr Ha) as (s & E & _ & _ & Hf).
    exists s. split; assumption.
Qed.

(** X7: without a version file [get_ndo_versions] raises
    [UnboundLocalError], whatever else the directory holds, and [main]
    ends with it before any site or audit is read; a version file without
    any record gives the empty list. *)
Theorem no_version_file_aborts directory w :
  (glob_glob (path_join directory (str VERSIONS_PATTERN)) w = [] ->
   get_ndo_versions directory w = Raise UnboundLocalError
   /\ forall sort_sites,
        main_report sort_sites directory w = Raise UnboundLocalError)
  /\ (forall version_file rest content,
        glob_glob (path_join directory (str VERSIONS_PATTERN)) w = version_file :: rest ->
        open_read version_file w = Ok content ->
        findall content = [] ->
        get_ndo_versions directory w = Ok []).
Proof.
  split.
  - intros Hg.
    assert (E : get_ndo_versions directory w = Raise UnboundLocalError).
    { unfold get_ndo_versions, collect_versions, bind. rewrite Hg. reflexivity. }
    split; [exact E|]. intros sort_sites. unfold main_report, bind. rewrite E. reflexivity.
  - intros version_file rest content Hg Hr Hf. unfold get_ndo_versions, bind.
    rewrite (collect_versions_read _ _ _ _ _ Hg Hr), Hg, Hf. reflexivity.
Qed.

(** X8: without an audit file, and with an audit file that cannot be found
    when it is opened or in which every record is backup-related,
    [get_last_audits] returns the empty list; any other error of reading
    the file is raised. *)
Theorem no_audits_is_empty directory w :
  (glob_glob (path_join directory (str AUDIT_PATTERN)) w = [] ->
   get_last_audits directory w = Ok [])
  /\ (forall audit_file rest,
        glob_glob (path_join directory (str AUDIT_PATTERN)) w = audit_file :: rest ->
        (open_read audit_file w = Raise FileNotFoundError ->
         get_last_audits directory w = Ok [])
        /\ (forall content,
              open_read audit_file w = Ok content ->
              forallb (fun d => is_backup_type (dict_get (str "type") d))
                (decoded_dicts (findall content)) = true ->
              get_last_audits directory w = Ok [])
        /\ (forall e,
              open_read audit_file w = Raise e -> e <> FileNotFoundError ->
              get_last_audits directory w = Raise e)).
Proof.
  split; [|intros audit_file rest Hg; split; [|split]].
  - intros Hg. unfold get_last_audits, collect_audits, bind. rewrite Hg. reflexivity.
  - intros Hr. unfold get_last_audits, collect_audits, bind. rewrite Hg, Hr. reflexivity.
  - intros content Hr Hb. unfold get_last_audits, bind.
    rewrite (collect_audits_read _ _ _ _ _ Hg Hr).
    assert (E : filter kept_audit (decoded_dicts (findall content)) = []).
    { induction (decoded_dicts (findall content)) as [|d ds IH]; [reflexivity|].
      cbn [forallb] in Hb. apply andb_true_iff in Hb as [Hd Hb].
      cbn [filter]. unfold kept_audit at 1. rewrite Hd. apply IH, Hb. }
    rewrite E. reflexivity.
  - intros e Hr Hne. unfold get_last_audits, collect_audits, bind. rewrite Hg, Hr.
    destruct e; try reflexivity. congruence.
Qed.
End MoreListings.

(** ** More on archive expansion *)

Lemma strip_prefix_self p r : strip_prefix p (p ++ r) = Some r.
Proof.
  induction p as [|x p IH]; [reflexivity|]. cbn [app strip_prefix].
  rewrite ch_eqb_refl. exact IH.
Qed.

Lemma startswith_app p r : startswith (p ++ r) p = true.
Proof. unfold startswith. rewrite strip_prefix_self. reflexivity. Qed.

Lemma startswith_shorter s t p :
  startswith (s ++ t) p = true -> List.length p <= List.length s ->
  startswith s p = true.
Proof.
  unfold startswith. revert s. induction p as [|x p IH]; intros s; [reflexivity|].
  destruct s as [|y s]; cbn [List.length]; [lia|]. cbn [app strip_prefix].
  destruct (ch_eqb x y); [|discriminate]. intros Hs Hl. apply IH; [exact Hs | lia].
Qed.

Lemma endswith_app q old : endswith (q ++ old) old = true.
Proof. unfold endswith. rewrite rev_app_distr. apply startswith_app. Qed.

Lemma replace_from_skip old new r : replace_from old new (List.length r) r = [].
Proof. induction r as [|c r IH]; [reflexivity | exact IH]. Qed.

Lemma length_removelast {X : Type} (l : list X) :
  l <> [] -> S (List.length (removelast l)) = List.length l.
Proof.
  induction l as [|x l IH]; [congruence|]. intros _.
  destruct l as [|y l]; [reflexivity|].
  change (removelast (x :: y :: l)) with (x :: removelast (y :: l)).
  cbn [List.length]. rewrite IH by discriminate. reflexivity.
Qed.

(** Replacing an ending that occurs nowhere before removes just it. *)
Lemma replace_only_suffix old new q :
  old <> [] -> occurs old (q ++ removelast old) = false ->
  replace (q ++ old) old new = q ++ new.
Proof.
  intros Hne. unfold replace. induction q as [|c q IH]; intros Ho.
  - destruct old as [|x r]; [congruence|]. cbn [app replace_from].
    pose proof (startswith_app (x :: r) []) as Hs. rewrite app_nil_r in Hs.
    rewrite Hs.
    replace (List.length (x :: r) - 1) with (List.length r)
      by (cbn [List.length]; lia).
    rewrite replace_from_skip, app_nil_r. reflexivity.
  - cbn [app occurs] in Ho. apply orb_false_iff in Ho as [Hs Ho].
    cbn [app replace_from].
    destruct (startswith (c :: q ++ old) old) eqn:E.
    + assert (Eo : c :: q ++ old = (c :: q ++ removelast old) ++ [last old c]).
      { cbn [app]. rewrite <- app_assoc, <- app_removelast_last by exact Hne.
        reflexivity. }
      rewrite Eo in E. apply startswith_shorter in E; [congruence|].
      cbn [List.length]. rewrite length_app.
      pose proof (length_removelast old Hne). lia.
    + rewrite (IH Ho). reflexivity.
Qed.

(** Replacing what does not occur changes nothing. *)
Lemma replace_absent old new s : occurs old s = false -> replace s old new = s.
Proof.
  unfold replace. induction s as [|c s IH]; [reflexivity|]. cbn [occurs].
  intros Ho. apply orb_false_iff in Ho as [Hs Ho].
  cbn [replace_from]. rewrite Hs, (IH Ho). reflexivity.
Qed.

Lemma endswith_last_differs s x old y :
  ch_eqb y x = false -> endswith (s ++ [x]) (old ++ [y]) = false.
Proof.
  intros Hxy. unfold endswith, startswith. rewrite !rev_app_distr.
  cbn [rev app strip_prefix]. rewrite Hxy. reflexivity.
Qed.

Section MoreExpansion.
Context {world : Type} `{OS world}.

(** X9: for a path in which the archive suffix occurs only as its ending,
    the extraction directory is the path without the suffix: the archive
    is extracted into it, and the expansion goes on there. *)
Theorem extract_dir_is_stem n stem w :
  (occurs (str ".zip") (stem ++ str ".zi") = false ->
   replace (stem ++ str ".zip") (str ".zip") [] = stem
   /\ process_file (S n) (stem ++ str ".zip") w
      = (w1 <- os_makedirs stem w ;;
         w2 <- zip_extractall (stem ++ str ".zip") stem w1 ;;
         handle_extracted_directory n stem w2))
  /\ (occurs (str ".tar.gz") (stem ++ str ".tar.g") = false ->
      replace (stem ++ str ".tar.gz") (str ".tar.gz") [] = stem
      /\ process_file (S n) (stem ++ str ".tar.gz") w
         = (w1 <- os_makedirs stem w ;;
            w2 <- tar_extractall (stem ++ str ".tar.gz") stem w1 ;;
            handle_extracted_directory n stem w2)).
Proof.
  split; intros Ho.
  - assert (E : replace (stem ++ str ".zip") (str ".zip") [] = stem).
    { rewrite (replace_only_suffix (str ".zip") [] stem); [apply app_nil_r|discriminate|].
      exact Ho. }
    split; [exact E|].
    rewrite process_file_step, endswith_app. cbv zeta. rewrite E. reflexivity.
  - assert (E : replace (stem ++ str ".tar.gz") (str ".tar.gz") [] = stem).
    { rewrite (replace_only_suffix (str ".tar.gz") [] stem);
        [apply app_nil_r|discriminate|]. exact Ho. }
    split; [exact E|].
    assert (Ez : endswith (stem ++ str ".tar.gz") (str ".zip") = false).
    { change (stem ++ str ".tar.gz") with (stem ++ (str ".tar.g" ++ [chr "z"])).
      rewrite app_assoc.
      apply (endswith_last_differs _ _ (str ".zi") (chr "p")). reflexivity. }
    rewrite process_file_step, Ez, endswith_app. cbv zeta. rewrite E. reflexivity.
Qed.

(** X10: a directory that lists no file with an archive name is left as it
    is: subdirectories are not entered, and files of other names are not
    opened. *)
Theorem plain_directory_untouched n directory names w :
  os_listdir directory w = Ok names ->
  forallb (fun file_name =>
             negb (os_isfile (path_join directory file_name) w)
             || plain_name (path_join directory file_name)) names = true ->
  handle_extracted_directory (S n) directory w = Ok w.
Proof.
  intros Hl Hp. unfold handle_extracted_directory, bind. rewrite Hl. clear Hl.
  induction names as [|name names IH]; [reflexivity|].
  cbn [forallb] in Hp. apply andb_true_iff in Hp as [Hn Hp].
  cbn [for_each_file]. unfold bind.
  destruct (os_isfile (path_join directory name) w); cbn [negb orb] in Hn.
  - unfold plain_name in Hn. apply andb_true_iff in Hn as [Hz Ht].
    apply negb_true_iff in Hz, Ht.
    rewrite process_file_step, Hz, Ht. apply IH, Hp.
  - apply IH, Hp.
Qed.

(** X11: an archive that is listed in its own extraction directory, as a
    file named [.zip] is, is expanded again and again when re-extracting
    it changes nothing: whatever the depth allowed, the expansion ends in
    [RecursionError]. *)
Theorem self_listed_archive_recurs n file_path before file_name after w :
  endswith file_path (str ".zip") = true ->
  os_makedirs (replace file_path (str ".zip") []) w = Ok w ->
  zip_extractall file_path (replace file_path (str ".zip") []) w = Ok w ->
  os_listdir (replace file_path (str ".zip") []) w
    = Ok (before ++ file_name :: after) ->
  forallb (fun name =>
             negb (os_isfile (path_join (replace file_path (str ".zip") []) name) w)
             || plain_name (path_join (replace file_path (str ".zip") []) name))
    before = true ->
  path_join (replace file_path (str ".zip") []) file_name = file_path ->
  os_isfile file_path w = true ->
  process_file n file_path w = Raise RecursionError.
Proof.
  intros He Hm Hx Hl Hb Hj Hf.
  induction n as [|n IH]; [reflexivity|].
  rewrite process_file_step, He. cbv zeta. unfold extract_zip, bind.
  rewrite Hm, Hx. unfold handle_extracted_directory, bind. rewrite Hl.
  rewrite for_each_file_app. unfold bind.
  assert (E : for_each_file (process_file n)
                (replace file_path (str ".zip") []) before w = Ok w
              \/ for_each_file (process_file n)
                   (replace file_path (str ".zip") []) before w = Raise RecursionError).
  { clear Hl. induction before as [|name before IHb]; [left; reflexivity|].
    cbn [forallb] in Hb. apply andb_true_iff in Hb as [Hn Hb].
    cbn [for_each_file]. unfold bind.
    destruct (os_isfile (path_join (replace file_path (str ".zip") []) name) w);
      cbn [negb orb] in Hn; [|apply IHb, Hb].
    unfold plain_name in Hn. apply andb_true_iff in Hn as [Hz Ht].
    apply negb_true_iff in Hz, Ht.
    destruct n as [|n']; [right; reflexivity|].
    rewrite process_file_step, Hz, Ht. apply IHb, Hb. }
  destruct E as [-> | ->]; [|reflexivity].
  cbn [for_each_file]. unfold bind. rewrite Hj, Hf, IH. reflexivity.
Qed.

(** X20: for an argument in which [.zip] does not occur, [main] takes the
    path of the archive itself as the directory to extract into and to
    read the record files from. *)
Theorem main_extracts_onto_own_path sort_sites n initial_zip w :
  occurs (str ".zip") initial_zip = false ->
  main sort_sites n initial_zip w
  = (w1 <- zip_extractall initial_zip initial_zip w ;;
     w2 <- handle_extracted_directory n initial_zip w1 ;;
     main_report sort_sites initial_zip w2).
Proof.
  intros Ho. unfold main. cbv zeta. rewrite (replace_absent _ _ _ Ho). reflexivity.
Qed.
End MoreExpansion.

(** ** More on site records *)

Lemma get_nested_raise outer inner placeholder d :
  dict_or_absent outer d = false ->
  get_nested outer inner placeholder d = Raise AttributeError.
Proof.
  unfold dict_or_absent, get_nested, get_default.
  destruct (dict_get (str outer) d) as [[]|]; try discriminate; reflexivity.
Qed.

Lemma extract_site_data_cases data :
  (projectable data = true /\ exists r, extract_site_data data = [r] /\ map fst r = SITE_KEYS)
  \/ (projectable data = false /\ extract_site_data data = []).
Proof.
  destruct data as [| | | | |l|d]; try (right; split; reflexivity).
  cbn [projectable].
  destruct (dict_or_absent "common" d) eqn:Ec; cbn [andb].
  - destruct (dict_or_absent "_id" d) eqn:Ei.
    + left. split; [reflexivity|]. unfold extract_site_data, bind.
      rewrite !(get_nested_field "common" _ _ d Ec), (get_nested_field "_id" _ _ d Ei).
      eexists. split; reflexivity.
    + right. split; [reflexivity|]. unfold extract_site_data, bind.
      rewrite !(get_nested_field "common" _ _ d Ec), (get_nested_raise "_id" _ _ d Ei).
      reflexivity.
  - right. split; [reflexivity|]. unfold extract_site_data, bind.
    rewrite (get_nested_raise "common" _ _ d Ec). reflexivity.
Qed.

(** X12: [extract_site_data] yields at most one record.  It yields none
    exactly for a value that is not a [dict] or whose [common] or [_id]
    entry is present without being a [dict]; a record that it yields has
    the four keys [Site ID], [Name], [Site Version], [Site OID], in this
    order. *)
Theorem site_record_or_none data :
  List.length (extract_site_data data) <= 1
  /\ (extract_site_data data = [] <-> projectable data = false)
  /\ (forall r, In r (extract_site_data data) -> map fst r = SITE_KEYS).
Proof.
  destruct (extract_site_data_cases data) as [(Hp & r & -> & Hk)|(Hp & ->)].
  - split; [apply le_n|]. split.
    + split; [discriminate | congruence].
    + intros r' [<-|[]]. exact Hk.
  - split; [apply Nat.le_0_l|]. split; [tauto | intros r []].
Qed.

Section MoreSites.
Context {world : Type} `{OS world}.


End MoreSites.

(** ** The table of sites *)

Section Table.
Variable repr_other : value -> pystr.

Lemma widen_headers entry w1 w2 w3 w4 :
  widen repr_other entry headers (four w1 w2 w3 w4)
  = Some (four (Nat.max w1 (List.length (cell repr_other entry (str "Site ID"))))
               (Nat.max w2 (List.length (cell repr_other entry (str "Name"))))
               (Nat.max w3 (List.length (cell repr_other entry (str "Site Version"))))
               (Nat.max w4 (List.length (cell repr_other entry (str "Site OID"))))).
Proof. reflexivity. Qed.

Lemma widen_all_spec site_data :
  forall w1 w2 w3 w4,
  widen_all repr_other site_data (four w1 w2 w3 w4)
  = Some (four
            (widened repr_other site_data (str "Site ID") w1)
            (widened repr_other site_data (str "Name") w2)
            (widened repr_other site_data (str "Site Version") w3)
            (widened repr_other site_data (str "Site OID") w4)).
Proof.
  induction site_data as [|entry rest IH]; intros w1 w2 w3 w4; [reflexivity|].
  cbn [widen_all]. rewrite widen_headers. rewrite IH. reflexivity.
Qed.

Lemma pieces_headers piece w1 w2 w3 w4 :
  pieces piece headers (four w1 w2 w3 w4)
  = Some [piece (str "Site ID") w1; piece (str "Name") w2;
          piece (str "Site Version") w3; piece (str "Site OID") w4].
Proof. reflexivity. Qed.

Lemma rows_spec max_widths site_data w1 w2 w3 w4 :
  max_widths = four w1 w2 w3 w4 ->
  rows repr_other site_data max_widths
  = Some (map (fun entry =>
                 join [SPACE]
                   [ljust (cell repr_other entry (str "Site ID")) w1;
                    ljust (cell repr_other entry (str "Name")) w2;
                    ljust (cell repr_other entry (str "Site Version")) w3;
                    ljust (cell repr_other entry (str "Site OID")) w4]) site_data).
Proof.
  intros ->. induction site_data as [|entry rest IH]; [reflexivity|].
  cbn [rows map]. rewrite pieces_headers, IH. reflexivity.
Qed.

(** What is printed: the headers, the dashes and one row per entry, each
    piece made with the width of its column. *)
Lemma display_site_list_spec site_data :
  display_site_list repr_other site_data
  = Some (table_row repr_other site_data (fun header w => ljust header w)
          :: table_row repr_other site_data (fun _ w => repeat DASH w)
          :: map (fun entry =>
                    table_row repr_other site_data
                      (fun header w => ljust (cell repr_other entry header) w))
               site_data).
Proof.
  unfold display_site_list.
  change (fold_left (fun d header => width_set header (List.length header) d) headers [])
    with (four (List.length (str "Site ID")) (List.length (str "Name"))
               (List.length (str "Site Version")) (List.length (str "Site OID"))).
  rewrite widen_all_spec, !pieces_headers.
  erewrite rows_spec by reflexivity. reflexivity.
Qed.

Lemma fold_max_ge (f : dict -> nat) l w :
  w <= fold_left (fun w e => Nat.max w (f e)) l w
  /\ forall e, In e l -> f e <= fold_left (fun w e => Nat.max w (f e)) l w.
Proof.
  revert w. induction l as [|x l IH]; intros w; cbn [fold_left].
  - split; [apply le_n | intros e []].
  - destruct (IH (Nat.max w (f x))) as [H1 H2]. split; [lia|].
    intros e [<-|He]; [lia | apply H2, He].
Qed.

Lemma fold_max_attained (f : dict -> nat) l w :
  fold_left (fun w e => Nat.max w (f e)) l w = w
  \/ exists e, In e l /\ fold_left (fun w e => Nat.max w (f e)) l w = f e.
Proof.
  revert w. induction l as [|x l IH]; intros w; cbn [fold_left]; [left; reflexivity|].
  destruct (IH (Nat.max w (f x))) as [E|(e & He & E)].
  - rewrite E. destruct (Nat.max_spec w (f x)) as [[_ ->]|[_ ->]].
    + right. exists x. split; [left; reflexivity|]. reflexivity.
    + left. reflexivity.
  - right. exists e. split; [right; exact He | exact E].
Qed.




Lemma column_width_ge site_data header :
  List.length header <= column_width repr_other site_data header
  /\ forall entry, In entry site_data ->
       List.length (cell repr_other entry header)
       <= column_width repr_other site_data header.
Proof. apply (fold_max_ge (fun e => List.length (cell repr_other e header))). Qed.


(** X15: a column is as wide as the longest among its header and its
    cells, and no wider; the line of a record holds, column by column, the
    text of each field as [str] gives it, whole, followed by spaces up to
    the width of the column, with one space between the columns. *)
Theorem columns_fit site_data :
  (forall header,
     List.length header <= column_width repr_other site_data header
     /\ (forall entry, In entry site_data ->
           List.length (cell repr_other entry header)
           <= column_width repr_other site_data header)
     /\ (column_width repr_other site_data header = List.length header
         \/ exists entry, In entry site_data
                          /\ column_width repr_other site_data header
                             = List.length (cell repr_other entry header)))
  /\ (forall lines,
        display_site_list repr_other site_data = Some lines ->
        skipn 2 lines
        = map (fun entry =>
                 join [SPACE]
                   (map (fun header =>
                           cell repr_other entry header
                           ++ repeat SPACE (column_width repr_other site_data header
                                            - List.length (cell repr_other entry header)))
                      headers)) site_data).
Proof.
  split.
  - intros header. destruct (column_width_ge site_data header) as [H1 H2].
    split; [exact H1|]. split; [exact H2|].
    apply (fold_max_attained (fun e => List.length (cell repr_other e header))).
  - intros lines Hl. rewrite display_site_list_spec in Hl.
    inversion Hl; subst lines. reflexivity.
Qed.
End Table.

(** ** The order of the site records *)

Lemma str_compare_antisym a b : str_compare b a = CompOpp (str_compare a b).
Proof.
  revert b. induction a as [|x a IH]; intros [|y b]; cbn [str_compare]; try reflexivity.
  rewrite (N.compare_antisym x y).
  destruct (N.compare x y); cbn [CompOpp]; [apply IH | reflexivity | reflexivity].
Qed.

Lemma str_compare_refl a : str_compare a a = Eq.
Proof.
  induction a as [|x a IH]; [reflexivity|]. cbn [str_compare].
  rewrite N.compare_refl. exact IH.
Qed.

Lemma str_compare_eq a b : str_compare a b = Eq -> a = b.
Proof.
  revert b. induction a as [|x a IH]; intros [|y b]; cbn [str_compare];
    try discriminate; [reflexivity|].
  destruct (N.compare_spec x y); try discriminate. intros E. f_equal; auto.
Qed.

Lemma str_leb_total a b : str_leb a b = true \/ str_leb b a = true.
Proof.
  unfold str_leb. rewrite (str_compare_antisym a b).
  destruct (str_compare a b); cbn [CompOpp]; auto.
Qed.

Lemma str_leb_trans a b c : str_leb a b = true -> str_leb b c = true -> str_leb a c = true.
Proof.
  unfold str_leb. revert b c.
  induction a as [|x a IH]; intros [|y b] [|z c]; cbn [str_compare];
    try reflexivity; try discriminate.
  destruct (N.compare_spec x y) as [->|Hxy|Hxy]; try discriminate.
  - destruct (N.compare_spec y z) as [->|Hyz|Hyz]; try discriminate; [apply IH | reflexivity].
  - intros _. destruct (N.compare_spec y z) as [->|Hyz|Hyz]; try discriminate.
    + intros _. destruct (N.compare_spec x z); [lia | reflexivity | lia].
    + intros _. destruct (N.compare_spec x z); [lia | reflexivity | lia].
Qed.

Section SortedFacts.
Context {A K : Type}.
Variable lt : K -> K -> result bool.
Variable good : K -> Prop.
Variable leb : K -> K -> bool.
Hypothesis leb_total : forall a b, leb a b = true \/ leb b a = true.
Hypothesis leb_trans : forall a b c, leb a b = true -> leb b c = true -> leb a c = true.
Hypothesis lt_leb : forall a b, good a -> good b -> lt a b = Ok (negb (leb b a)).
Variable tie : K -> bool.
Hypothesis tie_leb : forall a b, tie a = true -> tie b = true -> leb a b = true.
Variable key : A -> result K.
Variable kf : A -> K.

(** [sorted(l, key=...)] on keys that the order compares: a permutation,
    ascending, in which elements with tied keys keep their order. *)
Lemma sorted_by_stable l :
  Forall (fun x => key x = Ok (kf x) /\ good (kf x)) l ->
  exists s, sorted_by lt key l = Ok s
            /\ Permutation l s
            /\ StronglySorted (fun a b => leb (kf a) (kf b) = true) s
            /\ filter (fun x => tie (kf x)) s = filter (fun x => tie (kf x)) l.
Proof.
  intros HF. unfold sorted_by, bind.
  rewrite (compute_keys_total key kf l)
    by (eapply Forall_impl; [|exact HF]; intros x Hx; apply Hx).
  set (ks := map (fun x => (kf x, x)) l).
  assert (Hg : Forall (fun y : K * A => good (fst y)) ks).
  { unfold ks. apply Forall_map.
    eapply Forall_impl; [|exact HF]. intros x Hx. apply Hx. }
  destruct (insertion_sort_stable lt good leb leb_total leb_trans lt_leb tie tie_leb
              ks [] (Forall_nil _) Hg (SSorted_nil _))
    as (r & Er & Hs & P & Hf).
  rewrite Er. cbn [app filter] in P, Hf.
  assert (Em : map snd ks = l).
  { unfold ks. rewrite map_map. cbn [snd]. apply map_id. }
  assert (F : Forall (fun p => fst p = kf (snd p)) r).
  { eapply Permutation_Forall; [exact P|].
    apply Forall_map, Forall_forall. reflexivity. }
  rewrite Forall_forall in F.
  exists (map snd r). split; [reflexivity|]. split; [|split].
  - rewrite <- Em at 1. apply Permutation_map, P.
  - apply StronglySorted_map.
    eapply StronglySorted_impl_in; [|exact Hs]. cbv beta.
    intros a b Ha Hb Hab. rewrite <- (F a Ha), <- (F b Hb). exact Hab.
  - rewrite (filter_map_comm snd (fun x => tie (kf x))).
    rewrite <- Em. rewrite (filter_map_comm snd (fun x => tie (kf x))). f_equal.
    transitivity (filter (fun a : K * A => tie (fst a)) r).
    + apply filter_ext_in. intros p Hp. rewrite (F p Hp). reflexivity.
    + rewrite Hf. apply filter_ext_in. intros p Hp. unfold ks in Hp.
      apply in_map_iff in Hp as (x & <- & _). reflexivity.
Qed.
End SortedFacts.

Section SiteOrder.
Variable other_lt : value -> value -> result bool.

Lemma py_lt_str a b :
  is_str a = true -> is_str b = true ->
  py_lt other_lt a b = Ok (negb (str_leb (text_of b) (text_of a))).
Proof.
  destruct a; try discriminate. destruct b; try discriminate. intros _ _.
  cbn [py_lt text_of]. unfold str_leb. rewrite (str_compare_antisym s s0).
  destruct (str_compare s s0); reflexivity.
Qed.

Lemma py_lt_mixed a b :
  is_str a <> is_str b -> py_lt other_lt a b = Raise TypeError.
Proof. destruct a as [| [|] | | | | |], b as [| [|] | | | | |]; cbn; congruence. Qed.

(** The sorted records when every [Site ID] is a [str]: a permutation in
    the order of the ids, in which the records of a class of ids that the
    order does not tell apart keep their order. *)
Lemma sorted_sites_tied site_data (tie : value -> bool) :
  Forall (fun x => is_str (site_id x) = true) site_data ->
  (forall a b, tie a = true -> tie b = true ->
               str_leb (text_of a) (text_of b) = true) ->
  exists s,
    sorted_sites other_lt site_data = Ok s /\ Permutation site_data s
    /\ StronglySorted
         (fun a b => str_leb (text_of (site_id a)) (text_of (site_id b)) = true) s
    /\ filter (fun x => tie (site_id x)) s = filter (fun x => tie (site_id x)) site_data.
Proof.
  intros HF Ht.
  apply (sorted_by_stable (py_lt other_lt) (fun v => is_str v = true)
           (fun a b => str_leb (text_of a) (text_of b))); try assumption.
  - intros a b. apply str_leb_total.
  - intros a b c. apply str_leb_trans.
  - apply py_lt_str.
  - eapply Forall_impl; [|exact HF]. intros x Hx. split; [reflexivity | exact Hx].
Qed.

(** X16: when the [Site ID] of every record is a [str], the records are
    listed in the order of their ids as [str] orders them, code point by
    code point: none is lost or added, and records with the same id keep
    the order in which they were collected. *)
Theorem sites_sorted_by_id site_data :
  Forall (fun x => is_str (site_id x) = true) site_data ->
  exists s,
    sorted_sites other_lt site_data = Ok s
    /\ Permutation site_data s
    /\ StronglySorted
         (fun a b => str_leb (text_of (site_id a)) (text_of (site_id b)) = true) s
    /\ forall id, filter (fun x => pystr_eqb (text_of (site_id x)) id) s
                  = filter (fun x => pystr_eqb (text_of (site_id x)) id) site_data.
Proof.
  intros HF.
  destruct (sorted_sites_tied site_data (fun _ => false) HF)
    as (s & Es & P & Hs & _); [discriminate|].
  exists s. split; [exact Es|]. split; [exact P|]. split; [exact Hs|].
  intros id.
  destruct (sorted_sites_tied site_data (fun v => pystr_eqb (text_of v) id) HF)
    as (s' & Es' & _ & _ & Hf).
  { intros a b Ea Eb. apply pystr_eqb_eq in Ea, Eb. rewrite Ea, Eb.
    unfold str_leb. rewrite str_compare_refl. reflexivity. }
  rewrite Es in Es'. inversion Es'; subst s'. exact Hf.
Qed.

Lemma py_lt_raise a b e :
  (forall u v e', other_lt u v = Raise e' -> e' = TypeError) ->
  py_lt other_lt a b = Raise e -> e = TypeError.
Proof.
  intros Ho.
  destruct a as [| [|] | | | | |], b as [| [|] | | | | |]; cbn [py_lt int_value];
    try discriminate; try (intros E; inversion E; reflexivity); apply Ho.
Qed.

Lemma insert_sorted_error {X : Type} (lt : value -> value -> result bool)
    (x : value * X) l e :
  (forall u v e', lt u v = Raise e' -> e' = TypeError) ->
  insert_sorted lt x l = Raise e -> e = TypeError.
Proof.
  intros Hlt. induction l as [|y l IH]; cbn [insert_sorted]; [discriminate|].
  unfold bind. destruct (lt (fst x) (fst y)) as [[|]|e'] eqn:E.
  - discriminate.
  - destruct (insert_sorted lt x l); [discriminate|].
    intros H; inversion H; subst. apply IH. reflexivity.
  - intros H; inversion H; subst. eapply Hlt, E.
Qed.

Lemma insertion_sort_error {X : Type} (lt : value -> value -> result bool)
    (todo : list (value * X)) :
  (forall u v e', lt u v = Raise e' -> e' = TypeError) ->
  forall done e, insertion_sort lt done todo = Raise e -> e = TypeError.
Proof.
  intros Hlt. induction todo as [|x todo IH]; intros done e; cbn [insertion_sort].
  - discriminate.
  - unfold bind. destruct (insert_sorted lt x done) as [d|e'] eqn:E.
    + apply IH.
    + intros H; inversion H; subst. eapply insert_sorted_error; eassumption.
Qed.

Lemma sorted_sites_mixed site_data x y :
  (forall u v e, other_lt u v = Raise e -> e = TypeError) ->
  In x site_data -> In y site_data ->
  is_str (site_id x) = true -> is_str (site_id y) = false ->
  sorted_sites other_lt site_data = Raise TypeError.
Proof.
  intros Ho Hx Hy Sx Sy. unfold sorted_sites, sorted_by, bind.
  rewrite (compute_keys_total (fun x => Ok (site_id x)) site_id site_data)
    by (apply Forall_forall; reflexivity).
  destruct (insertion_sort (py_lt other_lt) []
              (map (fun x => (site_id x, x)) site_data)) as [r|e] eqn:Er.
  - apply (insertion_sort_class _ is_str py_lt_mixed) in Er; [|intros ? ? []].
    cbn [app] in Er.
    specialize (Er (site_id x, x) (site_id y, y)
                  (in_map (fun x => (site_id x, x)) _ _ Hx)
                  (in_map (fun x => (site_id x, x)) _ _ Hy)).
    cbn [fst] in Er. congruence.
  - f_equal. eapply insertion_sort_error; [|exact Er].
    intros u v e'. apply py_lt_raise, Ho.
Qed.

Section MainSites.
Context {world : Type} `{OS world}.

(** X17: when the [Site ID] of one collected record is a [str] and that
    of another is not (a number, [null], a list or a dict), sorting the
    records raises [TypeError], and [main] ends with it: no table and no
    audits are printed. *)
Theorem mixed_site_ids_abort directory w versions site_data x y :
  (forall u v e, other_lt u v = Raise e -> e = TypeError) ->
  get_ndo_versions directory w = Ok versions ->
  collect_sites (glob_glob (path_join directory (str SITE_PATTERN)) w) w
    = Ok site_data ->
  In x site_data -> In y site_data ->
  is_str (site_id x) = true -> is_str (site_id y) = false ->
  sorted_sites other_lt site_data = Raise TypeError
  /\ main_report (sorted_sites other_lt) directory w = Raise TypeError.
Proof.
  intros Ho Hv Hc Hx Hy Sx Sy.
  pose proof (sorted_sites_mixed site_data x y Ho Hx Hy Sx Sy) as E.
  split; [exact E|]. unfold main_report, bind. rewrite Hv, Hc, E. reflexivity.
Qed.
End MainSites.
End SiteOrder.

(** ** The assembled array *)


Section Assembled.
Context {world : Type} `{OS world}.


End Assembled.

(** ** The whole report *)

Section WholeReport.
Context {world : Type} `{OS world}.
Variable other_lt : value -> value -> result bool.

End WholeReport.

(** ** The further properties on example inputs *)

Module OnMoreExamples.
Import SimFS Examples MoreExamples.


Lemma versions_all_sorted_witness :
  exists l,
    get_ndo_versions (str "ts") (one_file versions_path naive_versions) = Ok l
    /\ Permutation (map version_of (decoded_dicts (findall naive_versions))) l
    /\ StronglySorted (fun a b => (instant_of (snd b) <= instant_of (snd a))%Z) l.
Proof.
  apply (versions_all_sorted (str "ts") (one_file versions_path naive_versions)
           (str versions_path) [] naive_versions); vm_compute; reflexivity.
Defined.

Lemma last_audits_newest_witness :
  exists s,
    Permutation (map audit_of (filter kept_audit (decoded_dicts (findall naive_audits)))) s
    /\ get_last_audits (str "ts") (one_file audit_path naive_audits) = Ok (firstn 20 s)
    /\ List.length (firstn 20 s)
       = Nat.min 20 (List.length (filter kept_audit (decoded_dicts (findall naive_audits))))
    /\ forall x y, In x (firstn 20 s) -> In y (skipn 20 s) ->
                   (instant_of (fst y) <= instant_of (fst x))%Z.
Proof.
  apply (last_audits_newest (str "ts") (one_file audit_path naive_audits)
           (str audit_path) [] naive_audits); vm_compute; reflexivity.
Defined.

Lemma equal_timestamps_keep_order_witness :
  exists l,
    get_ndo_versions (str "ts") (one_file versions_path naive_versions) = Ok l
    /\ forall i,
         filter (fun e => (instant_of (snd e) =? i)%Z) l
         = filter (fun e => (instant_of (snd e) =? i)%Z)
             (map version_of (decoded_dicts (findall naive_versions))).
Proof.
  apply (proj1 (equal_timestamps_keep_order (str "ts")
                  (one_file versions_path naive_versions))
           (str versions_path) [] naive_versions); vm_compute; reflexivity.
Defined.

Lemma no_version_file_aborts_witness :
  get_ndo_versions (str "ts") (one_file audit_path naive_audits)
  = Raise UnboundLocalError
  /\ forall sort_sites,
       main_report sort_sites (str "ts") (one_file audit_path naive_audits)
       = Raise UnboundLocalError.
Proof.
  apply (proj1 (no_version_file_aborts (str "ts") (one_file audit_path naive_audits))).
  vm_compute. reflexivity.
Defined.

Lemma no_audits_is_empty_witness :
  get_last_audits (str "ts") (one_file versions_path naive_versions) = Ok [].
Proof.
  apply (proj1 (no_audits_is_empty (str "ts") (one_file versions_path naive_versions))).
  vm_compute. reflexivity.
Defined.

Lemma extract_dir_is_stem_witness :
  replace (str "ts/logs" ++ str ".zip") (str ".zip") [] = str "ts/logs"
  /\ process_file 2 (str "ts/logs" ++ str ".zip") plain_directory
     = (w1 <- os_makedirs (str "ts/logs") plain_directory ;;
        w2 <- zip_extractall (str "ts/logs" ++ str ".zip") (str "ts/logs") w1 ;;
        handle_extracted_directory 1 (str "ts/logs") w2).
Proof.
  apply (proj1 (extract_dir_is_stem 1 (str "ts/logs") plain_directory)).
  vm_compute. reflexivity.
Defined.

Lemma main_extracts_onto_own_path_witness :
  main (sorted_sites no_other_lt) 2 (str "bundle.bin") misnamed
  = (w1 <- zip_extractall (str "bundle.bin") (str "bundle.bin") misnamed ;;
     w2 <- handle_extracted_directory 2 (str "bundle.bin") w1 ;;
     main_report (sorted_sites no_other_lt) (str "bundle.bin") w2).
Proof.
  apply (main_extracts_onto_own_path (sorted_sites no_other_lt) 2 (str "bundle.bin")).
  vm_compute. reflexivity.
Defined.

Lemma plain_directory_untouched_witness :
  handle_extracted_directory 1 (str "t") plain_directory = Ok plain_directory.
Proof.
  apply (plain_directory_untouched 0 (str "t") [str "sub"; str "notes.txt"]);
    vm_compute; reflexivity.
Defined.

Lemma self_listed_archive_recurs_witness :
  process_file 50 (str "t/.zip") self_listed = Raise RecursionError.
Proof.
  apply (self_listed_archive_recurs 50 (str "t/.zip") [] (str ".zip") [str "a.json"]);
    vm_compute; reflexivity.
Defined.


Lemma columns_fit_witness :
  skipn 2 [str "Site ID Name Site Version    Site OID        ";
           str "------- ---- --------------- ----------------";
           str "2       B    Unknown Version Unknown Site OID"]
  = map (fun entry =>
           join [SPACE]
             (map (fun header =>
                     cell (fun _ => []) entry header
                     ++ repeat SPACE
                          (column_width (fun _ => []) [site_record "2" "B"] header
                           - List.length (cell (fun _ => []) entry header)))
                headers)) [site_record "2" "B"].
Proof.
  apply (proj2 (columns_fit (fun _ => []) [site_record "2" "B"])).
  vm_compute. reflexivity.
Defined.

Lemma sites_sorted_by_id_witness :
  exists s,
    sorted_sites no_other_lt
      [site_record "2" "B"; site_record "10" "C"; site_record "1" "A"] = Ok s
    /\ Permutation [site_record "2" "B"; site_record "10" "C"; site_record "1" "A"] s
    /\ StronglySorted
         (fun a b => str_leb (text_of (site_id a)) (text_of (site_id b)) = true) s
    /\ forall id,
         filter (fun x => pystr_eqb (text_of (site_id x)) id) s
         = filter (fun x => pystr_eqb (text_of (site_id x)) id)
             [site_record "2" "B"; site_record "10" "C"; site_record "1" "A"].
Proof.
  apply (sites_sorted_by_id no_other_lt).
  repeat constructor.
Defined.

Lemma mixed_site_ids_abort_witness :
  sorted_sites no_other_lt
    [[(str "Site ID", JStr (str "2")); (str "Name", JStr (str "B"));
      (str "Site Version", JStr (str "Unknown Version"));
      (str "Site OID", JStr (str "Unknown Site OID"))];
     [(str "Site ID", JInt 7); (str "Name", JStr (str "C"));
      (str "Site Version", JStr (str "Unknown Version"));
      (str "Site OID", JStr (str "Unknown Site OID"))]]
  = Raise TypeError
  /\ main_report (sorted_sites no_other_lt) (str "ts") (versions_and_sites number_site)
     = Raise TypeError.
Proof.
  assert (Hv : get_ndo_versions (str "ts") (versions_and_sites number_site)
               = Ok [(JStr (str "1.1"), JStr (str "2024-02-01T00:00:00"));
                     (JStr (str "1.0"), JStr (str "2024-01-01T00:00:00"))])
    by (vm_compute; reflexivity).
  assert (Hc : collect_sites
                 (glob_glob (path_join (str "ts") (str SITE_PATTERN))
                    (versions_and_sites number_site))
                 (versions_and_sites number_site)
               = Ok [[(str "Site ID", JStr (str "2")); (str "Name", JStr (str "B"));
                      (str "Site Version", JStr (str "Unknown Version"));
                      (str "Site OID", JStr (str "Unknown Site OID"))];
                     [(str "Site ID", JInt 7); (str "Name", JStr (str "C"));
                      (str "Site Version", JStr (str "Unknown Version"));
                      (str "Site OID", JStr (str "Unknown Site OID"))]])
    by (vm_compute; reflexivity).
  apply (mixed_site_ids_abort no_other_lt (str "ts") (versions_and_sites number_site)
           _ _ _ _ (fun u v e E => eq_sym (f_equal (fun r => match r with
                                                            | Raise x => x
                                                            | Ok _ => TypeError
                                                            end) E))
           Hv Hc (or_introl eq_refl) (or_intror (or_introl eq_refl))
           eq_refl eq_refl).
Defined.

End OnMoreExamples.
